(** * mcp-openapi-schema-explorer: resource addressing and resolution

    A shallow embedding of the URI builders, the request handlers, the spec
    registry and the completion callbacks of the OpenAPI schema explorer,
    together with the properties its specification states about them.

    JavaScript strings are sequences of UTF-16 code units; they are modelled
    as lists of integers.  JavaScript objects used as dictionaries are
    modelled as association lists in own-property enumeration order, which is
    the order [Object.keys] and [Object.entries] report. *)

From Stdlib Require Import ZArith List Bool String Ascii Lia Permutation.
From Stdlib Require Import DecimalString.
Import ListNotations.
Open Scope Z_scope.

(** ** JavaScript strings and the built-ins the sources call *)

Module JS.

Definition jsstring := list Z.

(** An ASCII literal as a JavaScript string. *)
Definition js (s : string) : jsstring :=
  map (fun a => Z.of_N (N_of_ascii a)) (list_ascii_of_string s).

Definition codeUnit (c : Z) : Prop := 0 <= c < 65536.

Definition inRange (lo hi c : Z) : bool := (lo <=? c) && (c <=? hi).

Fixpoint eqb (a b : jsstring) : bool :=
  match a, b with
  | [], [] => true
  | x :: a', y :: b' => (x =? y) && eqb a' b'
  | _, _ => false
  end.

Definition isEmpty (s : jsstring) : bool :=
  match s with [] => true | _ => false end.

(** [s.startsWith(p)] *)
Fixpoint startsWith (p s : jsstring) : bool :=
  match p, s with
  | [], _ => true
  | x :: p', y :: s' => (x =? y) && startsWith p' s'
  | _ :: _, [] => false
  end.

(** [parts.join(sep)] *)
Fixpoint join (sep : jsstring) (parts : list jsstring) : jsstring :=
  match parts with
  | [] => []
  | [p] => p
  | p :: rest => p ++ sep ++ join sep rest
  end.

(** [arr.includes(x)] on an array of strings *)
Definition includes (arr : list jsstring) (x : jsstring) : bool :=
  existsb (eqb x) arr.

(** Template-literal rendering of a non-negative integer. *)
Definition ofNat (n : nat) : jsstring :=
  js (NilEmpty.string_of_uint (Nat.to_uint n)).

(** *** Surrogates and UTF-16 *)

Definition isLeadingSurrogate (c : Z) : bool := inRange 55296 56319 c.
Definition isTrailingSurrogate (c : Z) : bool := inRange 56320 57343 c.
Definition isSurrogate (c : Z) : bool := inRange 55296 57343 c.

Definition utf16Decode (lead trail : Z) : Z :=
  (lead - 55296) * 1024 + (trail - 56320) + 65536.

Definition utf16Encode (cp : Z) : jsstring :=
  if cp <? 65536 then [cp]
  else [55296 + (cp - 65536) / 1024; 56320 + (cp - 65536) mod 1024].

(** [s.isWellFormed()]: no lone surrogate. *)
Fixpoint isWellFormed (s : jsstring) : bool :=
  match s with
  | [] => true
  | c :: rest =>
      if isLeadingSurrogate c then
        match rest with
        | d :: rest' => isTrailingSurrogate d && isWellFormed rest'
        | [] => false
        end
      else negb (isTrailingSurrogate c) && isWellFormed rest
  end.

(** *** UTF-8 *)

Definition utf8Octets (cp : Z) : list Z :=
  if cp <? 128 then [cp]
  else if cp <? 2048 then [192 + cp / 64; 128 + cp mod 64]
  else if cp <? 65536 then
    [224 + cp / 4096; 128 + (cp / 64) mod 64; 128 + cp mod 64]
  else
    [240 + cp / 262144; 128 + (cp / 4096) mod 64;
     128 + (cp / 64) mod 64; 128 + cp mod 64].

(** The code point of a multi-octet UTF-8 sequence, [None] when the sequence
    is over-long, encodes a surrogate or exceeds U+10FFFF. *)
Definition utf8CodePoint (octets : list Z) : option Z :=
  match octets with
  | [b1; b2] =>
      let v := (b1 - 192) * 64 + (b2 - 128) in
      if 128 <=? v then Some v else None
  | [b1; b2; b3] =>
      let v := (b1 - 224) * 4096 + (b2 - 128) * 64 + (b3 - 128) in
      if (2048 <=? v) && negb (isSurrogate v) then Some v else None
  | [b1; b2; b3; b4] =>
      let v := (b1 - 240) * 262144 + (b2 - 128) * 4096
               + (b3 - 128) * 64 + (b4 - 128) in
      if (65536 <=? v) && (v <=? 1114111) then Some v else None
  | _ => None
  end.

(** A Unicode scalar value: a code point that is not a surrogate. *)
Definition isScalar (cp : Z) : Prop :=
  0 <= cp <= 1114111 /\ isSurrogate cp = false.

(** A UTF-8 continuation octet, 10xxxxxx. *)
Definition isContinuation (b : Z) : Prop := 128 <= b <= 191.

(** *** Percent escapes *)

Definition percent : Z := 37.

Definition hexDigit (d : Z) : Z := if d <? 10 then 48 + d else 55 + d.

Definition hexValue (c : Z) : option Z :=
  if inRange 48 57 c then Some (c - 48)
  else if inRange 65 70 c then Some (c - 55)
  else if inRange 97 102 c then Some (c - 87)
  else None.

Definition escapeOctet (b : Z) : jsstring :=
  [percent; hexDigit (b / 16); hexDigit (b mod 16)].

Definition escapeOctets (bs : list Z) : jsstring :=
  flat_map escapeOctet bs.

(** uriUnescaped: uriAlpha, DecimalDigit and uriMark [- _ . ! ~ * ' ( )]. *)
Definition uriUnescaped (c : Z) : bool :=
  inRange 65 90 c || inRange 97 122 c || inRange 48 57 c
  || existsb (Z.eqb c) [45; 95; 46; 33; 126; 42; 39; 40; 41].

(** [encodeURIComponent(s)]; [None] is a thrown URIError. *)
Fixpoint encodeURIComponent (s : jsstring) : option jsstring :=
  match s with
  | [] => Some []
  | c :: rest =>
      if uriUnescaped c then option_map (cons c) (encodeURIComponent rest)
      else if isLeadingSurrogate c then
        match rest with
        | d :: rest' =>
            if isTrailingSurrogate d then
              option_map (app (escapeOctets (utf8Octets (utf16Decode c d))))
                         (encodeURIComponent rest')
            else None
        | [] => None
        end
      else if isTrailingSurrogate c then None
      else option_map (app (escapeOctets (utf8Octets c)))
                      (encodeURIComponent rest)
  end.

(** One escape [%XX] at the head of [s]: its octet and the rest. *)
Definition readOctet (s : jsstring) : option (Z * jsstring) :=
  match s with
  | p :: h1 :: h2 :: rest =>
      if p =? percent then
        match hexValue h1, hexValue h2 with
        | Some a, Some b => Some (16 * a + b, rest)
        | _, _ => None
        end
      else None
  | _ => None
  end.

(** [n] continuation escapes, each with its two top bits equal to 10. *)
Fixpoint readContinuation (n : nat) (s : jsstring)
  : option (list Z * jsstring) :=
  match n with
  | O => Some ([], s)
  | S n' =>
      match readOctet s with
      | Some (b, rest) =>
          if inRange 128 191 b then
            match readContinuation n' rest with
            | Some (bs, rest') => Some (b :: bs, rest')
            | None => None
            end
          else None
      | None => None
      end
  end.

(** Number of leading 1 bits of an octet (5 stands for "more than 4"). *)
Definition leadingOnes (b : Z) : nat :=
  if b <? 128 then 0%nat
  else if b <? 192 then 1%nat
  else if b <? 224 then 2%nat
  else if b <? 240 then 3%nat
  else if b <? 248 then 4%nat
  else 5%nat.

(** The Decode loop of [decodeURIComponent] (empty reserved set); each
    iteration consumes one unit of fuel and at least one code unit. *)
Fixpoint Decode (fuel : nat) (s : jsstring) : option jsstring :=
  match s with
  | [] => Some []
  | c :: rest =>
      match fuel with
      | O => None
      | S fuel' =>
          if negb (c =? percent) then option_map (cons c) (Decode fuel' rest)
          else
            match readOctet s with
            | None => None
            | Some (b, rest1) =>
                match leadingOnes b with
                | O => option_map (cons b) (Decode fuel' rest1)
                | S O => None
                | S (S (S (S (S _)))) => None
                | S k =>
                    match readContinuation k rest1 with
                    | None => None
                    | Some (bs, rest2) =>
                        match utf8CodePoint (b :: bs) with
                        | None => None
                        | Some v =>
                            option_map (app (utf16Encode v))
                                       (Decode fuel' rest2)
                        end
                    end
                end
            end
      end
  end.

(** [decodeURIComponent(s)]; [None] is a thrown URIError. *)
Definition decodeURIComponent (s : jsstring) : option jsstring :=
  Decode (List.length s) s.

(** *** String.prototype methods used by the sources *)

(** WhiteSpace and LineTerminator code points: what [trim] strips and what
    the regular-expression class [\s] matches. *)
Definition isSpace (c : Z) : bool :=
  inRange 9 13 c
  || existsb (Z.eqb c) [32; 160; 5760; 8232; 8233; 8239; 8287; 12288; 65279]
  || inRange 8192 8202 c.

(** The regular-expression class [\w] (no unicode or ignoreCase flag). *)
Definition isWord (c : Z) : bool :=
  inRange 65 90 c || inRange 97 122 c || inRange 48 57 c || (c =? 95).

(** Lower-case mapping of one code unit.  ASCII letters are exact.  Outside
    ASCII the model keeps the two mappings whose result contains an ASCII
    letter (U+0130 and the Kelvin sign U+212A); any other code unit stands
    for its own lower-case form, which is again neither ASCII nor white
    space. *)
Definition lowerUnit (c : Z) : jsstring :=
  if inRange 65 90 c then [c + 32]
  else if c =? 304 then [105; 775]
  else if c =? 8490 then [107]
  else [c].

(** [s.toLowerCase()] *)
Definition toLowerCase (s : jsstring) : jsstring := flat_map lowerUnit s.

(** [s.toUpperCase()] restricted to ASCII letters. *)
Definition toUpperCase (s : jsstring) : jsstring :=
  map (fun c => if inRange 97 122 c then c - 32 else c) s.

Fixpoint dropWhile (p : Z -> bool) (s : jsstring) : jsstring :=
  match s with
  | [] => []
  | c :: rest => if p c then dropWhile p rest else s
  end.

Definition dropWhileEnd (p : Z -> bool) (s : jsstring) : jsstring :=
  rev (dropWhile p (rev s)).

(** [s.trim()] *)
Definition trim (s : jsstring) : jsstring :=
  dropWhileEnd isSpace (dropWhile isSpace s).

(** [s.replace(/[C]/g, '')] for a character class [C] *)
Definition removeAll (p : Z -> bool) (s : jsstring) : jsstring :=
  filter (fun c => negb (p c)) s.

(** [s.replace(/[C]+/g, r)]: every maximal run of [C] becomes [r]; the
    replacement is emitted at the last code unit of the run. *)
Fixpoint replaceRuns (p : Z -> bool) (r : jsstring) (s : jsstring)
  : jsstring :=
  match s with
  | [] => []
  | c :: rest =>
      if p c then
        match rest with
        | d :: _ => if p d then replaceRuns p r rest
                    else r ++ replaceRuns p r rest
        | [] => r
        end
      else c :: replaceRuns p r rest
  end.

(** [s.slice(0, n)] *)
Definition slice0 (n : nat) (s : jsstring) : jsstring := firstn n s.

(** The double-quote character, U+0022. *)
Definition dquote : jsstring := [34].

Definition quoted (s : jsstring) : jsstring := dquote ++ s ++ dquote.

End JS.

Import JS.

(** ** Exceptions and the calls a request makes

    A computation may throw an [Error] with a message and may call the spec
    manager and the loaders; the calls are recorded in order, so that "the
    document was never fetched" is a statement about the record. *)

Module Eff.

Inductive Outcome (A : Type) : Type :=
| Returned (a : A)
| Thrown (message : jsstring).
Arguments Returned {A} a.
Arguments Thrown {A} message.

Inductive Event : Type :=
| GetLoader (specId : jsstring)
| GetTransformedSpec (loader : nat).

Definition Eff (A : Type) : Type := list Event -> Outcome A * list Event.

Definition ret {A} (a : A) : Eff A := fun log => (Returned a, log).

Definition bind {A B} (m : Eff A) (k : A -> Eff B) : Eff B :=
  fun log =>
    match m log with
    | (Returned a, log') => k a log'
    | (Thrown e, log') => (Thrown e, log')
    end.

Definition throw {A} (message : jsstring) : Eff A :=
  fun log => (Thrown message, log).

Definition emit (ev : Event) : Eff unit :=
  fun log => (Returned tt, log ++ [ev]).

(** [try { m } catch (error) { h(error.message) }] *)
Definition tryCatch {A} (m : Eff A) (h : jsstring -> Eff A) : Eff A :=
  fun log =>
    match m log with
    | (Returned a, log') => (Returned a, log')
    | (Thrown e, log') => h e log'
    end.

(** A value of a built-in that throws URIError on [None]. *)
Definition orURIError {A} (o : option A) : Eff A :=
  match o with
  | Some a => ret a
  | None => throw (js "URI malformed")
  end.

Definition ofOutcome {A} (o : Outcome A) : Eff A :=
  match o with
  | Returned a => ret a
  | Thrown e => throw e
  end.

(** Run a request from an empty record of calls. *)
Definition run {A} (m : Eff A) : Outcome A * list Event := m [].

Definition called (p : Event -> bool) (log : list Event) : bool :=
  existsb p log.

Definition isGetTransformedSpec (ev : Event) : bool :=
  match ev with GetTransformedSpec _ => true | GetLoader _ => false end.

End Eff.

Import Eff.

Notation "x <- m ;; k" := (bind m (fun x => k))
  (at level 61, m at next level, right associativity).
Notation "m ;;; k" := (bind m (fun _ => k))
  (at level 61, right associativity).

(** ** utils/uri-builder.ts *)

Module UriBuilder.

Definition BASE_URI_SCHEME : jsstring := js "openapi://".

(** [path.replace(/^\/+/, '')] *)
Definition stripLeadingSlashes (path : jsstring) : jsstring :=
  dropWhile (fun c => c =? 47) path.

Definition encodeUriPathComponent (path : jsstring) : option jsstring :=
  let pathWithoutLeadingSlash := stripLeadingSlashes path in
  encodeURIComponent pathWithoutLeadingSlash.

Definition buildComponentDetailUri (specId type name : jsstring) : jsstring :=
  BASE_URI_SCHEME ++ specId ++ js "/components/" ++ type ++ js "/" ++ name.

Definition buildComponentMapUri (specId type : jsstring) : jsstring :=
  BASE_URI_SCHEME ++ specId ++ js "/components/" ++ type.

Definition buildOperationUri (specId path method : jsstring)
  : option jsstring :=
  option_map
    (fun e => BASE_URI_SCHEME ++ specId ++ js "/paths/" ++ e ++ js "/"
              ++ toLowerCase method)
    (encodeUriPathComponent path).

Definition buildPathItemUri (specId path : jsstring) : option jsstring :=
  option_map (fun e => BASE_URI_SCHEME ++ specId ++ js "/paths/" ++ e)
             (encodeUriPathComponent path).

Definition buildComponentDetailUriSuffix (type name : jsstring) : jsstring :=
  js "components/" ++ type ++ js "/" ++ name.

Definition buildComponentMapUriSuffix (type : jsstring) : jsstring :=
  js "components/" ++ type.

Definition buildOperationUriSuffix (path method : jsstring)
  : option jsstring :=
  option_map (fun e => js "paths/" ++ e ++ js "/" ++ toLowerCase method)
             (encodeUriPathComponent path).

Definition buildPathItemUriSuffix (path : jsstring) : option jsstring :=
  option_map (fun e => js "paths/" ++ e) (encodeUriPathComponent path).

End UriBuilder.

(** ** The document (openapi-types, after dereferencing) *)

Module OpenAPI.

#[local] Unset Elimination Schemes.
Inductive Json : Type :=
| JNull
| JBool (b : bool)
| JNumber (n : Z)
| JString (s : jsstring)
| JArray (items : list Json)
| JObject (fields : list (jsstring * Json)).
#[local] Set Elimination Schemes.

(** An object used as a dictionary, in own-property order. *)
Definition Dict (A : Type) : Type := list (jsstring * A).

Fixpoint get {A} (d : Dict A) (k : jsstring) : option A :=
  match d with
  | [] => None
  | (k', v) :: rest => if eqb k k' then Some v else get rest k
  end.

(** [Object.keys(d)] *)
Definition keys {A} (d : Dict A) : list jsstring := map fst d.

Definition hasKey {A} (d : Dict A) (k : jsstring) : bool :=
  match get d k with Some _ => true | None => false end.

Record Info : Type := {
  title : option jsstring;
  description : option jsstring;
  version : option jsstring
}.

(** A path item: keys are HTTP methods and the other path-item fields
    ([parameters], [summary], ...); the value under a method key is the
    operation object. *)
Definition PathItem : Type := Dict Json.

Definition ComponentMap : Type := Dict Json.

Record Document : Type := {
  info : option Info;
  paths : option (Dict PathItem);
  components : option (Dict ComponentMap)
}.

(** What a loader hands out; [isOpenAPIV3] is the guard on the tag. *)
Inductive TransformedSpec : Type :=
| V3Document (d : Document)
| OtherDocument.

(** A string-valued field that is present and truthy. *)
Definition truthyStringField (o : Json) (k : jsstring) : option jsstring :=
  match o with
  | JObject fields =>
      match get fields k with
      | Some (JString s) => if isEmpty s then None else Some s
      | _ => None
      end
  | _ => None
  end.

End OpenAPI.

Import OpenAPI.

(** ** services/spec-manager.ts *)

Module SpecManager.

(** A [SpecLoaderService] object once [loadSpec] has succeeded.  [ident] is
    the identity of the object ([new] makes a fresh one per file path);
    [rawSpec] is what [getSpec] returns and [transformedSpec] the outcome of
    [getTransformedSpec]. *)
Record Loader : Type := {
  ident : nat;
  filePath : jsstring;
  rawSpec : Document;
  transformedSpec : Outcome TransformedSpec
}.

Record LoadedSpec : Type := {
  slug : jsstring;
  title : jsstring;
  description : jsstring;
  version : jsstring;
  pathCount : nat;
  loader : Loader
}.

(** The [Map<string, LoadedSpec>] of the service, in insertion order. *)
Definition Registry : Type := list (jsstring * LoadedSpec).

Definition isHyphen (c : Z) : bool := c =? 45.

Definition slugify (text : jsstring) : jsstring :=
  let lowered := toLowerCase text in
  let trimmed := trim lowered in
  let stripped :=
    removeAll (fun c => negb (isWord c || isSpace c || isHyphen c)) trimmed in
  let hyphenated :=
    replaceRuns (fun c => isSpace c || (c =? 95)) (js "-") stripped in
  let collapsed := replaceRuns isHyphen (js "-") hyphenated in
  dropWhileEnd isHyphen (dropWhile isHyphen collapsed).

(** [a || b] on strings: [b] when [a] is undefined or empty. *)
Definition orElse (a : option jsstring) (b : jsstring) : jsstring :=
  match a with
  | Some s => if isEmpty s then b else s
  | None => b
  end.

Fixpoint takeWhile (p : Z -> bool) (s : jsstring) : jsstring :=
  match s with
  | [] => []
  | c :: rest => if p c then c :: takeWhile p rest else []
  end.

(** [filePath.split('/').pop()]: the part after the last slash. *)
Definition lastSegment (filePath : jsstring) : jsstring :=
  rev (takeWhile (fun c => negb (c =? 47)) (rev filePath)).

(** [s.endsWith(ext)] up to the case of ASCII letters, as the [i] flag of a
    non-unicode regular expression compares. *)
Definition endsWithIgnoreCase (ext s : jsstring) : bool :=
  startsWith (rev ext)
             (map (fun c => if inRange 65 90 c then c + 32 else c) (rev s)).

(** [name.replace(/\.(json|yaml|yml)$/i, '')] *)
Definition stripSpecExtension (name : jsstring) : jsstring :=
  if endsWithIgnoreCase (js ".json") name then rev (skipn 5 (rev name))
  else if endsWithIgnoreCase (js ".yaml") name then rev (skipn 5 (rev name))
  else if endsWithIgnoreCase (js ".yml") name then rev (skipn 4 (rev name))
  else name.

(** [specs.has(slug)] *)
Definition has (specs : Registry) (s : jsstring) : bool := hasKey specs s.

(** [specs.set(slug, entry)] for a slug the map does not hold yet. *)
Definition set (specs : Registry) (s : jsstring) (entry : LoadedSpec)
  : Registry :=
  specs ++ [(s, entry)].

Definition infoTitle (spec : Document) : option jsstring :=
  match info spec with Some i => OpenAPI.title i | None => None end.

Definition infoDescription (spec : Document) : option jsstring :=
  match info spec with Some i => OpenAPI.description i | None => None end.

Definition infoVersion (spec : Document) : option jsstring :=
  match info spec with Some i => OpenAPI.version i | None => None end.

(** The slug [loadSpecs] derives for a document loaded from [path]. *)
Definition slugFor (path : jsstring) (spec : Document) : jsstring :=
  let t := orElse (infoTitle spec) (js "Untitled API") in
  let s := slugify t in
  if isEmpty s then
    let fileName := orElse (Some (stripSpecExtension (lastSegment path)))
                           (js "api") in
    slugify fileName
  else s.

Definition entryFor (s : jsstring) (spec : Document) (l : Loader)
  : LoadedSpec :=
  {| slug := s;
     title := orElse (infoTitle spec) (js "Untitled API");
     description := orElse (infoDescription spec) [];
     version := orElse (infoVersion spec) [];
     pathCount := match paths spec with
                  | Some ps => List.length (keys ps)
                  | None => 0%nat
                  end;
     loader := l |}.

(** [new SpecLoaderService(filePath, ...)] after a successful [loadSpec()];
    [i] is the identity of the new object. *)
Definition loaderOf (i : nat) (path : jsstring) (doc : Document)
           (tr : Outcome TransformedSpec) : Loader :=
  {| ident := i; filePath := path; rawSpec := doc; transformedSpec := tr |}.

Section Loading.

(** The outcome of [loader.loadSpec()] for a file path: the parsed
    document and the outcome its transformation will have. *)
Variable fetch : jsstring -> Outcome (Document * Outcome TransformedSpec).

(** The [for] loop of [loadSpecs]; [next] counts the loaders made so far.
    A failing [loadSpec] rejects the whole call and leaves the map as it
    is at that point. *)
Fixpoint loadLoop (next : nat) (specPaths : list jsstring)
         (specs : Registry) : Registry * Outcome unit :=
  match specPaths with
  | [] => (specs, Returned tt)
  | path :: rest =>
      match fetch path with
      | Thrown e => (specs, Thrown e)
      | Returned (spec, transformed) =>
          let l := loaderOf next path spec transformed in
          let s := slugFor path spec in
          if has specs s then loadLoop (S next) rest specs
          else loadLoop (S next) rest (set specs s (entryFor s spec l))
      end
  end.

Definition noSpecsMessage : jsstring :=
  js "No specs were loaded successfully.".

Definition loadSpecs (specPaths : list jsstring) (specs : Registry)
  : Registry * Outcome unit :=
  match loadLoop 0 specPaths specs with
  | (specs', Returned _) =>
      if (List.length specs' =? 0)%nat then (specs', Thrown noSpecsMessage)
      else (specs', Returned tt)
  | (specs', Thrown e) => (specs', Thrown e)
  end.

End Loading.

Definition getAllSpecs (specs : Registry) : list LoadedSpec := map snd specs.

Definition getSpecSlugs (specs : Registry) : list jsstring := keys specs.

Definition getSpec (specs : Registry) (s : jsstring) : option LoadedSpec :=
  get specs s.

Definition getLoader (specs : Registry) (s : jsstring) : Eff Loader :=
  emit (GetLoader s) ;;;
  match get specs s with
  | None =>
      throw (js "Spec " ++ quoted s ++ js " not found. Available: "
             ++ join (js ", ") (getSpecSlugs specs))
  | Some spec => ret (loader spec)
  end.

(** [loader.getTransformedSpec({...})] *)
Definition getTransformedSpec (l : Loader) : Eff TransformedSpec :=
  emit (GetTransformedSpec (ident l)) ;;;
  ofOutcome (transformedSpec l).

End SpecManager.


(** ** rendering/types.ts and rendering/utils.ts *)

Module Rendering.

Import UriBuilder.

Record RenderContext : Type := {
  baseUri : jsstring;
  specId : jsstring
}.

Inductive Payload : Type :=
| NoData
| TextData (text : jsstring)
| ObjectData (value : Json).

Record RenderResultItem : Type := {
  uriSuffix : jsstring;
  data : Payload;
  isError : bool;
  errorText : option jsstring;
  renderAsList : bool
}.

Definition getOperationSummary (operation : option Json) : option jsstring :=
  match operation with
  | None => None
  | Some op =>
      match truthyStringField op (js "summary") with
      | Some s => Some s
      | None => truthyStringField op (js "operationId")
      end
  end.

Inductive ListItemType : Type := componentType | componentName | pathMethod.

Record HintContext : Type := {
  itemType : ListItemType;
  firstItemExample : option jsstring;
  parentComponentType : option jsstring;
  parentPath : option jsstring
}.

Definition truthy (o : option jsstring) : option jsstring :=
  match o with
  | Some s => if isEmpty s then None else Some s
  | None => None
  end.

Definition hintText (ctx : RenderContext) (pattern itemTypeName : jsstring)
           (example : option jsstring) : jsstring :=
  let fullHintPattern := baseUri ctx ++ pattern in
  [10] ++ js "Hint: Use '" ++ fullHintPattern
  ++ js "' to view details for a specific " ++ itemTypeName ++ js "."
  ++ match example with
     | Some e => js " (e.g., " ++ baseUri ctx ++ e ++ js ")"
     | None => []
     end.

(** [None] is a URIError thrown by the path encoder. *)
Definition generateListHint (ctx : RenderContext) (hint : HintContext)
  : option jsstring :=
  let specIdPrefix :=
    if isEmpty (specId ctx) then [] else specId ctx ++ js "/" in
  match itemType hint with
  | componentType =>
      Some (hintText ctx
              (specIdPrefix ++ buildComponentMapUriSuffix (js "{type}"))
              (js "component type")
              (option_map
                 (fun ex => specIdPrefix ++ buildComponentMapUriSuffix ex)
                 (truthy (firstItemExample hint))))
  | componentName =>
      match truthy (parentComponentType hint) with
      | None => Some []
      | Some parent =>
          Some (hintText ctx
                  (specIdPrefix
                   ++ buildComponentDetailUriSuffix parent (js "{name}"))
                  (removelast parent)
                  (option_map
                     (fun ex =>
                        specIdPrefix ++ buildComponentDetailUriSuffix parent ex)
                     (truthy (firstItemExample hint))))
      end
  | pathMethod =>
      match truthy (parentPath hint) with
      | None => Some []
      | Some parent =>
          match buildOperationUriSuffix parent (js "{method}") with
          | None => None
          | Some pattern =>
              match truthy (firstItemExample hint) with
              | None =>
                  Some (hintText ctx (specIdPrefix ++ pattern)
                                 (js "operation") None)
              | Some ex =>
                  option_map
                    (fun e => hintText ctx (specIdPrefix ++ pattern)
                                       (js "operation")
                                       (Some (specIdPrefix ++ e)))
                    (buildOperationUriSuffix parent ex)
              end
          end
      end
  end.

Definition createErrorResult (suffix message : jsstring)
  : list RenderResultItem :=
  [ {| uriSuffix := suffix;
       data := NoData;
       isError := true;
       errorText := Some message;
       renderAsList := true |} ].

End Rendering.

Import Rendering.

(** ** rendering/components.ts, rendering/path-item.ts and
       handlers/handler-utils.ts *)

Module HandlerUtils.

Import UriBuilder.

(** Modelled from the spec: the constant [VALID_COMPONENT_TYPES] of
    rendering/components.ts, the fixed allow-list of component categories. *)
Definition VALID_COMPONENT_TYPES : list jsstring :=
  map js ["schemas"; "responses"; "parameters"; "examples"; "requestBodies";
          "headers"; "securitySchemes"; "links"; "callbacks"]%string.

(** Modelled from the spec: the canonical method set of a path item, in
    canonical order (the [HttpMethods] enumeration of openapi-types). *)
Definition HTTP_METHODS : list jsstring :=
  map js ["get"; "post"; "put"; "delete"; "patch"; "options"; "head";
          "trace"]%string.

Inductive MimeType : Type := TextPlain | FormatterMime.

(** The text of a formatted item: plain text, or the active formatter's
    serialization of a value (the formatter is an external collaborator). *)
Inductive Content : Type :=
| Text (text : jsstring)
| Serialized (value : Json).

Record FormattedResultItem : Type := {
  uri : jsstring;
  mimeType : MimeType;
  text : Content;
  isErrorItem : bool
}.

(** Modelled from the spec: [formatResults] of handlers/handler-utils.ts.
    Each item gets its fully-qualified URI [openapi://{specId}/{suffix}];
    errors and list views are text/plain, detail views carry the resolved
    object for the formatter. *)
Definition formatResults (ctx : RenderContext)
           (items : list RenderResultItem) : list FormattedResultItem :=
  map (fun item =>
         {| uri := baseUri ctx ++ specId ctx ++ js "/" ++ uriSuffix item;
            mimeType := if isError item || renderAsList item
                        then TextPlain else FormatterMime;
            text := if isError item
                    then Text (match errorText item with
                               | Some m => m
                               | None => []
                               end)
                    else match data item with
                         | TextData t => Text t
                         | ObjectData v => Serialized v
                         | NoData => Serialized JNull
                         end;
            isErrorItem := isError item |})
      items.

(** Modelled from the spec: the [isOpenAPIV3] guard of
    handlers/handler-utils.ts, as the handlers use it. *)
Definition requireOpenAPIV3 (spec : TransformedSpec) : Eff Document :=
  match spec with
  | V3Document d => ret d
  | OtherDocument =>
      throw (js "Only OpenAPI v3 specifications are supported")
  end.

Definition pathNotFoundMessage (path : jsstring) : jsstring :=
  js "Path " ++ quoted path ++ js " not found in the specification.".

(** Modelled from the spec: [getValidatedPathItem] of
    handlers/handler-utils.ts; absence of the path is a PathNotFoundError. *)
Definition getValidatedPathItem (spec : Document) (path : jsstring)
  : Eff PathItem :=
  match paths spec with
  | None => throw (pathNotFoundMessage path)
  | Some ps =>
      match get ps path with
      | Some item => ret item
      | None => throw (pathNotFoundMessage path)
      end
  end.

(** Modelled from the spec: the declared methods of a path item (computed
    in rendering/path-item.ts and handlers/handler-utils.ts): the canonical
    methods that are keys of the path item, in canonical order. *)
Definition declaredMethods (pathItem : PathItem) : list jsstring :=
  filter (hasKey pathItem) HTTP_METHODS.

Definition noValidMethodsMessage (requested available : list jsstring)
           (path : jsstring) : jsstring :=
  js "None of the requested methods (" ++ join (js ", ") requested
  ++ js ") are valid for path " ++ quoted path
  ++ js ". Available methods: " ++ join (js ", ") available.

(** The requested methods that are declared, in request order, each with
    its operation object. *)
Definition validOperations (pathItem : PathItem) (methods : list jsstring)
  : list (jsstring * Json) :=
  flat_map (fun m =>
              if includes (declaredMethods pathItem) m then
                match get pathItem m with
                | Some op => [(m, op)]
                | None => []
                end
              else [])
           methods.

(** Modelled from the spec: [getValidatedOperations] of
    handlers/handler-utils.ts.  The requested methods are partitioned
    against the declared ones; the valid ones are kept in request order with
    their operation objects; none valid is a NoValidMethodsError. *)
Definition getValidatedOperations (pathItem : PathItem)
           (methods : list jsstring) (path : jsstring)
  : Eff (list (jsstring * Json)) :=
  match validOperations pathItem methods with
  | [] => throw (noValidMethodsMessage methods (declaredMethods pathItem)
                                       path)
  | valid => ret valid
  end.

Definition componentTypeNotFoundMessage (type : jsstring)
           (available : list jsstring) : jsstring :=
  js "Component type " ++ quoted type
  ++ js " not found in the specification. Available types: "
  ++ join (js ", ") available.

(** Modelled from the spec: [getValidatedComponentMap] of
    handlers/handler-utils.ts.  A type with no key in [components] is a
    ComponentTypeNotFoundError listing the keys that exist; a key that is
    there is returned whatever it holds. *)
Definition getValidatedComponentMap (spec : Document) (type : jsstring)
  : Eff ComponentMap :=
  match components spec with
  | None => throw (componentTypeNotFoundMessage type [])
  | Some cs =>
      match get cs type with
      | Some m => ret m
      | None => throw (componentTypeNotFoundMessage type (keys cs))
      end
  end.

Definition noValidNamesMessage (requested available : list jsstring)
           (type : jsstring) : jsstring :=
  js "None of the requested names (" ++ join (js ", ") requested
  ++ js ") are valid for component type " ++ quoted type
  ++ js ". Available names: " ++ join (js ", ") available.

(** Modelled from the spec: [getValidatedComponentDetails] of
    handlers/handler-utils.ts, names partitioned like methods, available
    names in the key order of the component map. *)
Definition getValidatedComponentDetails (detailsMap : ComponentMap)
           (names : list jsstring) (type : jsstring)
  : Eff (list (jsstring * Json)) :=
  let valid :=
    flat_map (fun n => match get detailsMap n with
                       | Some c => [(n, c)]
                       | None => []
                       end)
             names in
  match valid with
  | [] => throw (noValidNamesMessage names (keys detailsMap) type)
  | _ => ret valid
  end.

(** *** RenderablePathItem *)

Definition methodLine (pathItem : PathItem) (m : jsstring) : jsstring :=
  toUpperCase m
  ++ match getOperationSummary (get pathItem m) with
     | Some s => js ": " ++ s
     | None => []
     end.

(** Modelled from the spec: [RenderablePathItem.renderList] of
    rendering/path-item.ts: one line per declared method, then the hint with
    an example built from the first listed method. *)
Definition renderPathItemList (ctx : RenderContext) (pathItem : PathItem)
           (path pathUriSuffix : jsstring) : Eff (list RenderResultItem) :=
  let methods := declaredMethods pathItem in
  match methods with
  | [] =>
      ret [ {| uriSuffix := pathUriSuffix;
               data := TextData (js "No standard HTTP methods found for path: "
                                 ++ stripLeadingSlashes path);
               isError := false;
               errorText := None;
               renderAsList := true |} ]
  | first :: _ =>
      hint <- orURIError
                (generateListHint ctx
                   {| itemType := pathMethod;
                      firstItemExample := Some first;
                      parentComponentType := None;
                      parentPath := Some path |}) ;;
      ret [ {| uriSuffix := pathUriSuffix;
               data := TextData (join [10] (map (methodLine pathItem) methods)
                                 ++ hint);
               isError := false;
               errorText := None;
               renderAsList := true |} ]
  end.

(** Modelled from the spec: [RenderablePathItem.renderOperationDetail] of
    rendering/path-item.ts: one detail item per valid method, addressed by
    the operation's own URI suffix and carrying the operation unmodified. *)
Fixpoint renderOperationDetail (path : jsstring)
         (validOps : list (jsstring * Json)) : Eff (list RenderResultItem) :=
  match validOps with
  | [] => ret []
  | (m, op) :: rest =>
      suffix <- orURIError (buildOperationUriSuffix path m) ;;
      items <- renderOperationDetail path rest ;;
      ret ({| uriSuffix := suffix;
              data := ObjectData op;
              isError := false;
              errorText := None;
              renderAsList := false |} :: items)
  end.

(** *** RenderableComponentMap *)

Definition noComponentsMessage (type : jsstring) : jsstring :=
  js "No components of type " ++ quoted type ++ js " found.".

(** Modelled from the spec: [RenderableComponentMap.renderList] of
    rendering/components.ts: an empty map is a NoComponentsOfTypeError;
    otherwise one line per name and the hint. *)
Definition renderComponentMapList (ctx : RenderContext)
           (componentMap : ComponentMap) (type mapUriSuffix : jsstring)
  : Eff (list RenderResultItem) :=
  match keys componentMap with
  | [] => ret (createErrorResult mapUriSuffix (noComponentsMessage type))
  | first :: _ =>
      hint <- orURIError
                (generateListHint ctx
                   {| itemType := componentName;
                      firstItemExample := Some first;
                      parentComponentType := Some type;
                      parentPath := None |}) ;;
      ret [ {| uriSuffix := mapUriSuffix;
               data := TextData
                         (join [10]
                            ((js "Available " ++ type ++ js ":")
                             :: map (fun n => js "- " ++ n)
                                    (keys componentMap))
                          ++ hint);
               isError := false;
               errorText := None;
               renderAsList := true |} ]
  end.

(** Modelled from the spec: [RenderableComponentMap.renderComponentDetail]
    of rendering/components.ts: one detail item per name of the map, each
    carrying its own map entry unmodified. *)
Definition renderComponentDetail (componentMap : ComponentMap)
           (type : jsstring) (names : list jsstring)
  : list RenderResultItem :=
  flat_map (fun n =>
              match get componentMap n with
              | Some c =>
                  [ {| uriSuffix := buildComponentDetailUriSuffix type n;
                       data := ObjectData c;
                       isError := false;
                       errorText := None;
                       renderAsList := false |} ]
              | None => []
              end)
           names.

End HandlerUtils.

Import HandlerUtils.

(** ** The request handlers *)

Module Handlers.

Import UriBuilder SpecManager.

Definition BASE_URI : jsstring := js "openapi://".

(** The value of a template variable: absent, one string, or (for an
    exploded variable) an array of strings. *)
Inductive Variable_ : Type :=
| Undefined
| Str (s : jsstring)
| Arr (items : list jsstring).

(** [encodedPath || ''] *)
Definition pathOrEmpty (v : option jsstring) : jsstring :=
  match v with Some s => s | None => [] end.

(** [decodedPath.startsWith('/') ? decodedPath : `/${decodedPath}`] *)
Definition lookupPathOf (decodedPath : jsstring) : jsstring :=
  if startsWith (js "/") decodedPath then decodedPath
  else js "/" ++ decodedPath.

(** handlers/path-item-handler.ts, [PathItemHandler.handleRequest].  The
    decoding and the suffix are computed before the [try]. *)
Definition pathItemHandleRequest (specManager : Registry)
           (specId : jsstring) (encodedPath : option jsstring)
  : Eff (list FormattedResultItem) :=
  decodedPath <- orURIError (decodeURIComponent (pathOrEmpty encodedPath)) ;;
  pathUriSuffix <- orURIError (buildPathItemUriSuffix decodedPath) ;;
  let context := {| baseUri := BASE_URI; specId := specId |} in
  resultItems <-
    tryCatch
      (loader <- getLoader specManager specId ;;
       spec <- getTransformedSpec loader ;;
       doc <- requireOpenAPIV3 spec ;;
       let lookupPath := lookupPathOf decodedPath in
       pathItemObj <- getValidatedPathItem doc lookupPath ;;
       renderPathItemList context pathItemObj lookupPath pathUriSuffix)
      (fun message => ret (createErrorResult pathUriSuffix message)) ;;
  ret (formatResults context resultItems).

(** The elements of an exploded variable, trimmed, empty ones dropped. *)
Definition selectorValues (v : Variable_) : list jsstring :=
  let raw := match v with
             | Arr items => map trim items
             | Str s => [trim s]
             | Undefined => []
             end in
  filter (fun n => negb (isEmpty n)) raw.

(** [v ? `${prefix}/${Array.isArray(v) ? v.join(',') : v}` : prefix] *)
Definition errorSuffixOf (prefix : jsstring) (v : Variable_) : jsstring :=
  match v with
  | Arr items => prefix ++ js "/" ++ join (js ",") items
  | Str s => if isEmpty s then prefix else prefix ++ js "/" ++ s
  | Undefined => prefix
  end.

Definition noMethodMessage : jsstring := js "No valid HTTP method specified.".

(** The methods of an operation request, as the handler computes them:
    [methodVar.map(m => String(m).trim().toLowerCase())] for an array,
    [[methodVar.trim().toLowerCase()]] for a string, nothing otherwise; then
    [methods.filter(m => m.length > 0)]. *)
Definition requestedMethods (methodVar : Variable_) : list jsstring :=
  let methods := match methodVar with
                 | Arr items => map (fun m => toLowerCase (trim m)) items
                 | Str s => [toLowerCase (trim s)]
                 | Undefined => []
                 end in
  filter (fun m => (0 <? List.length m)%nat) methods.

(** handlers/operation-handler.ts, [OperationHandler.handleRequest]; the
    class is found in test/__tests__/unit/config.test.ts, lines 69-139,
    after the tests of the configuration.  The decoding and the suffix are
    computed before the [try]; no method left is the error thrown first in
    the [try]; the path is looked up with its leading slash. *)
Definition operationHandleRequest (specManager : Registry)
           (specId : jsstring) (encodedPath : option jsstring)
           (methodVar : Variable_) : Eff (list FormattedResultItem) :=
  decodedPath <- orURIError (decodeURIComponent (pathOrEmpty encodedPath)) ;;
  pathUriSuffix <- orURIError (buildPathItemUriSuffix decodedPath) ;;
  let context := {| baseUri := BASE_URI; specId := specId |} in
  resultItems <-
    tryCatch
      (let methods := requestedMethods methodVar in
       match methods with
       | [] => throw noMethodMessage
       | _ =>
           loader <- getLoader specManager specId ;;
           spec <- getTransformedSpec loader ;;
           doc <- requireOpenAPIV3 spec ;;
           let lookupPath := lookupPathOf decodedPath in
           pathItemObj <- getValidatedPathItem doc lookupPath ;;
           validOps <- getValidatedOperations pathItemObj methods lookupPath ;;
           renderOperationDetail lookupPath validOps
       end)
      (fun message =>
         ret (createErrorResult (errorSuffixOf pathUriSuffix methodVar)
                                message)) ;;
  ret (formatResults context resultItems).

Definition invalidComponentTypeMessage (type : jsstring) : jsstring :=
  js "Invalid component type: " ++ type.

(** handlers/component-map-handler.ts,
    [ComponentMapHandler.handleRequest] *)
Definition componentMapHandleRequest (specManager : Registry)
           (specId type : jsstring) : Eff (list FormattedResultItem) :=
  let mapUriSuffix := js "components/" ++ type in
  let context := {| baseUri := BASE_URI; specId := specId |} in
  resultItems <-
    tryCatch
      ((if negb (includes VALID_COMPONENT_TYPES type)
        then throw (invalidComponentTypeMessage type)
        else ret tt) ;;;
       let componentType := type in
       loader <- getLoader specManager specId ;;
       spec <- getTransformedSpec loader ;;
       doc <- requireOpenAPIV3 spec ;;
       componentMapObj <- getValidatedComponentMap doc componentType ;;
       renderComponentMapList context componentMapObj componentType
                              mapUriSuffix)
      (fun message => ret (createErrorResult mapUriSuffix message)) ;;
  ret (formatResults context resultItems).

Definition noNameMessage : jsstring :=
  js "No valid component name specified.".

(** handlers/component-detail-handler.ts,
    [ComponentDetailHandler.handleRequest] *)
Definition componentDetailHandleRequest (specManager : Registry)
           (specId type : jsstring) (nameVar : Variable_)
  : Eff (list FormattedResultItem) :=
  let mapUriSuffix := js "components/" ++ type in
  let context := {| baseUri := BASE_URI; specId := specId |} in
  resultItems <-
    tryCatch
      ((if negb (includes VALID_COMPONENT_TYPES type)
        then throw (invalidComponentTypeMessage type)
        else ret tt) ;;;
       let componentType := type in
       let names := selectorValues nameVar in
       (if (List.length names =? 0)%nat
        then throw noNameMessage
        else ret tt) ;;;
       loader <- getLoader specManager specId ;;
       spec <- getTransformedSpec loader ;;
       doc <- requireOpenAPIV3 spec ;;
       componentMapObj <- getValidatedComponentMap doc componentType ;;
       let detailsMap := componentMapObj in
       validDetails <-
         getValidatedComponentDetails detailsMap names componentType ;;
       let validNames := map fst validDetails in
       ret (renderComponentDetail componentMapObj componentType validNames))
      (fun message =>
         ret (createErrorResult (errorSuffixOf mapUriSuffix nameVar)
                                message)) ;;
  ret (formatResults context resultItems).

(** handlers/specs-list-handler.ts, [SpecsListHandler.handleRequest]:
    the lines of one spec, before they are joined. *)
Definition specParts (spec : LoadedSpec) : list jsstring :=
  [js "## " ++ slug spec]
  ++ [js "Title: " ++ title spec]
  ++ (if isEmpty (description spec) then []
      else
        let desc :=
          if (200 <? List.length (description spec))%nat
          then slice0 200 (description spec) ++ js "..."
          else description spec in
        [js "Description: " ++ desc])
  ++ (if isEmpty (version spec) then []
      else [js "Version: " ++ version spec])
  ++ [js "Paths: " ++ ofNat (pathCount spec) ++ js " endpoints"].

Definition specsListHandleRequest (specManager : Registry)
  : list FormattedResultItem :=
  let specs := getAllSpecs specManager in
  let lines := map (fun spec => join [10] (specParts spec)) specs in
  [ {| uri := BASE_URI ++ js "specs";
       mimeType := TextPlain;
       text := Text (join [10; 10] lines);
       isErrorItem := false |} ].

End Handlers.

(** ** The completion callbacks registered by [main] *)

Module Completion.

Import SpecManager.

(** The helper [getSpecComponentTypes] of [main]. *)
Definition getSpecComponentTypes (specManager : Registry)
           (specId : jsstring) : Eff (list jsstring) :=
  tryCatch
    (loader <- getLoader specManager specId ;;
     spec <- getTransformedSpec loader ;;
     match spec with
     | V3Document doc =>
         match components doc with
         | Some cs => ret (keys cs)
         | None => ret []
         end
     | OtherDocument => ret []
     end)
    (fun _ => ret []).

(** The [type] callback; [specSlugs] is [getSpecSlugs()] taken at start. *)
Definition typeCompletion (specManager : Registry) : Eff (list jsstring) :=
  match getSpecSlugs specManager with
  | first :: _ => getSpecComponentTypes specManager first
  | [] => ret []
  end.

(** The [name] callback of [openapi://{specId}/components/{type}/{name*}] *)
Definition nameCompletion (specManager : Registry) : Eff (list jsstring) :=
  match getSpecSlugs specManager with
  | [only] =>
      tryCatch
        (loader <- getLoader specManager only ;;
         spec <- getTransformedSpec loader ;;
         match spec with
         | V3Document doc =>
             match components doc with
             | Some cs =>
                 match keys cs with
                 | [type0] =>
                     componentMap <- getValidatedComponentMap doc type0 ;;
                     ret (keys componentMap)
                 | _ => ret []
                 end
             | None => ret []
             end
         | OtherDocument => ret []
         end)
        (fun _ => ret [])
  | _ => ret []
  end.

End Completion.

(** ** Notions the specification states its properties with *)

Module Spec.

Import UriBuilder Handlers.

(** What a handler looks up for a path that was put in a URI by the
    builders: the path is encoded, the handler decodes the variable and
    prefixes the slash. *)
Definition decodedLookupPath (p : jsstring) : option jsstring :=
  match encodeUriPathComponent p with
  | Some encoded => option_map lookupPathOf (decodeURIComponent encoded)
  | None => None
  end.

(** The normalized form of a path, in the words of the specification: the
    path with a single leading slash. *)
Definition normalize (p : jsstring) : jsstring :=
  js "/" ++ stripLeadingSlashes p.

(** The component categories of a document that hold at least one
    component, in the words of the specification. *)
Definition nonEmptyCategories (cs : Dict ComponentMap) : list jsstring :=
  keys (filter (fun kv => match snd kv with [] => false | _ => true end) cs).

(** The shape of a slug: lower-case ASCII letters, digits and single
    hyphens, with no hyphen at either end. *)
Definition isSlugUnit (c : Z) : bool :=
  inRange 97 122 c || inRange 48 57 c || (c =? 45).

Fixpoint adjacentHyphens (s : jsstring) : bool :=
  match s with
  | a :: (b :: _) as rest =>
      ((a =? 45) && (b =? 45)) || adjacentHyphens rest
  | _ => false
  end.

Definition notUpper (c : Z) : bool := negb (inRange 65 90 c).

Definition slugShaped (s : jsstring) : Prop :=
  forallb isSlugUnit s = true
  /\ adjacentHyphens s = false
  /\ hd_error s <> Some 45
  /\ hd_error (rev s) <> Some 45.

(** [l1] lists some of the elements of [l2], in the order of [l2]. *)
Inductive Subseq {A : Type} : list A -> list A -> Prop :=
| Subseq_nil : Subseq [] []
| Subseq_skip : forall x l1 l2, Subseq l1 l2 -> Subseq l1 (x :: l2)
| Subseq_keep : forall x l1 l2, Subseq l1 l2 -> Subseq (x :: l1) (x :: l2).

(** The detail item of one operation, as a formatted result. *)
Definition detailItem (u : jsstring) (value : Json) : FormattedResultItem :=
  {| uri := u; mimeType := FormatterMime; text := Serialized value;
     isErrorItem := false |}.

(** The single item an error is reported with. *)
Definition errorItem (u message : jsstring) : FormattedResultItem :=
  {| uri := u; mimeType := TextPlain; text := Text message;
     isErrorItem := true |}.

End Spec.

(** ** Sample data *)

Module Samples.

Import SpecManager.

Definition sampleEntry (d : jsstring) : LoadedSpec :=
  {| slug := js "demo-api"; title := js "Demo API"; description := d;
     version := js "1.0.0"; pathCount := 3;
     loader := {| ident := 0; filePath := js "demo.json";
                  rawSpec := {| info := None; paths := None;
                                components := None |};
                  transformedSpec := Returned OtherDocument |} |}.

Definition userSchema : Json :=
  JObject [(js "type", JString (js "object"))].

Definition getOperation : Json :=
  JObject [(js "summary", JString (js "Get Item"))].

Definition postOperation : Json :=
  JObject [(js "summary", JString (js "Create Item"))].

(** A path item whose keys were inserted as post, get. *)
Definition itemsPathItem : PathItem :=
  [(js "post", postOperation); (js "get", getOperation)].

Definition singlePathItem : PathItem := [(js "get", getOperation)].

(** One populated category and one empty category. *)
Definition demoComponents : Dict ComponentMap :=
  [(js "schemas", [(js "User", userSchema)]); (js "examples", [])].

Definition documentTitled (t : jsstring) : Document :=
  {| info := Some {| OpenAPI.title := Some t;
                     OpenAPI.description := None;
                     OpenAPI.version := Some (js "1.0.0") |};
     paths := Some [(js "/items", itemsPathItem);
                    (js "/items/{id}", singlePathItem)];
     components := Some demoComponents |}.

Definition loaded (d : Document)
  : Outcome (Document * Outcome TransformedSpec) :=
  Returned (d, Returned (V3Document d)).

(** Three files: two whose titles give the slug demo-api, and one whose
    title has no word character. *)
Definition sampleFetch (path : jsstring)
  : Outcome (Document * Outcome TransformedSpec) :=
  if eqb path (js "specs/demo.json")
  then loaded (documentTitled (js "Demo API"))
  else if eqb path (js "specs/copy.yaml")
       then loaded (documentTitled (js "demo_api"))
  else if eqb path (js "specs/petstore.json")
       then loaded (documentTitled (js "!!!"))
  else Thrown (js "ENOENT").

Definition demoRegistry : Registry :=
  fst (loadSpecs sampleFetch [js "specs/demo.json"] []).

Definition singleCategory : Dict ComponentMap :=
  [(js "schemas", [(js "Task", userSchema); (js "TaskList", userSchema)])].

Definition twoCategories : Dict ComponentMap :=
  [(js "schemas", [(js "Task", userSchema)]);
   (js "parameters", [(js "limitParam", JNull)])].

Definition documentOf (cs : Dict ComponentMap) : Document :=
  {| info := None; paths := None; components := Some cs |}.

Definition entryOf (cs : Dict ComponentMap) : LoadedSpec :=
  {| slug := js "one"; title := js "One"; description := [];
     version := []; pathCount := 0;
     loader := {| ident := 0; filePath := js "one.json";
                  rawSpec := documentOf cs;
                  transformedSpec := Returned (V3Document (documentOf cs)) |}
  |}.

(** A registry with one spec whose components object is [cs]. *)
Definition registryOf (cs : Dict ComponentMap) : Registry :=
  [(js "one", entryOf cs)].

End Samples.

(** ** config.ts *)

Module Config.

Import SpecManager.

Record ServerConfig : Type := {
  specPaths : list jsstring;
  outputFormat : jsstring
}.

Definition noSpecPathMessage : jsstring :=
  js "At least one OpenAPI spec path is required. Usage: npx mcp-openapi-schema-explorer <spec1> [spec2...] [--output-format json|yaml]".

Definition invalidFormatMessage : jsstring :=
  js "Invalid output format. Supported formats: json, yaml, json-minified".

Definition supportedFormat (format : jsstring) : bool :=
  eqb format (js "json") || eqb format (js "yaml")
  || eqb format (js "json-minified").

(** [loadConfig(specPaths?, options?)]; the second argument is
    [options?.outputFormat]. *)
Definition loadConfig (paths : option (list jsstring))
           (format : option jsstring) : Outcome ServerConfig :=
  match paths with
  | None | Some [] => Thrown noSpecPathMessage
  | Some ps =>
      let format := orElse format (js "json") in
      if negb (eqb format (js "json")) && negb (eqb format (js "yaml"))
         && negb (eqb format (js "json-minified"))
      then Thrown invalidFormatMessage
      else Returned {| specPaths := ps; outputFormat := format |}
  end.

End Config.

(** ** utils/glob-expand.ts *)

Module GlobExpand.

Definition GLOB_CHARS : list jsstring :=
  map js ["*"; "?"; "["; "]"; "{"; "}"]%string.

(** [s.includes(sub)] on strings *)
Fixpoint stringIncludes (sub s : jsstring) : bool :=
  startsWith sub s
  || match s with
     | [] => false
     | _ :: rest => stringIncludes sub rest
     end.

Definition isGlobPattern (path : jsstring) : bool :=
  existsb (fun char => stringIncludes char path) GLOB_CHARS.

Definition isUrl (path : jsstring) : bool :=
  startsWith (js "http://") path || startsWith (js "https://") path.

(** [a < b] on strings: the order of the code units, a proper prefix
    first.  It is the order of the default [sort]. *)
Fixpoint ltb (a b : jsstring) : bool :=
  match a, b with
  | _, [] => false
  | [], _ :: _ => true
  | x :: a', y :: b' => (x <? y) || ((x =? y) && ltb a' b')
  end.

Fixpoint insertSorted (x : jsstring) (l : list jsstring) : list jsstring :=
  match l with
  | [] => [x]
  | y :: rest => if ltb y x then y :: insertSorted x rest else x :: l
  end.

(** [matches.sort()] with the default comparison. *)
Definition sort (l : list jsstring) : list jsstring :=
  fold_right insertSorted [] l.

Definition noMatchMessage (pattern : jsstring) : jsstring :=
  js "No files matched pattern: " ++ pattern.

Section Expand.

(** [fg(pattern, {onlyFiles: true, absolute: true})] of fast-glob. *)
Variable fg : jsstring -> Outcome (list jsstring).

(** The [for] loop of [expandGlobPatterns] over [expanded]. *)
Fixpoint expandLoop (patterns expanded : list jsstring)
  : Outcome (list jsstring) :=
  match patterns with
  | [] => Returned expanded
  | pattern :: rest =>
      if isUrl pattern then expandLoop rest (expanded ++ [pattern])
      else if isGlobPattern pattern then
        match fg pattern with
        | Thrown e => Thrown e
        | Returned matches =>
            if (List.length matches =? 0)%nat
            then Thrown (noMatchMessage pattern)
            else expandLoop rest (expanded ++ sort matches)
        end
      else expandLoop rest (expanded ++ [pattern])
  end.

Definition expandGlobPatterns (patterns : list jsstring)
  : Outcome (list jsstring) :=
  expandLoop patterns [].

End Expand.

End GlobExpand.

(** ** The start of [main] *)

Module Main.

Import Config SpecManager.

Definition outputFormatFlag : jsstring := js "--output-format".

(** [args.indexOf(x)], [None] for -1. *)
Fixpoint indexOf (x : jsstring) (args : list jsstring) : option nat :=
  match args with
  | [] => None
  | a :: rest =>
      if eqb a x then Some 0%nat else option_map S (indexOf x rest)
  end.

(** The spec paths and the [outputFormat] option [main] reads from the
    command line. *)
Definition parseArgs (args : list jsstring)
  : list jsstring * option jsstring :=
  match indexOf outputFormatFlag args with
  | None => (args, None)
  | Some outputFormatIndex =>
      (firstn outputFormatIndex args, nth_error args (S outputFormatIndex))
  end.

(** [loadConfig(specPaths, options)] as [main] calls it. *)
Definition configOfArgs (args : list jsstring) : Outcome ServerConfig :=
  let (paths, format) := parseArgs args in
  loadConfig (Some paths) format.

(** The name the server is given. *)
Definition serverName (loadedSpecs : list LoadedSpec) : jsstring :=
  match loadedSpecs with
  | [only] => js "Schema Explorer for " ++ title only
  | _ => js "Schema Explorer for " ++ ofNat (List.length loadedSpecs)
         ++ js " APIs"
  end.

End Main.

(** ** handlers/top-level-field-handler.ts *)

Module TopLevelField.

Import SpecManager Handlers.

Section Handler.

(** The renderers of rendering/document.ts, rendering/paths.ts and
    rendering/components.ts, which are not part of this development:
    the list of paths, the list of component types, and the detail of one
    top-level field (which throws for a field the document lacks). *)
Variable renderPathsList : RenderContext -> Document -> Eff (list RenderResultItem).
Variable renderComponentsList : RenderContext -> Document -> Eff (list RenderResultItem).
Variable renderTopLevelField :
  RenderContext -> Document -> jsstring -> Eff (list RenderResultItem).

(** [TopLevelFieldHandler.handleRequest] *)
Definition topLevelFieldHandleRequest (specManager : Registry)
           (specId field : jsstring) : Eff (list FormattedResultItem) :=
  let context := {| baseUri := BASE_URI; specId := specId |} in
  resultItems <-
    tryCatch
      (loader <- getLoader specManager specId ;;
       spec <- getTransformedSpec loader ;;
       doc <- requireOpenAPIV3 spec ;;
       if eqb field (js "paths") then renderPathsList context doc
       else if eqb field (js "components")
            then renderComponentsList context doc
       else renderTopLevelField context doc field)
      (fun message => ret (createErrorResult field message)) ;;
  ret (formatResults context resultItems).

End Handler.

End TopLevelField.

(** ** Further notions used in the properties *)

Module Notions.

Import UriBuilder Handlers.

(** The strings of a list without their repetitions, each at its first
    position. *)
Fixpoint firstOccurrences (seen l : list jsstring) : list jsstring :=
  match l with
  | [] => []
  | x :: rest =>
      if includes seen x then firstOccurrences seen rest
      else x :: firstOccurrences (seen ++ [x]) rest
  end.

(** A string of a URI segment: unreserved characters and percent
    escapes only. *)
Definition isSegmentUnit (c : Z) : bool := uriUnescaped c || (c =? percent).

(** [a <= b] in the order of the default [sort]. *)
Definition leb (a b : jsstring) : bool := negb (GlobExpand.ltb b a).

Fixpoint sortedStrings (l : list jsstring) : bool :=
  match l with
  | a :: (b :: _) as rest => leb a b && sortedStrings rest
  | _ => true
  end.

Definition isOctet (b : Z) : Prop := 0 <= b < 256.

(** The slugs [loadSpecs] derives along the paths, up to the first load
    that fails. *)
Fixpoint loadedSlugs
         (fetch : jsstring -> Outcome (Document * Outcome TransformedSpec))
         (specPaths : list jsstring) : list jsstring :=
  match specPaths with
  | [] => []
  | path :: rest =>
      match fetch path with
      | Returned (doc, _) =>
          SpecManager.slugFor path doc :: loadedSlugs fetch rest
      | Thrown _ => []
      end
  end.

Definition specNotFoundMessage (specManager : SpecManager.Registry)
           (specId : jsstring) : jsstring :=
  js "Spec " ++ quoted specId ++ js " not found. Available: "
  ++ join (js ", ") (SpecManager.getSpecSlugs specManager).

Definition notV3Message : jsstring :=
  js "Only OpenAPI v3 specifications are supported".

(** Why no OpenAPI v3 document can be had for a spec id, if so: the id is
    unknown, the loader fails, or the document is not OpenAPI v3. *)
Definition documentFailure (specManager : SpecManager.Registry)
           (specId : jsstring) : option jsstring :=
  match get specManager specId with
  | None => Some (specNotFoundMessage specManager specId)
  | Some entry =>
      match SpecManager.transformedSpec (SpecManager.loader entry) with
      | Thrown e => Some e
      | Returned OtherDocument => Some notV3Message
      | Returned (V3Document _) => None
      end
  end.

(** The calls a handler makes to get the document of a spec id. *)
Definition documentCalls (specManager : SpecManager.Registry)
           (specId : jsstring) : list Event :=
  GetLoader specId
  :: match get specManager specId with
     | None => []
     | Some entry =>
         [GetTransformedSpec (SpecManager.ident (SpecManager.loader entry))]
     end.


(** A pattern [expandGlobPatterns] does not hand to fast-glob: a URL, or a
    path with no glob character. *)
Definition passesThrough (pattern : jsstring) : bool :=
  GlobExpand.isUrl pattern || negb (GlobExpand.isGlobPattern pattern).

(** A file system in which one pattern has two matches, found in an order
    that is not the sorted one. *)
Definition sampleGlob (pattern : jsstring) : Outcome (list jsstring) :=
  if eqb pattern (js "specs/*.json")
  then Returned [js "/w/specs/b.json"; js "/w/specs/a.json"]
  else Returned [].


(** The path item a document holds for a path, if any:
    [spec.paths?.[path]]. *)
Definition pathItemOf (doc : Document) (path : jsstring) : option PathItem :=
  match paths doc with
  | Some ps => get ps path
  | None => None
  end.

End Notions.

(** * Properties *)

Import UriBuilder SpecManager Handlers Completion Spec Samples.

(** ** Percent-encoding round trip *)

Section RoundTrip.

Ltac zcases :=
  repeat match goal with
         | |- context [?a <? ?b] => destruct (Z.ltb_spec a b)
         | |- context [?a <=? ?b] => destruct (Z.leb_spec a b)
         | |- context [?a =? ?b] => destruct (Z.eqb_spec a b)
         end;
  cbn [andb orb negb]; try reflexivity; try lia.

Lemma hexValue_hexDigit : forall d,
  0 <= d < 16 -> hexValue (hexDigit d) = Some d.
Proof.
  intros d Hd. unfold hexValue, hexDigit, inRange.
  destruct (Z.ltb_spec d 10); zcases; f_equal; lia.
Qed.

Lemma readOctet_escapeOctet : forall b rest,
  0 <= b < 256 -> readOctet (escapeOctet b ++ rest) = Some (b, rest).
Proof.
  intros b rest Hb. unfold escapeOctet, readOctet. cbn [app].
  rewrite Z.eqb_refl, !hexValue_hexDigit.
  - now rewrite <- Z.div_mod by lia.
  - apply Z.mod_pos_bound. lia.
  - split; [apply Z.div_pos; lia | apply Z.div_lt_upper_bound; lia].
Qed.

Lemma readContinuation_escapeOctets : forall bs rest,
  Forall isContinuation bs ->
  readContinuation (List.length bs) (escapeOctets bs ++ rest) = Some (bs, rest).
Proof.
  induction bs as [|b bs IH]; intros rest Hbs; [reflexivity|].
  inversion Hbs as [|? ? Hb Hbs']; subst. unfold isContinuation in Hb.
  cbn [List.length readContinuation escapeOctets flat_map].
  rewrite <- app_assoc, readOctet_escapeOctet by lia.
  replace (inRange 128 191 b) with true by (unfold inRange; zcases).
  fold (escapeOctets bs). now rewrite IH.
Qed.

Lemma Decode_literal : forall f c rest,
  c <> percent ->
  Decode (S f) (c :: rest) = option_map (cons c) (Decode f rest).
Proof.
  intros f c rest Hc. cbn [Decode].
  destruct (Z.eqb_spec c percent); [contradiction | reflexivity].
Qed.

Lemma uriUnescaped_not_percent : forall c,
  uriUnescaped c = true -> c <> percent.
Proof. intros c H ->. discriminate H. Qed.

Lemma Decode_escaped_ascii : forall f b rest,
  0 <= b < 128 ->
  Decode (S f) (escapeOctet b ++ rest) = option_map (cons b) (Decode f rest).
Proof.
  intros f b rest Hb.
  assert (Hr := readOctet_escapeOctet b rest ltac:(lia)).
  unfold escapeOctet in *. cbn [app] in *. cbn [Decode].
  rewrite Z.eqb_refl. cbn [negb]. rewrite Hr.
  unfold leadingOnes. destruct (Z.ltb_spec b 128); [reflexivity | lia].
Qed.

Lemma Decode_escaped_sequence : forall f b bs rest v,
  192 <= b < 248 ->
  leadingOnes b = S (List.length bs) ->
  Forall isContinuation bs ->
  utf8CodePoint (b :: bs) = Some v ->
  Decode (S f) (escapeOctets (b :: bs) ++ rest)
  = option_map (app (utf16Encode v)) (Decode f rest).
Proof.
  intros f b bs rest v Hb Hn Hbs Hv.
  assert (Hr := readOctet_escapeOctet b (escapeOctets bs ++ rest) ltac:(lia)).
  cbn [escapeOctets flat_map]. fold (escapeOctets bs). rewrite <- app_assoc.
  unfold escapeOctet in *. cbn [app] in *. cbn [Decode].
  rewrite Z.eqb_refl. cbn [negb]. rewrite Hr, Hn.
  destruct bs as [|b2 bs]; [cbn in Hv; discriminate|].
  assert (Hlen : (List.length bs < 3)%nat).
  { destruct bs as [|? [|? [|? ?]]]; cbn; try lia. cbn in Hv. discriminate. }
  rewrite (readContinuation_escapeOctets (b2 :: bs) rest Hbs), Hv.
  destruct bs as [|? [|? [|? ?]]]; cbn in Hlen; try lia; reflexivity.
Qed.

Lemma utf8Octets_sequence : forall cp,
  isScalar cp -> 128 <= cp ->
  exists b bs,
    utf8Octets cp = b :: bs /\ 192 <= b < 248
    /\ leadingOnes b = S (List.length bs)
    /\ Forall isContinuation bs
    /\ utf8CodePoint (b :: bs) = Some cp.
Proof.
  intros cp [Hcp Hs] Hge. unfold isSurrogate, inRange in Hs.
  unfold utf8Octets.
  destruct (Z.ltb_spec cp 128); [lia|].
  destruct (Z.ltb_spec cp 2048); [|destruct (Z.ltb_spec cp 65536)];
    eexists; eexists; (split; [reflexivity|]);
    unfold leadingOnes, utf8CodePoint, isContinuation, isSurrogate, inRange;
    cbn [List.length];
    (split; [Z.div_mod_to_equations; lia|]);
    (split; [zcases; Z.div_mod_to_equations; lia|]);
    (split; [repeat constructor; Z.div_mod_to_equations; lia|]).
  - zcases; [f_equal|]; Z.div_mod_to_equations; lia.
  - match goal with
    | |- (if ?c then _ else _) = _ =>
        replace c with true by (Z.div_mod_to_equations; lia)
    end.
    f_equal. Z.div_mod_to_equations. lia.
  - match goal with
    | |- (if ?c then _ else _) = _ =>
        replace c with true by (Z.div_mod_to_equations; lia)
    end.
    f_equal. Z.div_mod_to_equations. lia.
Qed.

Lemma utf8Octets_nonempty : forall cp, utf8Octets cp <> [].
Proof.
  intros cp. unfold utf8Octets.
  destruct (cp <? 128), (cp <? 2048), (cp <? 65536); discriminate.
Qed.

Lemma Decode_escaped_scalar : forall f cp rest,
  isScalar cp ->
  Decode (S f) (escapeOctets (utf8Octets cp) ++ rest)
  = option_map (app (utf16Encode cp)) (Decode f rest).
Proof.
  intros f cp rest Hcp. destruct (Z.ltb_spec cp 128) as [Hlt|Hge].
  - assert (Ho : utf8Octets cp = [cp]).
    { unfold utf8Octets. destruct (Z.ltb_spec cp 128); [reflexivity | lia]. }
    assert (Hu : utf16Encode cp = [cp]).
    { unfold utf16Encode. destruct (Z.ltb_spec cp 65536); [reflexivity | lia]. }
    rewrite Ho, Hu. cbn [escapeOctets flat_map]. rewrite app_nil_r.
    apply Decode_escaped_ascii. destruct Hcp. lia.
  - destruct (utf8Octets_sequence cp Hcp Hge)
      as (b & bs & -> & Hb & Hn & Hbs & Hv).
    now apply Decode_escaped_sequence.
Qed.

Lemma utf16_pair : forall c d,
  isLeadingSurrogate c = true -> isTrailingSurrogate d = true ->
  isScalar (utf16Decode c d) /\ utf16Encode (utf16Decode c d) = [c; d].
Proof.
  unfold isLeadingSurrogate, isTrailingSurrogate, inRange.
  intros c d Hc Hd.
  apply andb_true_iff in Hc as [Hc1 Hc2].
  apply andb_true_iff in Hd as [Hd1 Hd2].
  apply Z.leb_le in Hc1, Hc2, Hd1, Hd2.
  unfold isScalar, utf16Encode, utf16Decode, isSurrogate, inRange.
  repeat split; try lia.
  destruct (Z.ltb_spec ((c - 55296) * 1024 + (d - 56320) + 65536) 65536);
    [lia|].
  replace ((c - 55296) * 1024 + (d - 56320) + 65536 - 65536)
    with ((d - 56320) + (c - 55296) * 1024) by lia.
  rewrite Z.div_add, Z.mod_add, Z.div_small, Z.mod_small by lia.
  do 2 f_equal; [lia | f_equal; lia].
Qed.

Lemma codeUnit_scalar : forall c,
  codeUnit c -> isLeadingSurrogate c = false ->
  isTrailingSurrogate c = false ->
  isScalar c /\ utf16Encode c = [c].
Proof.
  unfold codeUnit, isLeadingSurrogate, isTrailingSurrogate, isScalar,
    isSurrogate, utf16Encode, inRange.
  intros c Hc Hl Ht. repeat split; try lia.
  destruct (Z.ltb_spec c 65536); [reflexivity | lia].
Qed.

Lemma uriUnescaped_not_surrogate : forall c,
  uriUnescaped c = true ->
  isLeadingSurrogate c = false /\ isTrailingSurrogate c = false.
Proof.
  intros c H. unfold uriUnescaped, inRange in H.
  cbn [existsb] in H. unfold isLeadingSurrogate, isTrailingSurrogate, inRange.
  split; lia.
Qed.

(** Fuel: a step that consumes a non-empty chunk leaves enough fuel for
    the rest. *)
Lemma Decode_chunk : forall chunk e out r,
  chunk <> [] ->
  (forall f, Decode (S f) (chunk ++ e) = option_map (app out) (Decode f e)) ->
  (forall f, (List.length e <= f)%nat -> Decode f e = Some r) ->
  forall f, (List.length (chunk ++ e) <= f)%nat ->
            Decode f (chunk ++ e) = Some (out ++ r).
Proof.
  intros chunk e out r Hne Hstep Hrest f Hf.
  rewrite length_app in Hf.
  destruct chunk as [|x chunk]; [contradiction|]. cbn [List.length] in Hf.
  destruct f as [|f]; [lia|].
  rewrite Hstep, Hrest by lia. reflexivity.
Qed.

Lemma escapeOctets_nonempty : forall bs, bs <> [] -> escapeOctets bs <> [].
Proof. intros [|b bs] H; [contradiction | discriminate]. Qed.

Lemma encode_decode_bounded : forall n s,
  (List.length s <= n)%nat ->
  Forall codeUnit s -> isWellFormed s = true ->
  exists e, encodeURIComponent s = Some e
            /\ forall f, (List.length e <= f)%nat -> Decode f e = Some s.
Proof.
  induction n as [|n IH]; intros s Hlen Hcu Hwf.
  - destruct s; [|cbn in Hlen; lia]. exists []. split; [reflexivity|].
    intros [|f] _; reflexivity.
  - destruct s as [|c rest].
    { exists []. split; [reflexivity|]. intros [|f] _; reflexivity. }
    cbn [List.length] in Hlen. inversion Hcu as [|? ? Hc Hrest]; subst.
    cbn [encodeURIComponent isWellFormed] in *.
    destruct (uriUnescaped c) eqn:Hun.
    + destruct (uriUnescaped_not_surrogate c Hun) as [Hl Ht].
      rewrite Hl, Ht in Hwf. cbn [negb andb] in Hwf.
      destruct (IH rest ltac:(lia) Hrest Hwf) as (e & -> & Hdec).
      exists (c :: e). split; [reflexivity|].
      apply (Decode_chunk [c] e [c] rest); [discriminate| |exact Hdec].
      intros f. apply Decode_literal. now apply uriUnescaped_not_percent.
    + destruct (isLeadingSurrogate c) eqn:Hl.
      * destruct rest as [|d rest']; [discriminate|].
        apply andb_true_iff in Hwf as [Ht Hwf]. rewrite Ht.
        inversion Hrest as [|? ? Hd Hrest']; subst.
        cbn [List.length] in Hlen.
        destruct (IH rest' ltac:(lia) Hrest' Hwf) as (e & -> & Hdec).
        destruct (utf16_pair c d Hl Ht) as [Hsc Hu].
        eexists. split; [reflexivity|].
        change (c :: d :: rest') with ([c; d] ++ rest').
        apply Decode_chunk; [|intros f; rewrite <- Hu;
                              now apply Decode_escaped_scalar|exact Hdec].
        apply escapeOctets_nonempty, utf8Octets_nonempty.
      * apply andb_true_iff in Hwf as [Ht Hwf].
        apply negb_true_iff in Ht. rewrite Ht.
        destruct (IH rest ltac:(lia) Hrest Hwf) as (e & -> & Hdec).
        destruct (codeUnit_scalar c Hc Hl Ht) as [Hsc Hu].
        eexists. split; [reflexivity|].
        change (c :: rest) with ([c] ++ rest).
        apply Decode_chunk; [|intros f; rewrite <- Hu;
                              now apply Decode_escaped_scalar|exact Hdec].
        apply escapeOctets_nonempty, utf8Octets_nonempty.
Qed.

(** [decodeURIComponent] inverts [encodeURIComponent] wherever the latter
    returns, that is on every well-formed string. *)
Lemma decode_encode : forall s,
  Forall codeUnit s -> isWellFormed s = true ->
  exists e, encodeURIComponent s = Some e /\ decodeURIComponent e = Some s.
Proof.
  intros s Hcu Hwf.
  destruct (encode_decode_bounded (List.length s) s (le_n _) Hcu Hwf)
    as (e & He & Hdec).
  exists e. split; [exact He|]. apply Hdec. apply le_n.
Qed.

Lemma readOctet_length : forall s b rest,
  readOctet s = Some (b, rest) -> List.length s = (3 + List.length rest)%nat.
Proof.
  intros [|p [|h1 [|h2 r]]] b rest H; try discriminate.
  cbn [readOctet] in H.
  destruct (p =? percent); [|discriminate].
  destruct (hexValue h1); [|discriminate].
  destruct (hexValue h2); [|discriminate].
  inversion H; subst. reflexivity.
Qed.

Lemma readContinuation_length : forall n s bs rest,
  readContinuation n s = Some (bs, rest) ->
  (List.length rest <= List.length s)%nat.
Proof.
  induction n as [|n IH]; intros s bs rest H; cbn [readContinuation] in H.
  - inversion H; subst. apply le_n.
  - destruct (readOctet s) as [(b & r)|] eqn:Hr; [|discriminate].
    apply readOctet_length in Hr.
    destruct (inRange 128 191 b); [|discriminate].
    destruct (readContinuation n r) as [(bs' & r')|] eqn:Hc; [|discriminate].
    inversion H; subst. apply IH in Hc. lia.
Qed.

(** The fuel of [decodeURIComponent] never runs out: any amount of fuel
    from the length of the string on gives the same result. *)
Lemma Decode_fuel_irrelevant : forall n s f1 f2,
  (List.length s <= n)%nat ->
  (List.length s <= f1)%nat -> (List.length s <= f2)%nat ->
  Decode f1 s = Decode f2 s.
Proof.
  induction n as [|n IH]; intros s f1 f2 Hn H1 H2.
  - destruct s; [|cbn in Hn; lia]. now destruct f1, f2.
  - destruct s as [|c rest]; [now destruct f1, f2|].
    cbn [List.length] in *.
    destruct f1 as [|f1]; [lia|]. destruct f2 as [|f2]; [lia|].
    cbn [Decode].
    destruct (negb (c =? percent)).
    { f_equal. apply IH; lia. }
    destruct (readOctet (c :: rest)) as [(b & rest1)|] eqn:Hr;
      [|reflexivity].
    apply readOctet_length in Hr. cbn [List.length] in Hr.
    destruct (leadingOnes b) as [|[|k]].
    + f_equal. apply IH; lia.
    + reflexivity.
    + destruct k as [|[|[|k]]]; try reflexivity;
        (destruct (readContinuation _ rest1) as [(bs & rest2)|] eqn:Hc;
         [|reflexivity];
         apply readContinuation_length in Hc;
         destruct (utf8CodePoint (b :: bs)); [|reflexivity];
         f_equal; apply IH; lia).
Qed.

End RoundTrip.

Lemma codeUnits_checked : forall s,
  forallb (fun c => (0 <=? c) && (c <? 65536)) s = true -> Forall codeUnit s.
Proof.
  intros s H. apply Forall_forall. intros c Hc.
  rewrite forallb_forall in H. specialize (H c Hc). unfold codeUnit. lia.
Qed.

Lemma stripLeadingSlashes_codeUnit : forall p,
  Forall codeUnit p -> Forall codeUnit (stripLeadingSlashes p).
Proof.
  induction 1 as [|c p Hc Hp IH]; cbn; [constructor|].
  destruct (c =? 47); [exact IH | now constructor].
Qed.

Lemma stripLeadingSlashes_wellFormed : forall p,
  isWellFormed p = true -> isWellFormed (stripLeadingSlashes p) = true.
Proof.
  induction p as [|c p IH]; intros Hwf; [reflexivity|].
  unfold stripLeadingSlashes. cbn [dropWhile].
  destruct (Z.eqb_spec c 47) as [->|Hc]; [|exact Hwf].
  apply IH. cbn in Hwf. exact Hwf.
Qed.

Lemma stripLeadingSlashes_no_slash : forall p,
  startsWith (js "/") (stripLeadingSlashes p) = false.
Proof.
  induction p as [|c p IH]; [reflexivity|].
  unfold stripLeadingSlashes. cbn [dropWhile].
  destruct (Z.eqb_spec c 47) as [->|Hc]; [exact IH|].
  cbn -[Z.eqb]. destruct (Z.eqb_spec 47 c); [congruence | reflexivity].
Qed.

Lemma lookupPathOf_stripped : forall p,
  lookupPathOf (stripLeadingSlashes p) = normalize p.
Proof.
  intros p. unfold lookupPathOf.
  now rewrite stripLeadingSlashes_no_slash.
Qed.

Lemma normalize_single_slash : forall p,
  startsWith (js "//") p = false -> normalize p = lookupPathOf p.
Proof.
  intros p H. unfold normalize, lookupPathOf, stripLeadingSlashes.
  destruct p as [|c p]; [reflexivity|]. cbn [dropWhile].
  cbn -[Z.eqb] in H |- *. destruct (Z.eqb_spec 47 c) as [<-|Hc].
  - cbn -[Z.eqb] in H |- *. destruct p as [|d p]; [reflexivity|].
    cbn -[Z.eqb] in H |- *.
    destruct (Z.eqb_spec 47 d); [discriminate|].
    destruct (Z.eqb_spec d 47); [congruence | reflexivity].
  - destruct (Z.eqb_spec c 47); [congruence | reflexivity].
Qed.

(** C2 (as amended).  For every well-formed path string (no unpaired
    surrogate), encoding the path, decoding the result and prefixing the
    slash as the handler does gives the normalized path: a single slash
    followed by the path without its leading slashes.  For a path with at
    most one leading slash this is what the handler's own prefixing makes
    of the path. *)
Theorem path_round_trip : forall p,
  Forall codeUnit p -> isWellFormed p = true ->
  decodedLookupPath p = Some (normalize p)
  /\ (startsWith (js "//") p = false -> normalize p = lookupPathOf p).
Proof.
  intros p Hcu Hwf. split; [|apply normalize_single_slash].
  unfold decodedLookupPath, encodeUriPathComponent.
  destruct (decode_encode (stripLeadingSlashes p)) as (e & -> & ->).
  - now apply stripLeadingSlashes_codeUnit.
  - now apply stripLeadingSlashes_wellFormed.
  - cbn [option_map]. now rewrite lookupPathOf_stripped.
Qed.

Lemma path_round_trip_witness :
  decodedLookupPath (js "/users/{id}") = Some (normalize (js "/users/{id}"))
  /\ (startsWith (js "//") (js "/users/{id}") = false ->
      normalize (js "/users/{id}") = lookupPathOf (js "/users/{id}")).
Proof.
  apply (path_round_trip (js "/users/{id}")).
  - apply codeUnits_checked. reflexivity.
  - reflexivity.
Defined.

(** The encoder throws on a path with an unpaired surrogate, so the round
    trip has no value there. *)
Lemma path_round_trip_lone_surrogate :
  Forall codeUnit [55296]
  /\ encodeUriPathComponent [55296] = None
  /\ decodedLookupPath [55296] <> Some (normalize [55296]).
Proof.
  split; [|split].
  - apply codeUnits_checked. reflexivity.
  - reflexivity.
  - discriminate.
Qed.

(** Leading slashes beyond the first are not recovered. *)
Example path_round_trip_double_slash :
  decodedLookupPath (js "//a") = Some (js "/a")
  /\ lookupPathOf (js "//a") = js "//a".
Proof. split; reflexivity. Qed.

Example encodeUriPathComponent_users :
  encodeUriPathComponent (js "/users/{id}") = Some (js "users%2F%7Bid%7D").
Proof. reflexivity. Qed.

(** ** The registry listing *)

(** C9.  In the listing of the loaded specs, a description longer than 200
    code units is shown as its first 200 code units followed by "...", a
    non-empty description of at most 200 code units is shown in full, and
    an empty description gives no Description line at all; the text of the
    listing is made of these lines. *)
Theorem specs_list_description : forall spec : LoadedSpec,
  let d := description spec in
  let head := [js "## " ++ slug spec; js "Title: " ++ title spec] in
  let tail :=
    (if isEmpty (version spec) then [] else [js "Version: " ++ version spec])
    ++ [js "Paths: " ++ ofNat (pathCount spec) ++ js " endpoints"] in
  ((200 < List.length d)%nat ->
   specParts spec
   = head ++ [js "Description: " ++ firstn 200 d ++ js "..."] ++ tail)
  /\ (d <> [] -> (List.length d <= 200)%nat ->
      specParts spec = head ++ [js "Description: " ++ d] ++ tail)
  /\ (d = [] ->
      specParts spec = head ++ tail
      /\ forall line, In line (specParts spec) ->
                      startsWith (js "Description: ") line = false)
  /\ (forall specManager,
        map text (specsListHandleRequest specManager)
        = [Text (join [10; 10]
                   (map (fun s => join [10] (specParts s))
                        (getAllSpecs specManager)))]).
Proof.
  intros spec d head tail. unfold specParts. fold d.
  split; [|split; [|split]].
  - intros Hlong. destruct d as [|c d']; [cbn in Hlong; lia|].
    cbn [isEmpty]. apply Nat.ltb_lt in Hlong. rewrite Hlong. reflexivity.
  - intros Hne Hshort. destruct d as [|c d']; [contradiction|].
    cbn [isEmpty].
    destruct (Nat.ltb_spec 200 (List.length (c :: d'))); [lia | reflexivity].
  - intros Hd. rewrite Hd. cbn [isEmpty app]. split; [reflexivity|].
    intros line.
    destruct (isEmpty (version spec));
      cbn [In app]; intros H; repeat destruct H as [<-|H];
      try reflexivity; contradiction.
  - reflexivity.
Qed.

Lemma specs_list_description_witness :
  specParts (sampleEntry (repeat 120 201))
  = [js "## demo-api"; js "Title: Demo API";
     js "Description: " ++ repeat 120 200 ++ js "...";
     js "Version: 1.0.0"; js "Paths: 3 endpoints"]
  /\ specParts (sampleEntry (js "short"))
     = [js "## demo-api"; js "Title: Demo API"; js "Description: short";
        js "Version: 1.0.0"; js "Paths: 3 endpoints"]
  /\ specParts (sampleEntry [])
     = [js "## demo-api"; js "Title: Demo API";
        js "Version: 1.0.0"; js "Paths: 3 endpoints"].
Proof.
  split; [|split].
  - apply (proj1 (specs_list_description (sampleEntry (repeat 120 201)))).
    vm_compute. lia.
  - apply (proj1 (proj2 (specs_list_description (sampleEntry (js "short"))))).
    + discriminate.
    + vm_compute. lia.
  - apply (proj1 (proj2 (proj2 (specs_list_description (sampleEntry []))))).
    reflexivity.
Defined.

(** ** Component handlers *)

(** C3.  A component type outside the allow-list makes both component
    handlers answer with the single invalid-component-type error item
    without calling the spec manager or a loader: the record of calls is
    left as it was, so [getTransformedSpec] is not invoked. *)
Theorem invalid_component_type_short_circuits :
  forall (specManager : Registry) (specId type : jsstring)
         (nameVar : Variable_) (log : list Event),
    includes VALID_COMPONENT_TYPES type = false ->
    componentMapHandleRequest specManager specId type log
    = (Returned [errorItem (BASE_URI ++ specId ++ js "/components/" ++ type)
                           (js "Invalid component type: " ++ type)],
       log)
    /\ componentDetailHandleRequest specManager specId type nameVar log
       = (Returned
            [errorItem (BASE_URI ++ specId ++ js "/"
                        ++ errorSuffixOf (js "components/" ++ type) nameVar)
                       (js "Invalid component type: " ++ type)],
          log).
Proof.
  intros specManager specId type nameVar log Hinvalid.
  unfold componentMapHandleRequest, componentDetailHandleRequest,
    bind, tryCatch.
  rewrite Hinvalid. split; reflexivity.
Qed.

Lemma invalid_component_type_short_circuits_witness :
  run (componentMapHandleRequest demoRegistry (js "demo-api")
                                 (js "invalidType"))
  = (Returned [errorItem (js "openapi://demo-api/components/invalidType")
                         (js "Invalid component type: invalidType")],
     [])
  /\ called isGetTransformedSpec
            (snd (run (componentDetailHandleRequest
                         demoRegistry (js "demo-api") (js "invalidType")
                         (Str (js "User")))))
     = false.
Proof.
  destruct (invalid_component_type_short_circuits
              demoRegistry (js "demo-api") (js "invalidType")
              (Str (js "User")) [] eq_refl) as [Hmap Hdetail].
  split.
  - exact Hmap.
  - unfold run. rewrite Hdetail. reflexivity.
Defined.

Lemma not_found_message_differs : forall t1 available t2,
  componentTypeNotFoundMessage t1 available <> noComponentsMessage t2.
Proof.
  intros t1 available t2 H.
  apply (f_equal (@hd Z 0)) in H. vm_compute in H. discriminate H.
Qed.

(** C4.  For a valid component type and a loaded OpenAPI v3 document with
    a components object: when the object has no key for the type, the
    listing fails with the "not found" error that lists the available
    types; when the key is there with an empty collection, it fails with
    the "no components of this type" error; the two messages are never
    equal. *)
Theorem component_list_missing_vs_empty :
  forall (specManager : Registry) (specId type : jsstring)
         (entry : LoadedSpec) (doc : Document) (cs : Dict ComponentMap)
         (log : list Event),
    includes VALID_COMPONENT_TYPES type = true ->
    get specManager specId = Some entry ->
    transformedSpec (loader entry) = Returned (V3Document doc) ->
    components doc = Some cs ->
    let u := BASE_URI ++ specId ++ js "/components/" ++ type in
    (get cs type = None ->
     fst (componentMapHandleRequest specManager specId type log)
     = Returned
         [errorItem u
            (js "Component type " ++ quoted type
             ++ js " not found in the specification. Available types: "
             ++ join (js ", ") (keys cs))])
    /\ (get cs type = Some [] ->
        fst (componentMapHandleRequest specManager specId type log)
        = Returned
            [errorItem u
               (js "No components of type " ++ quoted type ++ js " found.")])
    /\ (forall available,
          componentTypeNotFoundMessage type available
          <> noComponentsMessage type).
Proof.
  intros specManager specId type entry doc cs log Hvalid Hentry Hspec Hcs u.
  unfold componentMapHandleRequest, bind, tryCatch, getLoader,
    getTransformedSpec, bind, emit, ofOutcome.
  rewrite Hvalid, Hentry. unfold ret, throw. cbn [negb].
  cbv beta iota zeta. rewrite Hspec.
  unfold requireOpenAPIV3, getValidatedComponentMap, ret, throw.
  cbv beta iota zeta. rewrite Hcs.
  split; [|split].
  - intros ->. reflexivity.
  - intros ->. reflexivity.
  - intros available. apply not_found_message_differs.
Qed.

Lemma component_list_missing_vs_empty_witness :
  fst (run (componentMapHandleRequest demoRegistry (js "demo-api")
                                      (js "securitySchemes")))
  = Returned
      [errorItem (js "openapi://demo-api/components/securitySchemes")
         (js "Component type " ++ quoted (js "securitySchemes")
          ++ js " not found in the specification. Available types: "
          ++ js "schemas, examples")]
  /\ fst (run (componentMapHandleRequest demoRegistry (js "demo-api")
                                         (js "examples")))
     = Returned
         [errorItem (js "openapi://demo-api/components/examples")
            (js "No components of type " ++ quoted (js "examples")
             ++ js " found.")].
Proof.
  split.
  - apply (proj1 (component_list_missing_vs_empty
                    demoRegistry (js "demo-api") (js "securitySchemes")
                    (snd (hd (js "", sampleEntry []) demoRegistry))
                    (documentTitled (js "Demo API")) demoComponents []
                    eq_refl eq_refl eq_refl eq_refl)).
    reflexivity.
  - apply (proj1 (proj2 (component_list_missing_vs_empty
                    demoRegistry (js "demo-api") (js "examples")
                    (snd (hd (js "", sampleEntry []) demoRegistry))
                    (documentTitled (js "Demo API")) demoComponents []
                    eq_refl eq_refl eq_refl eq_refl))).
    reflexivity.
Defined.

(** ** Completions *)

Lemma eqb_refl : forall s : jsstring, eqb s s = true.
Proof.
  induction s as [|c s IH]; [reflexivity|].
  cbn [eqb]. now rewrite Z.eqb_refl, IH.
Qed.

Lemma eqb_eq : forall a b : jsstring, eqb a b = true <-> a = b.
Proof.
  induction a as [|x a IH]; intros [|y b]; cbn [eqb]; split; intros H;
    try reflexivity; try discriminate.
  - apply andb_true_iff in H as [Hxy Hab].
    apply Z.eqb_eq in Hxy. apply IH in Hab. now subst.
  - inversion H; subst. now rewrite Z.eqb_refl, eqb_refl.
Qed.

Lemma get_head : forall {A} (k : jsstring) (v : A) (rest : Dict A),
  get ((k, v) :: rest) k = Some v.
Proof. intros A k v rest. cbn [get]. now rewrite eqb_refl. Qed.

Lemma nonEmptyCategories_keys : forall cs t,
  In t (nonEmptyCategories cs) -> In t (keys cs).
Proof.
  unfold nonEmptyCategories, keys. intros cs t H.
  apply in_map_iff in H as ((k & m) & <- & Hin).
  apply filter_In in Hin as [Hin _].
  apply in_map_iff. now exists (k, m).
Qed.

Lemma nonEmptyCategories_all : forall cs,
  (forall t m, In (t, m) cs -> m <> []) -> nonEmptyCategories cs = keys cs.
Proof.
  unfold nonEmptyCategories, keys.
  induction cs as [|(t & m) cs IH]; intros Hall; [reflexivity|].
  cbn [filter snd]. destruct m as [|x m].
  - exfalso. now apply (Hall t []); [left|].
  - cbn [map fst]. f_equal. apply IH. intros t' m' Hin.
    apply (Hall t' m'). now right.
Qed.

(** C8 (as amended).  The [type] completion is every category key of the
    components object of the first registered spec, in the document's key
    order, whether or not the category holds a component; nothing absent
    from the document is offered.  It contains every non-empty category,
    and it is exactly the non-empty categories when no category of the
    document is empty.  Without a loadable OpenAPI v3 document with a
    components object the completion is empty. *)
Theorem type_completion_lists_keys :
  forall (first : jsstring) (entry : LoadedSpec) (rest : Registry)
         (log : list Event),
    let specManager := (first, entry) :: rest in
    fst (typeCompletion specManager log)
    = Returned match transformedSpec (loader entry) with
               | Returned (V3Document doc) =>
                   match components doc with
                   | Some cs => keys cs
                   | None => []
                   end
               | _ => []
               end
    /\ (forall doc cs,
          transformedSpec (loader entry) = Returned (V3Document doc) ->
          components doc = Some cs ->
          fst (typeCompletion specManager log) = Returned (keys cs)
          /\ (forall t, In t (nonEmptyCategories cs) -> In t (keys cs))
          /\ ((forall t m, In (t, m) cs -> m <> []) ->
              keys cs = nonEmptyCategories cs))
    /\ fst (typeCompletion [] log) = Returned [].
Proof.
  intros first entry rest log specManager.
  assert (Hrun : fst (typeCompletion specManager log)
                 = Returned match transformedSpec (loader entry) with
                            | Returned (V3Document doc) =>
                                match components doc with
                                | Some cs => keys cs
                                | None => []
                                end
                            | _ => []
                            end).
  { unfold typeCompletion, specManager, getSpecSlugs. cbn [keys map fst].
    unfold getSpecComponentTypes, tryCatch, bind, getLoader,
      getTransformedSpec, bind, emit, ofOutcome.
    rewrite get_head. unfold ret, throw. cbv beta iota zeta.
    destruct (transformedSpec (loader entry)) as [[doc|]|e];
      cbv beta iota zeta; try reflexivity.
    destruct (components doc); reflexivity. }
  split; [exact Hrun|]. split; [|reflexivity].
  intros doc cs Hspec Hcs. rewrite Hrun, Hspec, Hcs.
  split; [reflexivity|]. split.
  - apply nonEmptyCategories_keys.
  - intros Hall. symmetry. now apply nonEmptyCategories_all.
Qed.

Lemma type_completion_lists_keys_witness :
  fst (run (typeCompletion demoRegistry))
  = Returned [js "schemas"; js "examples"].
Proof.
  apply (proj1 (proj1 (proj2 (type_completion_lists_keys
                                (js "demo-api")
                                (snd (hd (js "", sampleEntry []) demoRegistry))
                                [] []))
                      (documentTitled (js "Demo API")) demoComponents
                      eq_refl eq_refl)).
Defined.

(** The completion offers the empty category [examples], which is not one
    of the non-empty categories of the document. *)
Lemma type_completion_offers_empty_category :
  fst (run (typeCompletion demoRegistry))
  = Returned [js "schemas"; js "examples"]
  /\ nonEmptyCategories demoComponents = [js "schemas"]
  /\ fst (run (typeCompletion demoRegistry))
     <> Returned (nonEmptyCategories demoComponents).
Proof. split; [|split]; [reflexivity | reflexivity | discriminate]. Qed.

Lemma name_completion_value :
  forall (specManager : Registry) (log : list Event),
    fst (nameCompletion specManager log)
    = Returned
        match specManager with
        | [(_, entry)] =>
            match transformedSpec (loader entry) with
            | Returned (V3Document doc) =>
                match components doc with
                | Some [(_, m)] => keys m
                | _ => []
                end
            | _ => []
            end
        | _ => []
        end.
Proof.
  intros specManager log. unfold nameCompletion, getSpecSlugs.
  destruct specManager as [|(only & entry) [|second rest]];
    try reflexivity.
  cbn [keys map fst].
  unfold tryCatch, bind, getLoader, getTransformedSpec, bind, emit, ofOutcome.
  rewrite get_head. unfold ret, throw. cbv beta iota zeta.
  destruct (transformedSpec (loader entry)) as [[doc|]|e];
    cbv beta iota zeta; try reflexivity.
  unfold getValidatedComponentMap.
  destruct (components doc) as [[|(ty & m) [|c2 cs]]|] eqn:Hcs;
    try reflexivity.
  unfold keys at 1. cbn [map fst]. cbv beta iota zeta.
  rewrite get_head. reflexivity.
Qed.

(** C7 (as amended).  The [name] completion is non-empty only when exactly
    one spec is registered and the components object of its document has
    exactly one category key, that category being non-empty; the sequence
    is then every name within that category.  Whenever the components
    object has exactly one category key the completion is every name of
    that category.  When the document has zero or more than one non-empty
    category the completion is empty. *)
Theorem name_completion_single_category :
  forall (specManager : Registry) (log : list Event),
    (forall result,
        fst (nameCompletion specManager log) = Returned result ->
        result <> [] ->
        exists only entry doc ty m,
          specManager = [(only, entry)]
          /\ transformedSpec (loader entry) = Returned (V3Document doc)
          /\ components doc = Some [(ty, m)]
          /\ nonEmptyCategories [(ty, m)] = [ty]
          /\ result = keys m)
    /\ (forall only entry doc ty m,
          specManager = [(only, entry)] ->
          transformedSpec (loader entry) = Returned (V3Document doc) ->
          components doc = Some [(ty, m)] ->
          fst (nameCompletion specManager log) = Returned (keys m))
    /\ (forall first entry rest doc cs,
          specManager = (first, entry) :: rest ->
          transformedSpec (loader entry) = Returned (V3Document doc) ->
          components doc = Some cs ->
          List.length (nonEmptyCategories cs) <> 1%nat ->
          fst (nameCompletion specManager log) = Returned []).
Proof.
  intros specManager log. rewrite name_completion_value.
  split; [|split].
  - intros result H Hne. inversion H as [Hres]; clear H.
    destruct specManager as [|(only & entry) [|second rest]];
      try (subst result; contradiction).
    destruct (transformedSpec (loader entry)) as [[doc|]|e] eqn:Hspec;
      try (subst result; contradiction).
    destruct (components doc) as [[|(ty & m) [|c2 cs]]|] eqn:Hcs;
      try (subst result; contradiction).
    exists only, entry, doc, ty, m.
    split; [reflexivity|]. split; [exact Hspec|]. split; [exact Hcs|].
    split; [|now subst].
    destruct m; [subst result; contradiction | reflexivity].
  - intros only entry doc ty m -> -> ->. reflexivity.
  - intros first entry rest doc cs -> -> -> Hlen.
    destruct rest; [|reflexivity].
    destruct cs as [|(ty & m) [|c2 cs]]; try reflexivity.
    destruct m; [reflexivity|]. now contradiction Hlen.
Qed.

Lemma name_completion_single_category_witness :
  fst (run (nameCompletion (registryOf singleCategory)))
  = Returned [js "Task"; js "TaskList"]
  /\ fst (run (nameCompletion (registryOf twoCategories))) = Returned [].
Proof.
  pose proof (name_completion_single_category (registryOf singleCategory) [])
    as (_ & Hone & _).
  pose proof (name_completion_single_category (registryOf twoCategories) [])
    as (_ & _ & Hmany).
  split.
  - apply (Hone (js "one") (entryOf singleCategory) (documentOf singleCategory)
                (js "schemas")
                [(js "Task", userSchema); (js "TaskList", userSchema)]);
      reflexivity.
  - apply (Hmany (js "one") (entryOf twoCategories) []
                 (documentOf twoCategories) twoCategories);
      try reflexivity.
    vm_compute. discriminate.
Defined.

(** The document of the demo registry has exactly one non-empty category,
    [schemas] with the name [User], next to the empty category [examples];
    no name is offered. *)
Lemma name_completion_ignores_single_non_empty_category :
  getSpecSlugs demoRegistry = [js "demo-api"]
  /\ nonEmptyCategories demoComponents = [js "schemas"]
  /\ get demoComponents (js "schemas") = Some [(js "User", userSchema)]
  /\ fst (run (nameCompletion demoRegistry)) = Returned []
  /\ fst (run (nameCompletion demoRegistry)) <> Returned [js "User"].
Proof. repeat split; try reflexivity. discriminate. Qed.

(** ** Path items and operations *)

Lemma includes_In : forall (arr : list jsstring) (x : jsstring),
  includes arr x = true <-> In x arr.
Proof.
  intros arr x. unfold includes. rewrite existsb_exists. split.
  - intros (y & Hy & Heq). apply eqb_eq in Heq. now subst.
  - intros H. exists x. split; [exact H | apply eqb_refl].
Qed.

Lemma get_Some_In : forall {A} (d : Dict A) (k : jsstring),
  (exists v, get d k = Some v) <-> In k (keys d).
Proof.
  intros A d k. induction d as [|(k' & v') d IH]; cbn [get keys map fst In].
  - split; [intros (v & H); discriminate | contradiction].
  - destruct (eqb k k') eqn:Heq.
    + apply eqb_eq in Heq. subst. split; [now left | now exists v'].
    + split.
      * intros H. right. now apply IH.
      * intros [->|H]; [now rewrite eqb_refl in Heq | now apply IH].
Qed.

Lemma hasKey_In : forall {A} (d : Dict A) (k : jsstring),
  hasKey d k = true <-> In k (keys d).
Proof.
  intros A d k. rewrite <- get_Some_In. unfold hasKey.
  destruct (get d k) as [v|]; split; try reflexivity; try discriminate.
  - now exists v.
  - intros (v & H). discriminate.
Qed.

Lemma filter_Subseq : forall {A} (f : A -> bool) (l : list A),
  Subseq (filter f l) l.
Proof.
  induction l as [|x l IH]; cbn [filter]; [constructor|].
  destruct (f x); now constructor.
Qed.

Lemma HTTP_METHODS_NoDup : NoDup HTTP_METHODS.
Proof.
  unfold HTTP_METHODS. cbn [map].
  repeat (constructor;
          [cbn [In]; intros H;
           repeat (destruct H as [H|H]; [vm_compute in H; discriminate H|]);
           exact H|]).
  constructor.
Qed.

Lemma declaredMethods_In : forall (pathItem : PathItem) (m : jsstring),
  In m (declaredMethods pathItem)
  <-> In m HTTP_METHODS /\ In m (keys pathItem).
Proof.
  intros pathItem m. unfold declaredMethods.
  rewrite filter_In, hasKey_In. reflexivity.
Qed.

Lemma declaredMethods_same_keys : forall (pathItem other : PathItem),
  (forall k, In k (keys pathItem) <-> In k (keys other)) ->
  declaredMethods other = declaredMethods pathItem.
Proof.
  intros pathItem other Hkeys. unfold declaredMethods.
  apply filter_ext_in. intros m _.
  destruct (hasKey other m) eqn:Ho, (hasKey pathItem m) eqn:Hp;
    try reflexivity.
  - apply hasKey_In, Hkeys, hasKey_In in Ho. congruence.
  - apply hasKey_In, Hkeys, hasKey_In in Hp. congruence.
Qed.

Lemma stripLeadingSlashes_lookupPathOf : forall d,
  stripLeadingSlashes (lookupPathOf d) = stripLeadingSlashes d.
Proof.
  intros d. unfold lookupPathOf.
  destruct (startsWith (js "/") d); reflexivity.
Qed.

Lemma encodeUriPathComponent_lookupPathOf : forall d,
  encodeUriPathComponent (lookupPathOf d) = encodeUriPathComponent d.
Proof.
  intros d. unfold encodeUriPathComponent.
  now rewrite stripLeadingSlashes_lookupPathOf.
Qed.

Lemma lookupPathOf_nonempty : forall d, isEmpty (lookupPathOf d) = false.
Proof.
  intros d. unfold lookupPathOf.
  destruct d as [|c d]; [reflexivity|].
  destruct (startsWith (js "/") (c :: d)); reflexivity.
Qed.

Lemma HTTP_METHODS_nonempty : forall m,
  In m HTTP_METHODS -> isEmpty m = false.
Proof.
  intros m H. unfold HTTP_METHODS in H. cbn [map In] in H.
  repeat (destruct H as [<-|H]; [reflexivity|]). contradiction.
Qed.

Lemma renderOperationDetail_value :
  forall (path encoded : jsstring) (validOps : list (jsstring * Json))
         (log : list Event),
    encodeUriPathComponent path = Some encoded ->
    renderOperationDetail path validOps log
    = (Returned
         (map (fun mo =>
                 {| uriSuffix := js "paths/" ++ encoded ++ js "/"
                                 ++ toLowerCase (fst mo);
                    data := ObjectData (snd mo);
                    isError := false;
                    errorText := None;
                    renderAsList := false |})
              validOps),
       log).
Proof.
  intros path encoded validOps log Henc.
  induction validOps as [|(m & op) validOps IH]; [reflexivity|].
  cbn [renderOperationDetail]. unfold bind, orURIError, buildOperationUriSuffix.
  rewrite Henc. cbn [option_map]. unfold ret. cbv beta iota zeta.
  unfold ret in IH. rewrite IH. reflexivity.
Qed.

Lemma validOperations_Forall2 :
  forall (pathItem : PathItem) (methods : list jsstring),
    Forall2 (fun m mo => fst mo = m /\ get pathItem m = Some (snd mo))
            (filter (includes (declaredMethods pathItem)) methods)
            (validOperations pathItem methods).
Proof.
  intros pathItem methods. unfold validOperations.
  induction methods as [|m methods IH]; cbn [filter flat_map]; [constructor|].
  destruct (includes (declaredMethods pathItem) m) eqn:Hin; [|exact IH].
  apply includes_In, declaredMethods_In in Hin as [_ Hkey].
  apply get_Some_In in Hkey as (op & Hop). rewrite Hop.
  cbn [app]. constructor; [now split | exact IH].
Qed.

Lemma toLowerCase_nil_iff : forall s, toLowerCase s = [] <-> s = [].
Proof.
  intros [|c s]; split; intros H; try reflexivity; try discriminate.
  unfold toLowerCase in H. cbn [flat_map] in H. unfold lowerUnit in H.
  destruct (inRange 65 90 c); [discriminate|].
  destruct (c =? 304); [discriminate|].
  destruct (c =? 8490); discriminate.
Qed.

Lemma keep_lowered : forall s,
  (0 <? List.length (toLowerCase s))%nat = negb (isEmpty s).
Proof.
  intros s. destruct s as [|c s]; [reflexivity|].
  destruct (toLowerCase (c :: s)) as [|d t] eqn:Hlow.
  - apply (proj1 (toLowerCase_nil_iff (c :: s))) in Hlow. discriminate.
  - reflexivity.
Qed.

Lemma lowered_selection : forall items,
  filter (fun m => (0 <? List.length m)%nat)
         (map (fun m => toLowerCase (trim m)) items)
  = map toLowerCase (filter (fun n => negb (isEmpty n)) (map trim items)).
Proof.
  induction items as [|m items IH]; [reflexivity|].
  cbn [map filter]. rewrite keep_lowered.
  destruct (isEmpty (trim m)); cbn [negb map]; now rewrite IH.
Qed.

Lemma requestedMethods_lowered : forall methodVar,
  requestedMethods methodVar = map toLowerCase (selectorValues methodVar).
Proof.
  intros methodVar. unfold requestedMethods, selectorValues.
  destruct methodVar as [|s|items].
  - reflexivity.
  - apply (lowered_selection [s]).
  - apply lowered_selection.
Qed.

(** What the operation handler answers once the path item is found. *)
Lemma operation_request_value :
  forall (specManager : Registry) (specId : jsstring)
         (encodedPath : option jsstring) (methodVar : Variable_)
         (decodedPath encoded : jsstring) (entry : LoadedSpec)
         (doc : Document) (ps : Dict PathItem) (pathItem : PathItem)
         (log : list Event),
    decodeURIComponent (pathOrEmpty encodedPath) = Some decodedPath ->
    encodeUriPathComponent decodedPath = Some encoded ->
    get specManager specId = Some entry ->
    transformedSpec (loader entry) = Returned (V3Document doc) ->
    paths doc = Some ps ->
    get ps (lookupPathOf decodedPath) = Some pathItem ->
    let requested := map toLowerCase (selectorValues methodVar) in
    requested <> [] ->
    fst (operationHandleRequest specManager specId encodedPath methodVar log)
    = Returned
        (formatResults
           {| baseUri := BASE_URI; specId := specId |}
           match validOperations pathItem requested with
           | [] =>
               createErrorResult
                 (errorSuffixOf (js "paths/" ++ encoded) methodVar)
                 (noValidMethodsMessage requested (declaredMethods pathItem)
                                        (lookupPathOf decodedPath))
           | valid =>
               map (fun mo =>
                      {| uriSuffix := js "paths/" ++ encoded ++ js "/"
                                      ++ toLowerCase (fst mo);
                         data := ObjectData (snd mo);
                         isError := false;
                         errorText := None;
                         renderAsList := false |})
                   valid
           end).
Proof.
  intros specManager specId encodedPath methodVar decodedPath encoded entry
         doc ps pathItem log Hdec Henc Hentry Hspec Hps Hitem requested Hreq.
  unfold operationHandleRequest. rewrite requestedMethods_lowered.
  unfold bind, orURIError, buildPathItemUriSuffix.
  rewrite Hdec. unfold ret, throw. cbv beta iota zeta.
  rewrite Henc. cbn [option_map]. cbv beta iota zeta.
  unfold tryCatch. fold requested.
  destruct requested as [|r0 requested'] eqn:Hrequested; [contradiction|].
  rewrite <- Hrequested.
  unfold getLoader, getTransformedSpec, bind, emit, ofOutcome.
  rewrite Hentry. unfold ret, throw. cbv beta iota zeta. rewrite Hspec.
  unfold requireOpenAPIV3, getValidatedPathItem, ret, throw.
  cbv beta iota zeta. rewrite Hps, Hitem.
  unfold getValidatedOperations.
  destruct (validOperations pathItem requested) as [|v0 valid] eqn:Hvalid.
  - reflexivity.
  - unfold ret. cbv beta iota zeta.
    rewrite (renderOperationDetail_value _ encoded)
      by (now rewrite encodeUriPathComponent_lookupPathOf).
    reflexivity.
Qed.

(** C1.  When at least one requested method is declared on the path item,
    the operation handler returns exactly one detail item per valid
    requested method, in request order, each under the full URI of its own
    operation and carrying that operation; invalid requested methods give
    no item at all, in particular no error item. *)
Theorem operation_detail_valid_methods :
  forall (specManager : Registry) (specId : jsstring)
         (encodedPath : option jsstring) (methodVar : Variable_)
         (decodedPath encoded : jsstring) (entry : LoadedSpec)
         (doc : Document) (ps : Dict PathItem) (pathItem : PathItem)
         (log : list Event),
    decodeURIComponent (pathOrEmpty encodedPath) = Some decodedPath ->
    encodeUriPathComponent decodedPath = Some encoded ->
    get specManager specId = Some entry ->
    transformedSpec (loader entry) = Returned (V3Document doc) ->
    paths doc = Some ps ->
    get ps (lookupPathOf decodedPath) = Some pathItem ->
    let requested := map toLowerCase (selectorValues methodVar) in
    let valid := filter (includes (declaredMethods pathItem)) requested in
    valid <> [] ->
    exists items,
      fst (operationHandleRequest specManager specId encodedPath methodVar
                                  log)
      = Returned items
      /\ Forall2
           (fun m item =>
              exists op,
                get pathItem m = Some op
                /\ buildOperationUri specId (lookupPathOf decodedPath) m
                   = Some (uri item)
                /\ item = detailItem (uri item) op)
           valid items.
Proof.
  intros specManager specId encodedPath methodVar decodedPath encoded entry
         doc ps pathItem log Hdec Henc Hentry Hspec Hps Hitem requested valid
         Hvalid.
  assert (Hreq : requested <> []).
  { intros Hnil. apply Hvalid. unfold valid. now rewrite Hnil. }
  rewrite (operation_request_value specManager specId encodedPath methodVar
             decodedPath encoded entry doc ps pathItem log
             Hdec Henc Hentry Hspec Hps Hitem Hreq).
  fold requested.
  pose proof (validOperations_Forall2 pathItem requested) as Hpairs.
  fold valid in Hpairs.
  destruct (validOperations pathItem requested) as [|v0 vs] eqn:Hvs.
  { inversion Hpairs as [Hnil|]. now contradiction Hvalid. }
  rewrite <- Hvs in *. clear Hvs v0 vs.
  eexists. split; [reflexivity|].
  unfold formatResults. rewrite map_map.
  generalize dependent (validOperations pathItem requested).
  generalize valid. clear Hvalid.
  intros ms pairs Hpairs.
  induction Hpairs as [|m (m' & op) ms pairs [Hm Hop] _ IH];
    cbn [map]; constructor; [|exact IH].
  cbn [fst snd] in Hm, Hop. subst m'.
  exists op. split; [exact Hop|]. split; [|reflexivity].
  unfold buildOperationUri.
  rewrite encodeUriPathComponent_lookupPathOf, Henc. reflexivity.
Qed.

(** Requesting get,put on a path item that only declares get. *)
Lemma operation_detail_valid_methods_witness :
  exists items,
    fst (run (operationHandleRequest
                demoRegistry (js "demo-api") (Some (js "items%2F%7Bid%7D"))
                (Arr [js "get"; js "put"])))
    = Returned items
    /\ Forall2
         (fun m item =>
            exists op,
              get singlePathItem m = Some op
              /\ buildOperationUri (js "demo-api")
                                   (lookupPathOf (js "items/{id}")) m
                 = Some (uri item)
              /\ item = detailItem (uri item) op)
         [js "get"] items.
Proof.
  apply (operation_detail_valid_methods
           demoRegistry (js "demo-api") (Some (js "items%2F%7Bid%7D"))
           (Arr [js "get"; js "put"]) (js "items/{id}")
           (js "items%2F%7Bid%7D")
           (snd (hd (js "", sampleEntry []) demoRegistry))
           (documentTitled (js "Demo API"))
           [(js "/items", itemsPathItem); (js "/items/{id}", singlePathItem)]
           singlePathItem []);
    try reflexivity.
  vm_compute. discriminate.
Defined.

Example operation_detail_get_put :
  fst (run (operationHandleRequest
              demoRegistry (js "demo-api") (Some (js "items%2F%7Bid%7D"))
              (Arr [js "get"; js "put"])))
  = Returned
      [detailItem (js "openapi://demo-api/paths/items%2F%7Bid%7D/get")
                  getOperation].
Proof. reflexivity. Qed.

Example operation_detail_only_put :
  fst (run (operationHandleRequest
              demoRegistry (js "demo-api") (Some (js "items"))
              (Str (js "put"))))
  = Returned
      [errorItem (js "openapi://demo-api/paths/items/put")
         (js "None of the requested methods (put) are valid for path "
          ++ quoted (js "/items") ++ js ". Available methods: get, post")].
Proof. reflexivity. Qed.

(** What the path-item handler answers once the path item is found and
    declares a method: the lines of the declared methods, then the hint. *)
Lemma path_item_request_value :
  forall (specManager : Registry) (specId : jsstring)
         (encodedPath : option jsstring)
         (decodedPath encoded : jsstring) (entry : LoadedSpec)
         (doc : Document) (ps : Dict PathItem) (pathItem : PathItem)
         (log : list Event),
    decodeURIComponent (pathOrEmpty encodedPath) = Some decodedPath ->
    encodeUriPathComponent decodedPath = Some encoded ->
    get specManager specId = Some entry ->
    transformedSpec (loader entry) = Returned (V3Document doc) ->
    paths doc = Some ps ->
    get ps (lookupPathOf decodedPath) = Some pathItem ->
    declaredMethods pathItem <> [] ->
    exists hint,
      generateListHint
        {| baseUri := BASE_URI; specId := specId |}
        {| itemType := pathMethod;
           firstItemExample := hd_error (declaredMethods pathItem);
           parentComponentType := None;
           parentPath := Some (lookupPathOf decodedPath) |}
      = Some hint
      /\ fst (pathItemHandleRequest specManager specId encodedPath log)
         = Returned
             [ {| uri := BASE_URI ++ specId ++ js "/paths/" ++ encoded;
                  mimeType := TextPlain;
                  text := Text (join [10] (map (methodLine pathItem)
                                               (declaredMethods pathItem))
                                ++ hint);
                  isErrorItem := false |} ].
Proof.
  intros specManager specId encodedPath decodedPath encoded entry
         doc ps pathItem log Hdec Henc Hentry Hspec Hps Hitem Hdeclared.
  unfold pathItemHandleRequest, bind, orURIError, buildPathItemUriSuffix.
  rewrite Hdec. unfold ret, throw. cbv beta iota zeta.
  rewrite Henc. cbn [option_map]. cbv beta iota zeta.
  unfold tryCatch, getLoader, getTransformedSpec, bind, emit, ofOutcome.
  rewrite Hentry. unfold ret, throw. cbv beta iota zeta. rewrite Hspec.
  unfold requireOpenAPIV3, getValidatedPathItem, ret, throw.
  cbv beta iota zeta. rewrite Hps, Hitem.
  unfold renderPathItemList.
  destruct (declaredMethods pathItem) as [|first others] eqn:Hmethods;
    [contradiction|].
  assert (Hfirst : isEmpty first = false).
  { apply HTTP_METHODS_nonempty.
    apply (proj1 (declaredMethods_In pathItem first)).
    rewrite Hmethods. now left. }
  unfold generateListHint, bind, orURIError. cbn [itemType parentPath
    firstItemExample hd_error truthy].
  rewrite lookupPathOf_nonempty, Hfirst. unfold buildOperationUriSuffix.
  rewrite encodeUriPathComponent_lookupPathOf, Henc. cbn [option_map].
  unfold ret. cbv beta iota zeta.
  eexists. split; reflexivity.
Qed.

(** C5.  The declared methods of a path item are the canonical methods
    that are keys of the path item, listed in canonical order (get, post,
    put, delete, patch, options, head, trace) without repetition; two path
    items with the same keys, in whatever order, have the same declared
    methods, and keys inserted as post, get are listed as get, post.  The
    path-item listing shows one line per declared method in this order,
    followed by the hint [generateListHint] gives for the first of them, and
    the error of an operation request with no valid method lists the
    available methods in this order. *)
Theorem declared_methods_canonical_order :
  forall pathItem : PathItem,
    (forall m, In m (declaredMethods pathItem)
               <-> In m HTTP_METHODS /\ In m (keys pathItem))
    /\ Subseq (declaredMethods pathItem) HTTP_METHODS
    /\ NoDup (declaredMethods pathItem)
    /\ (forall other : PathItem,
          (forall k, In k (keys pathItem) <-> In k (keys other)) ->
          declaredMethods other = declaredMethods pathItem)
    /\ (forall postOp getOp,
          declaredMethods [(js "post", postOp); (js "get", getOp)]
          = [js "get"; js "post"])
    /\ (forall specManager specId encodedPath decodedPath encoded entry doc
               ps log,
          decodeURIComponent (pathOrEmpty encodedPath) = Some decodedPath ->
          encodeUriPathComponent decodedPath = Some encoded ->
          get specManager specId = Some entry ->
          transformedSpec (loader entry) = Returned (V3Document doc) ->
          paths doc = Some ps ->
          get ps (lookupPathOf decodedPath) = Some pathItem ->
          (declaredMethods pathItem <> [] ->
           exists hint,
             generateListHint
               {| baseUri := BASE_URI; specId := specId |}
               {| itemType := pathMethod;
                  firstItemExample := hd_error (declaredMethods pathItem);
                  parentComponentType := None;
                  parentPath := Some (lookupPathOf decodedPath) |}
             = Some hint
             /\ fst (pathItemHandleRequest specManager specId encodedPath
                                           log)
                = Returned
                    [ {| uri := BASE_URI ++ specId ++ js "/paths/" ++ encoded;
                         mimeType := TextPlain;
                         text := Text (join [10]
                                         (map (methodLine pathItem)
                                              (declaredMethods pathItem))
                                       ++ hint);
                         isErrorItem := false |} ])
          /\ (forall methodVar,
                let requested := map toLowerCase (selectorValues methodVar) in
                requested <> [] ->
                filter (includes (declaredMethods pathItem)) requested = [] ->
                fst (operationHandleRequest specManager specId encodedPath
                                            methodVar log)
                = Returned
                    [errorItem
                       (BASE_URI ++ specId ++ js "/"
                        ++ errorSuffixOf (js "paths/" ++ encoded) methodVar)
                       (js "None of the requested methods ("
                        ++ join (js ", ") requested
                        ++ js ") are valid for path "
                        ++ quoted (lookupPathOf decodedPath)
                        ++ js ". Available methods: "
                        ++ join (js ", ") (declaredMethods pathItem))])).
Proof.
  intros pathItem.
  split; [apply declaredMethods_In|].
  split; [apply filter_Subseq|].
  split; [apply NoDup_filter, HTTP_METHODS_NoDup|].
  split; [apply declaredMethods_same_keys|].
  split; [reflexivity|].
  intros specManager specId encodedPath decodedPath encoded entry doc ps log
         Hdec Henc Hentry Hspec Hps Hitem.
  split.
  - now apply (path_item_request_value specManager specId encodedPath
                 decodedPath encoded entry doc ps pathItem log).
  - intros methodVar requested Hreq Hnone.
    rewrite (operation_request_value specManager specId encodedPath methodVar
               decodedPath encoded entry doc ps pathItem log
               Hdec Henc Hentry Hspec Hps Hitem Hreq).
    fold requested.
    pose proof (validOperations_Forall2 pathItem requested) as Hpairs.
    rewrite Hnone in Hpairs. inversion Hpairs. reflexivity.
Qed.

Lemma declared_methods_canonical_order_witness :
  declaredMethods itemsPathItem = [js "get"; js "post"]
  /\ exists hint,
       generateListHint
         {| baseUri := BASE_URI; specId := js "demo-api" |}
         {| itemType := pathMethod;
            firstItemExample := Some (js "get");
            parentComponentType := None;
            parentPath := Some (js "/items") |}
       = Some hint
       /\ fst (run (pathItemHandleRequest demoRegistry (js "demo-api")
                                          (Some (js "items"))))
          = Returned
              [ {| uri := js "openapi://demo-api/paths/items";
                   mimeType := TextPlain;
                   text := Text (js "GET: Get Item" ++ [10]
                                 ++ js "POST: Create Item" ++ hint);
                   isErrorItem := false |} ].
Proof.
  pose proof (declared_methods_canonical_order itemsPathItem)
    as (_ & _ & _ & _ & Hexample & Hhandlers).
  split; [apply Hexample|].
  apply (proj1 (Hhandlers demoRegistry (js "demo-api") (Some (js "items"))
                  (js "items") (js "items")
                  (snd (hd (js "", sampleEntry []) demoRegistry))
                  (documentTitled (js "Demo API"))
                  [(js "/items", itemsPathItem);
                   (js "/items/{id}", singlePathItem)]
                  [] eq_refl eq_refl eq_refl eq_refl eq_refl eq_refl)).
  vm_compute. discriminate.
Defined.

Example path_item_listing_items :
  fst (run (pathItemHandleRequest demoRegistry (js "demo-api")
                                  (Some (js "items"))))
  = Returned
      [ {| uri := js "openapi://demo-api/paths/items";
           mimeType := TextPlain;
           text := Text (js "GET: Get Item" ++ [10] ++ js "POST: Create Item"
                         ++ [10]
                         ++ js "Hint: Use 'openapi://demo-api/paths/items/{method}'"
                         ++ js " to view details for a specific operation."
                         ++ js " (e.g., openapi://demo-api/paths/items/get)");
           isErrorItem := false |} ].
Proof. reflexivity. Qed.

(** ** The shape of slugs *)

Section SlugShape.

Lemma dropWhile_suffix : forall p s, exists a, s = a ++ dropWhile p s.
Proof.
  intros p. induction s as [|c s (a & IH)]; [now exists []|].
  cbn [dropWhile]. destruct (p c).
  - exists (c :: a). cbn. now f_equal.
  - now exists [].
Qed.

Lemma dropWhileEnd_prefix : forall p s, exists b, s = dropWhileEnd p s ++ b.
Proof.
  intros p s. unfold dropWhileEnd.
  destruct (dropWhile_suffix p (rev s)) as (a & Ha).
  exists (rev a). rewrite <- rev_app_distr, <- Ha. now rewrite rev_involutive.
Qed.

Lemma dropWhile_head : forall p s c,
  hd_error (dropWhile p s) = Some c -> p c = false.
Proof.
  intros p. induction s as [|x s IH]; intros c H; [discriminate|].
  cbn [dropWhile] in H. destruct (p x) eqn:Hx; [now apply IH|].
  cbn in H. inversion H; subst. exact Hx.
Qed.

Lemma dropWhile_snoc : forall p s c,
  p c = false -> dropWhile p (s ++ [c]) = dropWhile p s ++ [c].
Proof.
  intros p s c Hc. induction s as [|x s IH]; cbn [dropWhile app].
  - now rewrite Hc.
  - destruct (p x); [exact IH | reflexivity].
Qed.

Lemma dropWhileEnd_cons : forall p c s,
  p c = false -> dropWhileEnd p (c :: s) = c :: dropWhileEnd p s.
Proof.
  intros p c s Hc. unfold dropWhileEnd. cbn [rev].
  rewrite dropWhile_snoc by exact Hc.
  now rewrite rev_app_distr.
Qed.

Lemma forallb_dropWhile : forall f p s,
  forallb f s = true -> forallb f (dropWhile p s) = true.
Proof.
  intros f p s H. destruct (dropWhile_suffix p s) as (a & Ha).
  rewrite Ha, forallb_app in H. now apply andb_true_iff in H.
Qed.

Lemma forallb_dropWhileEnd : forall f p s,
  forallb f s = true -> forallb f (dropWhileEnd p s) = true.
Proof.
  intros f p s H. destruct (dropWhileEnd_prefix p s) as (b & Hb).
  rewrite Hb, forallb_app in H. now apply andb_true_iff in H.
Qed.

Lemma forallb_replaceRuns : forall f p r s,
  forallb f r = true ->
  forallb (fun c => p c || f c) s = true ->
  forallb f (replaceRuns p r s) = true.
Proof.
  intros f p r s Hr. induction s as [|c s IH]; intros Hs; [reflexivity|].
  cbn [forallb] in Hs. apply andb_true_iff in Hs as [Hc Hs].
  specialize (IH Hs). cbn [replaceRuns].
  destruct (p c) eqn:Hp.
  - destruct s as [|d s]; [exact Hr|].
    destruct (p d); [exact IH|].
    rewrite forallb_app, Hr. exact IH.
  - cbn [orb] in Hc. cbn [forallb]. now rewrite Hc.
Qed.

Lemma adjacentHyphens_app_l : forall a b,
  adjacentHyphens (a ++ b) = false -> adjacentHyphens a = false.
Proof.
  induction a as [|x [|y a] IH]; intros b H; try reflexivity.
  cbn [adjacentHyphens app] in *.
  apply orb_false_iff in H as [Hxy H].
  rewrite Hxy. cbn [orb]. now apply (IH b).
Qed.

Lemma adjacentHyphens_app_r : forall a b,
  adjacentHyphens (a ++ b) = false -> adjacentHyphens b = false.
Proof.
  induction a as [|x a IH]; intros b H; [exact H|].
  apply IH. cbn [app] in H. destruct (a ++ b) as [|y t]; [reflexivity|].
  cbn [adjacentHyphens] in H. now apply orb_false_iff in H as [_ H].
Qed.

Lemma adjacentHyphens_cons_other : forall a t,
  a <> 45 -> adjacentHyphens (a :: t) = adjacentHyphens t.
Proof.
  intros a [|b t] Ha; [reflexivity|].
  cbn [adjacentHyphens]. destruct (Z.eqb_spec a 45); [contradiction|].
  reflexivity.
Qed.

Lemma adjacentHyphens_hyphen_other : forall b t,
  b <> 45 -> adjacentHyphens (45 :: b :: t) = adjacentHyphens (b :: t).
Proof.
  intros b t Hb.
  change (adjacentHyphens (45 :: b :: t))
    with (((45 =? 45) && (b =? 45)) || adjacentHyphens (b :: t)).
  destruct (Z.eqb_spec b 45); [contradiction|]. reflexivity.
Qed.

Lemma adjacentHyphens_replaceRuns : forall s,
  adjacentHyphens (replaceRuns isHyphen (js "-") s) = false.
Proof.
  induction s as [|c s IH]; [reflexivity|].
  cbn [replaceRuns]. unfold isHyphen in *.
  destruct (Z.eqb_spec c 45) as [->|Hc].
  - destruct s as [|e s]; [reflexivity|].
    destruct (Z.eqb_spec e 45) as [->|He]; [exact IH|].
    cbn [replaceRuns] in IH |- *.
    destruct (Z.eqb_spec e 45); [contradiction|].
    change (js "-" ++ e :: replaceRuns (fun c => c =? 45) (js "-") s)
      with (45 :: e :: replaceRuns (fun c => c =? 45) (js "-") s).
    rewrite adjacentHyphens_hyphen_other by exact He. exact IH.
  - rewrite adjacentHyphens_cons_other by exact Hc. exact IH.
Qed.

Lemma forallb_weaken : forall (f g : Z -> bool) s,
  (forall c, f c = true -> g c = true) ->
  forallb f s = true -> forallb g s = true.
Proof.
  intros f g s Hfg H. rewrite forallb_forall in *. auto.
Qed.

Lemma toLowerCase_notUpper : forall t,
  forallb notUpper (toLowerCase t) = true.
Proof.
  intros t. unfold toLowerCase. induction t as [|c t IH]; [reflexivity|].
  cbn [flat_map]. rewrite forallb_app, IH, andb_true_r.
  unfold lowerUnit, notUpper, inRange.
  destruct ((65 <=? c) && (c <=? 90)) eqn:Hu; cbn [forallb]; [lia|].
  destruct (c =? 304); [reflexivity|].
  destruct (c =? 8490); [reflexivity|].
  cbn [forallb]. now rewrite Hu.
Qed.

Lemma slug_unit_of_kept : forall c,
  notUpper c = true ->
  isWord c || isSpace c || isHyphen c = true ->
  (isSpace c || (c =? 95)) || isSlugUnit c = true.
Proof.
  intros c Hu Hk. unfold notUpper, isWord, isHyphen, isSlugUnit in *.
  destruct (isSpace c); [reflexivity|]. unfold inRange in *. lia.
Qed.

(** Whatever the text, [slugify] gives lower-case ASCII letters, digits
    and single hyphens, and no hyphen at either end. *)
Lemma slugify_shaped : forall text, slugShaped (slugify text).
Proof.
  intros text. unfold slugify.
  set (keep := fun c => negb (isWord c || isSpace c || isHyphen c)).
  set (stripped := removeAll keep (trim (toLowerCase text))).
  set (hyphenated :=
         replaceRuns (fun c => isSpace c || (c =? 95)) (js "-") stripped).
  set (collapsed := replaceRuns isHyphen (js "-") hyphenated).
  assert (Hstripped :
            forallb (fun c => (isSpace c || (c =? 95)) || isSlugUnit c)
                    stripped = true).
  { assert (Hlow : forallb notUpper (trim (toLowerCase text)) = true).
    { unfold trim. apply forallb_dropWhileEnd, forallb_dropWhile,
        toLowerCase_notUpper. }
    rewrite forallb_forall in Hlow |- *. intros c Hin.
    unfold stripped, removeAll in Hin. apply filter_In in Hin as [Hin Hk].
    apply slug_unit_of_kept; [now apply Hlow|].
    unfold keep in Hk. now rewrite negb_involutive in Hk. }
  assert (Hunits : forallb isSlugUnit collapsed = true).
  { unfold collapsed. apply forallb_replaceRuns; [reflexivity|].
    apply (forallb_weaken isSlugUnit);
      [intros c ->; apply orb_true_r|].
    unfold hyphenated. now apply forallb_replaceRuns. }
  assert (Hadjacent : adjacentHyphens collapsed = false)
    by apply adjacentHyphens_replaceRuns.
  split; [|split; [|split]].
  - now apply forallb_dropWhileEnd, forallb_dropWhile.
  - destruct (dropWhile_suffix isHyphen collapsed) as (a & Ha).
    rewrite Ha in Hadjacent. apply adjacentHyphens_app_r in Hadjacent.
    destruct (dropWhileEnd_prefix isHyphen (dropWhile isHyphen collapsed))
      as (b & Hb).
    rewrite Hb in Hadjacent. now apply adjacentHyphens_app_l in Hadjacent.
  - destruct (dropWhile isHyphen collapsed) as [|c rest] eqn:Hd;
      [discriminate|].
    assert (Hc : isHyphen c = false).
    { apply (dropWhile_head isHyphen collapsed). now rewrite Hd. }
    rewrite dropWhileEnd_cons by exact Hc. cbn [hd_error].
    intros H. inversion H; subst. discriminate Hc.
  - unfold dropWhileEnd. rewrite rev_involutive. intros H.
    apply dropWhile_head in H. discriminate H.
Qed.

Lemma slugFor_shaped : forall path doc, slugShaped (slugFor path doc).
Proof.
  intros path doc. unfold slugFor.
  destruct (isEmpty (slugify (orElse (infoTitle doc) (js "Untitled API"))));
    apply slugify_shaped.
Qed.

End SlugShape.

(** ** The registry built by [loadSpecs] *)

Section Registry.

Variable fetch : jsstring -> Outcome (Document * Outcome TransformedSpec).

Lemma has_false_iff : forall (specs : Registry) (s : jsstring),
  has specs s = false <-> ~ In s (keys specs).
Proof.
  intros specs s. unfold has. rewrite <- hasKey_In.
  destruct (hasKey specs s); split; congruence.
Qed.

Lemma keys_app : forall {A} (a b : Dict A), keys (a ++ b) = keys a ++ keys b.
Proof. intros A a b. unfold keys. apply map_app. Qed.

(** The invariant of the loop: what it adds to the map. *)
Lemma loadLoop_added :
  forall (rest : list jsstring) (next : nat) (specs specs' : Registry)
         (o : Outcome unit),
    loadLoop fetch next rest specs = (specs', o) ->
    exists added,
      specs' = specs ++ added
      /\ NoDup (keys added)
      /\ (forall s e,
            In (s, e) added ->
            ~ In s (keys specs)
            /\ exists k path doc tr,
                nth_error rest k = Some path
                /\ fetch path = Returned (doc, tr)
                /\ s = slugFor path doc
                /\ e = entryFor s doc (loaderOf (next + k) path doc tr)
                /\ forall k' path' doc' tr',
                    (k' < k)%nat ->
                    nth_error rest k' = Some path' ->
                    fetch path' = Returned (doc', tr') ->
                    slugFor path' doc' <> s)
      /\ (o = Returned tt ->
          forall k path doc tr,
            nth_error rest k = Some path ->
            fetch path = Returned (doc, tr) ->
            In (slugFor path doc) (keys specs')).
Proof.
  induction rest as [|path rest IH]; intros next specs specs' o Hloop.
  - cbn in Hloop. inversion Hloop; subst. exists [].
    rewrite app_nil_r. split; [reflexivity|]. split; [constructor|].
    split; [intros s e []|].
    intros _ [|k] p d t H; discriminate H.
  - cbn [loadLoop] in Hloop.
    destruct (fetch path) as [(doc & tr)|err] eqn:Hfetch.
    2:{ inversion Hloop; subst. exists []. rewrite app_nil_r.
        split; [reflexivity|]. split; [constructor|].
        split; [intros s e []|]. discriminate. }
    destruct (has specs (slugFor path doc)) eqn:Hhas.
    + apply IH in Hloop as (added & -> & Hnodup & Hadded & Hall).
      exists added. split; [reflexivity|]. split; [exact Hnodup|]. split.
      * intros s e Hin.
        destruct (Hadded s e Hin)
          as (Hfresh & k & p & d & t & Hk & Hf & Hs & He & Hearlier).
        split; [exact Hfresh|].
        exists (S k), p, d, t. rewrite Nat.add_succ_r.
        repeat (split; [assumption|]).
        intros [|k'] p' d' t' Hlt Hk' Hf'.
        -- cbn in Hk'. inversion Hk'; subst p'.
           rewrite Hfetch in Hf'. inversion Hf'; subst d' t'.
           intros Heq. apply Hfresh. rewrite <- Heq.
           apply hasKey_In. exact Hhas.
        -- apply (Hearlier k' p' d' t'); [lia | exact Hk' | exact Hf'].
      * intros Ho [|k] p d t Hk Hf.
        -- cbn in Hk. inversion Hk; subst p.
           rewrite Hfetch in Hf. inversion Hf; subst d t.
           rewrite keys_app. apply in_or_app. left.
           apply hasKey_In. exact Hhas.
        -- apply (Hall Ho k p d t Hk Hf).
    + apply has_false_iff in Hhas.
      apply IH in Hloop as (added & -> & Hnodup & Hadded & Hall).
      unfold set in *.
      set (s0 := slugFor path doc) in *.
      set (e0 := entryFor s0 doc (loaderOf next path doc tr)) in *.
      exists ((s0, e0) :: added). rewrite <- app_assoc.
      split; [reflexivity|].
      assert (Hnew : forall s e, In (s, e) added -> s <> s0).
      { intros s e Hin Heq. destruct (Hadded s e Hin) as [Hfresh _].
        apply Hfresh. rewrite keys_app. apply in_or_app. right.
        subst s. now left. }
      split.
      * cbn [keys map fst]. constructor; [|exact Hnodup].
        intros Hin. unfold keys in Hin.
        apply in_map_iff in Hin as ((s & e) & Hs & Hin). cbn in Hs. subst s.
        now apply (Hnew s0 e).
      * split.
        -- intros s e [Heq|Hin].
           ++ inversion Heq; subst s e. split; [exact Hhas|].
              exists 0%nat, path, doc, tr. rewrite Nat.add_0_r.
              repeat (split; [reflexivity || assumption|]).
              intros k' p' d' t' Hlt. lia.
           ++ destruct (Hadded s e Hin)
                as (Hfresh & k & p & d & t & Hk & Hf & Hs & He & Hearlier).
              split.
              { intros Hold. apply Hfresh. rewrite keys_app.
                apply in_or_app. now left. }
              exists (S k), p, d, t. rewrite Nat.add_succ_r.
              repeat (split; [assumption|]).
              intros [|k'] p' d' t' Hlt Hk' Hf'.
              ** cbn in Hk'. inversion Hk'; subst p'.
                 rewrite Hfetch in Hf'. inversion Hf'; subst d' t'.
                 intros Heq. now apply (Hnew s e).
              ** apply (Hearlier k' p' d' t'); [lia | exact Hk' | exact Hf'].
        -- intros Ho [|k] p d t Hk Hf.
           ++ cbn in Hk. inversion Hk; subst p.
              rewrite Hfetch in Hf. inversion Hf; subst d t.
              rewrite keys_app. apply in_or_app. right. now left.
           ++ rewrite app_assoc. apply (Hall Ho k p d t Hk Hf).
Qed.

(** From the empty map the loop ends normally with an empty map only
    when there was no path to load. *)
Lemma loadLoop_empty_without_paths : forall specPaths,
  loadLoop fetch 0 specPaths [] = ([], Returned tt) -> specPaths = [].
Proof.
  intros [|path rest] Hloop; [reflexivity|]. exfalso.
  cbn [loadLoop] in Hloop.
  destruct (fetch path) as [(doc & tr)|err]; [|discriminate].
  cbn [has hasKey get] in Hloop.
  apply loadLoop_added in Hloop as (added & Hspecs & _).
  discriminate Hspecs.
Qed.

(** C6 (as amended).  Starting from the empty map, every registered entry
    comes from one loaded document; its slug is [slugify] of its title (a
    missing or empty title counting as "Untitled API") when that is not the
    empty string, and otherwise [slugify] of the file name without its
    extension ("api" for an empty name); either way it is made of
    lower-case ASCII letters, digits and single hyphens, with no hyphen at
    either end.  Slugs are unique in the registry:
    the entry of a slug is the one of the first loaded document with that
    slug, a later document with the same slug is skipped and no entry of
    the listing holds its loader.  After a call that returns, the slug of
    every loaded document is registered. *)
Theorem registry_slug_first_wins :
  forall (specPaths : list jsstring) (specs' : Registry) (o : Outcome unit),
    loadSpecs fetch specPaths [] = (specs', o) ->
    NoDup (getSpecSlugs specs')
    /\ (forall s e,
          In (s, e) specs' ->
          exists i path doc tr,
            nth_error specPaths i = Some path
            /\ fetch path = Returned (doc, tr)
            /\ e = entryFor s doc (loaderOf i path doc tr)
            /\ slug e = s
            /\ slugShaped s
            /\ (slugify (title e) <> [] -> s = slugify (title e))
            /\ (slugify (title e) = [] ->
                s = slugify (orElse (Some (stripSpecExtension
                                             (lastSegment path)))
                                    (js "api")))
            /\ forall j path' doc' tr',
                (j < i)%nat ->
                nth_error specPaths j = Some path' ->
                fetch path' = Returned (doc', tr') ->
                slugFor path' doc' <> s)
    /\ (forall i j pi di ti pj dj tj,
          (i < j)%nat ->
          nth_error specPaths i = Some pi -> fetch pi = Returned (di, ti) ->
          nth_error specPaths j = Some pj -> fetch pj = Returned (dj, tj) ->
          slugFor pi di = slugFor pj dj ->
          forall e, In e (getAllSpecs specs') -> ident (loader e) <> j)
    /\ (o = Returned tt ->
        forall i path doc tr,
          nth_error specPaths i = Some path ->
          fetch path = Returned (doc, tr) ->
          In (slugFor path doc) (getSpecSlugs specs')).
Proof.
  intros specPaths specs' o Hload. unfold loadSpecs in Hload.
  destruct (loadLoop fetch 0 specPaths []) as [r o'] eqn:Hloop.
  assert (Hr : specs' = r /\ (o = Returned tt -> o' = Returned tt)).
  { destruct o' as [[]|err].
    - destruct (List.length r =? 0)%nat; inversion Hload; subst; auto.
    - inversion Hload; subst. split; [reflexivity | discriminate]. }
  destruct Hr as [-> Ho]. clear Hload.
  apply loadLoop_added in Hloop as (added & Hr & Hnodup & Hadded & Hall).
  cbn [app] in Hr. subst r.
  assert (Hentries :
            forall s e,
              In (s, e) added ->
              exists i path doc tr,
                nth_error specPaths i = Some path
                /\ fetch path = Returned (doc, tr)
                /\ e = entryFor s doc (loaderOf i path doc tr)
                /\ s = slugFor path doc
                /\ forall j path' doc' tr',
                    (j < i)%nat ->
                    nth_error specPaths j = Some path' ->
                    fetch path' = Returned (doc', tr') ->
                    slugFor path' doc' <> s).
  { intros s e Hin.
    destruct (Hadded s e Hin)
      as (_ & k & p & d & t & Hk & Hf & Hs & He & Hearlier).
    exists k, p, d, t. cbn [Nat.add] in He. auto. }
  split; [exact Hnodup|]. split; [|split].
  - intros s e Hin.
    destruct (Hentries s e Hin) as (i & p & d & t & Hi & Hf & He & Hs & Hfirst).
    exists i, p, d, t.
    split; [exact Hi|]. split; [exact Hf|]. split; [exact He|].
    split; [now rewrite He|].
    split; [rewrite Hs; apply slugFor_shaped|].
    assert (Htitle : title e = orElse (infoTitle d) (js "Untitled API"))
      by now rewrite He.
    rewrite Htitle. unfold slugFor in Hs.
    destruct (slugify (orElse (infoTitle d) (js "Untitled API")))
      as [|c slug0] eqn:Hslug; cbn [isEmpty] in Hs.
    + split; [intros Hne; now contradiction Hne|].
      split; [intros _; exact Hs | exact Hfirst].
    + split; [intros _; exact Hs|].
      split; [discriminate | exact Hfirst].
  - intros i j pi di ti pj dj tj Hlt Hi Hfi Hj Hfj Hsame e Hin Hident.
    unfold getAllSpecs in Hin.
    apply in_map_iff in Hin as ((s & e') & He' & Hin). cbn in He'. subst e'.
    destruct (Hentries s e Hin) as (k & p & d & t & Hk & Hf & He & Hs & Hfirst).
    assert (k = j) by (rewrite He in Hident; exact Hident). subst k.
    rewrite Hj in Hk. inversion Hk; subst p.
    rewrite Hfj in Hf. inversion Hf; subst d t.
    apply (Hfirst i pi di ti Hlt Hi Hfi). congruence.
  - intros Hret i p d t Hi Hf. apply (Hall (Ho Hret) i p d t Hi Hf).
Qed.

End Registry.

Lemma registry_slug_first_wins_witness :
  let registry :=
    fst (loadSpecs sampleFetch
                   [js "specs/demo.json"; js "specs/copy.yaml";
                    js "specs/petstore.json"] []) in
  NoDup (getSpecSlugs registry)
  /\ (forall e, In e (getAllSpecs registry) -> ident (loader e) <> 1%nat)
  /\ In (slugFor (js "specs/copy.yaml") (documentTitled (js "demo_api")))
        (getSpecSlugs registry).
Proof.
  intros registry.
  destruct (registry_slug_first_wins
              sampleFetch
              [js "specs/demo.json"; js "specs/copy.yaml";
               js "specs/petstore.json"]
              registry (Returned tt) eq_refl)
    as (Hunique & _ & Hskipped & Hall).
  split; [exact Hunique|]. split.
  - apply (Hskipped 0%nat 1%nat
             (js "specs/demo.json") (documentTitled (js "Demo API"))
             (Returned (V3Document (documentTitled (js "Demo API"))))
             (js "specs/copy.yaml") (documentTitled (js "demo_api"))
             (Returned (V3Document (documentTitled (js "demo_api")))));
      try reflexivity. lia.
  - apply (Hall eq_refl 1%nat (js "specs/copy.yaml")
             (documentTitled (js "demo_api"))
             (Returned (V3Document (documentTitled (js "demo_api")))));
      reflexivity.
Defined.

(** Two titles with the slug demo-api and one title without a word
    character: the second file is skipped, the third is registered under
    the slug of its file name. *)
Example loadSpecs_sample :
  let registry :=
    fst (loadSpecs sampleFetch
                   [js "specs/demo.json"; js "specs/copy.yaml";
                    js "specs/petstore.json"] []) in
  getSpecSlugs registry = [js "demo-api"; js "petstore"]
  /\ map (fun e => filePath (loader e)) (getAllSpecs registry)
     = [js "specs/demo.json"; js "specs/petstore.json"].
Proof. split; reflexivity. Qed.

(** The slug of a document titled "!!!" is not computed from its title. *)
Lemma registry_slug_from_file_name :
  let registry :=
    fst (loadSpecs sampleFetch [js "specs/petstore.json"] []) in
  map (fun e => (slug e, title e)) (getAllSpecs registry)
  = [(js "petstore", js "!!!")]
  /\ slugify (js "!!!") = []
  /\ forall e, In e (getAllSpecs registry) -> slug e <> slugify (title e).
Proof.
  split; [reflexivity|]. split; [reflexivity|].
  intros e [<-|[]]. discriminate.
Qed.

Example slugify_vtex :
  slugify (js "VTEX - Catalog API") = js "vtex-catalog-api".
Proof. reflexivity. Qed.

Example slugify_trims_and_collapses :
  slugify (js "  __Hello,  World!__--  ") = js "hello-world".
Proof. reflexivity. Qed.

(** * Further properties of the code *)

Import Config GlobExpand Main TopLevelField Notions.

(** ** The URI builders *)

Lemma option_map_None : forall {A B} (f : A -> B) (o : option A),
  option_map f o = None <-> o = None.
Proof. intros A B f [a|]; cbn; split; congruence. Qed.

Lemma encodeURIComponent_None_bounded : forall n s,
  (List.length s <= n)%nat ->
  (encodeURIComponent s = None <-> isWellFormed s = false).
Proof.
  induction n as [|n IH]; intros s Hlen.
  - destruct s; [|cbn in Hlen; lia]. cbn. split; discriminate.
  - destruct s as [|c rest]; [cbn; split; discriminate|].
    cbn [List.length] in Hlen. cbn [encodeURIComponent isWellFormed].
    destruct (uriUnescaped c) eqn:Hun.
    + destruct (uriUnescaped_not_surrogate c Hun) as [-> ->].
      cbn [negb andb]. rewrite option_map_None. apply IH. lia.
    + destruct (isLeadingSurrogate c).
      * destruct rest as [|d rest']; [split; reflexivity|].
        cbn [List.length] in Hlen.
        destruct (isTrailingSurrogate d); [|split; reflexivity].
        cbn [andb]. rewrite option_map_None. apply IH. lia.
      * destruct (isTrailingSurrogate c); [split; reflexivity|].
        cbn [negb andb]. rewrite option_map_None. apply IH. lia.
Qed.

Lemma isWellFormed_stripLeadingSlashes : forall p,
  isWellFormed (stripLeadingSlashes p) = isWellFormed p.
Proof.
  induction p as [|c p IH]; [reflexivity|].
  unfold stripLeadingSlashes in *. cbn [dropWhile].
  destruct (Z.eqb_spec c 47) as [->|Hc]; [|reflexivity].
  rewrite IH. reflexivity.
Qed.

(** X1.  The path encoder throws (URIError) exactly on the paths that hold
    an unpaired surrogate; on every other string it returns. *)
Theorem encodeUriPathComponent_throws_iff_ill_formed : forall p,
  encodeUriPathComponent p = None <-> isWellFormed p = false.
Proof.
  intros p. unfold encodeUriPathComponent.
  rewrite (encodeURIComponent_None_bounded
             (List.length (stripLeadingSlashes p))) by apply le_n.
  now rewrite isWellFormed_stripLeadingSlashes.
Qed.

Lemma utf8Octets_octets : forall cp,
  0 <= cp <= 1114111 -> Forall isOctet (utf8Octets cp).
Proof.
  intros cp Hcp. unfold utf8Octets, isOctet.
  destruct (Z.ltb_spec cp 128); [|destruct (Z.ltb_spec cp 2048);
                                  [|destruct (Z.ltb_spec cp 65536)]];
    repeat constructor; Z.div_mod_to_equations; lia.
Qed.

Lemma hexDigit_unescaped : forall d,
  0 <= d < 16 -> uriUnescaped (hexDigit d) = true.
Proof.
  intros d Hd. unfold uriUnescaped, hexDigit, inRange. cbn [existsb].
  destruct (Z.ltb_spec d 10); lia.
Qed.

Lemma escapeOctets_segment : forall bs,
  Forall isOctet bs -> forallb isSegmentUnit (escapeOctets bs) = true.
Proof.
  induction 1 as [|b bs Hb _ IH]; [reflexivity|].
  unfold isOctet in Hb. cbn [escapeOctets flat_map].
  fold (escapeOctets bs). rewrite forallb_app, IH, andb_true_r.
  unfold escapeOctet, isSegmentUnit. cbn [forallb].
  rewrite !hexDigit_unescaped.
  - rewrite Z.eqb_refl, orb_true_r. reflexivity.
  - apply Z.mod_pos_bound. lia.
  - split; [apply Z.div_pos | apply Z.div_lt_upper_bound]; lia.
Qed.

Lemma encodeURIComponent_segment_bounded : forall n s e,
  (List.length s <= n)%nat -> Forall codeUnit s ->
  encodeURIComponent s = Some e -> forallb isSegmentUnit e = true.
Proof.
  induction n as [|n IH]; intros s e Hlen Hcu Henc.
  - destruct s; [|cbn in Hlen; lia]. cbn in Henc. now inversion Henc.
  - destruct s as [|c rest]; [cbn in Henc; now inversion Henc|].
    cbn [List.length] in Hlen. inversion Hcu as [|? ? Hc Hrest]; subst.
    cbn [encodeURIComponent] in Henc.
    destruct (uriUnescaped c) eqn:Hun.
    + destruct (encodeURIComponent rest) as [e'|] eqn:He'; [|discriminate].
      cbn in Henc. inversion Henc; subst. cbn [forallb].
      unfold isSegmentUnit at 1. rewrite Hun. cbn [orb andb].
      apply (IH rest); [lia | exact Hrest | exact He'].
    + destruct (isLeadingSurrogate c) eqn:Hl.
      * destruct rest as [|d rest']; [discriminate|].
        destruct (isTrailingSurrogate d) eqn:Ht; [|discriminate].
        inversion Hrest as [|? ? Hd Hrest']; subst.
        cbn [List.length] in Hlen.
        destruct (encodeURIComponent rest') as [e'|] eqn:He'; [|discriminate].
        cbn in Henc. inversion Henc; subst. rewrite forallb_app.
        rewrite (IH rest' e') by (lia || assumption). rewrite andb_true_r.
        apply escapeOctets_segment, utf8Octets_octets.
        destruct (utf16_pair c d Hl Ht) as [[Hr _] _]. exact Hr.
      * destruct (isTrailingSurrogate c) eqn:Ht; [discriminate|].
        destruct (encodeURIComponent rest) as [e'|] eqn:He'; [|discriminate].
        cbn in Henc. inversion Henc; subst. rewrite forallb_app.
        rewrite (IH rest e') by (lia || assumption). rewrite andb_true_r.
        apply escapeOctets_segment, utf8Octets_octets.
        unfold codeUnit in Hc. lia.
Qed.

Lemma encoded_path_segment : forall p e,
  Forall codeUnit p -> encodeUriPathComponent p = Some e ->
  forallb isSegmentUnit e = true.
Proof.
  intros p e Hcu Henc. unfold encodeUriPathComponent in Henc.
  apply (encodeURIComponent_segment_bounded
           (List.length (stripLeadingSlashes p)) (stripLeadingSlashes p));
    [apply le_n | now apply stripLeadingSlashes_codeUnit | exact Henc].
Qed.

Lemma segment_no_unit : forall e c,
  forallb isSegmentUnit e = true -> isSegmentUnit c = false -> ~ In c e.
Proof.
  intros e c He Hc Hin. rewrite forallb_forall in He.
  specialize (He c Hin). congruence.
Qed.

(** X2.  An encoded path is one opaque URI segment: it is made of
    unreserved characters and percent signs only, so it holds no slash, no
    comma and no brace, whatever the path was. *)
Theorem encoded_path_is_one_segment : forall p e,
  Forall codeUnit p -> encodeUriPathComponent p = Some e ->
  forallb isSegmentUnit e = true
  /\ ~ In 47 e /\ ~ In 44 e /\ ~ In 123 e /\ ~ In 125 e.
Proof.
  intros p e Hcu Henc.
  pose proof (encoded_path_segment p e Hcu Henc) as Hseg.
  split; [exact Hseg|].
  repeat split; apply segment_no_unit; (exact Hseg || reflexivity).
Qed.

Lemma encoded_path_is_one_segment_witness :
  forallb isSegmentUnit (js "users%2F%7Bid%7D") = true
  /\ ~ In 47 (js "users%2F%7Bid%7D") /\ ~ In 44 (js "users%2F%7Bid%7D")
  /\ ~ In 123 (js "users%2F%7Bid%7D") /\ ~ In 125 (js "users%2F%7Bid%7D").
Proof.
  apply (encoded_path_is_one_segment (js "/users/{id}")).
  - apply codeUnits_checked. reflexivity.
  - reflexivity.
Defined.

Lemma encodeURIComponent_Some_wellFormed : forall s e,
  encodeURIComponent s = Some e -> isWellFormed s = true.
Proof.
  intros s e Henc. destruct (isWellFormed s) eqn:Hwf; [reflexivity|].
  apply (encodeURIComponent_None_bounded (List.length s) s (le_n _)) in Hwf.
  congruence.
Qed.

Lemma encodeUriPathComponent_injective : forall p q e,
  Forall codeUnit p -> Forall codeUnit q ->
  encodeUriPathComponent p = Some e -> encodeUriPathComponent q = Some e ->
  stripLeadingSlashes p = stripLeadingSlashes q.
Proof.
  intros p q e Hp Hq Hep Heq. unfold encodeUriPathComponent in *.
  destruct (decode_encode (stripLeadingSlashes p)) as (e1 & He1 & Hd1);
    [now apply stripLeadingSlashes_codeUnit
    |now apply (encodeURIComponent_Some_wellFormed _ e)|].
  destruct (decode_encode (stripLeadingSlashes q)) as (e2 & He2 & Hd2);
    [now apply stripLeadingSlashes_codeUnit
    |now apply (encodeURIComponent_Some_wellFormed _ e)|].
  congruence.
Qed.

(** X3.  Two paths get the same path-item URI under a spec exactly when
    they are equal up to leading slashes: distinct documented paths never
    share an address. *)
Theorem path_item_uri_same_iff : forall specId p q u,
  Forall codeUnit p -> Forall codeUnit q ->
  buildPathItemUri specId p = Some u ->
  (buildPathItemUri specId q = Some u
   <-> stripLeadingSlashes p = stripLeadingSlashes q).
Proof.
  intros specId p q u Hp Hq Hu. unfold buildPathItemUri in *.
  destruct (encodeUriPathComponent p) as [e1|] eqn:He1; [|discriminate].
  cbn [option_map] in Hu.
  assert (Hu' : u = BASE_URI_SCHEME ++ specId ++ js "/paths/" ++ e1)
    by congruence.
  subst u. clear Hu. split.
  - destruct (encodeUriPathComponent q) as [e2|] eqn:He2; [|discriminate].
    cbn [option_map]. intros H.
    assert (Heq : BASE_URI_SCHEME ++ specId ++ js "/paths/" ++ e2
                  = BASE_URI_SCHEME ++ specId ++ js "/paths/" ++ e1)
      by congruence.
    do 3 apply app_inv_head in Heq. subst e2.
    now apply (encodeUriPathComponent_injective p q e1).
  - intros Hstrip. unfold encodeUriPathComponent in *.
    rewrite <- Hstrip, He1. reflexivity.
Qed.

Lemma path_item_uri_same_iff_witness :
  buildPathItemUri (js "test-api") (js "users/{userId}")
  = Some (js "openapi://test-api/paths/users%2F%7BuserId%7D")
  <-> stripLeadingSlashes (js "/users/{userId}")
      = stripLeadingSlashes (js "users/{userId}").
Proof.
  apply (path_item_uri_same_iff (js "test-api") (js "/users/{userId}")).
  - apply codeUnits_checked. reflexivity.
  - apply codeUnits_checked. reflexivity.
  - reflexivity.
Defined.

Lemma split_at_first : forall (c : Z) (a b x y : jsstring),
  ~ In c a -> ~ In c b -> a ++ c :: x = b ++ c :: y -> a = b /\ x = y.
Proof.
  intros c. induction a as [|h a IH]; intros [|k b] x y Ha Hb Heq;
    cbn [app] in Heq.
  - inversion Heq. now split.
  - inversion Heq; subst. exfalso. apply Hb. now left.
  - inversion Heq; subst. exfalso. apply Ha. now left.
  - inversion Heq; subst.
    destruct (IH b x y) as [-> ->]; [| |assumption|now split].
    + intros H. apply Ha. now right.
    + intros H. apply Hb. now right.
Qed.

(** X4.  An operation URI determines its path (up to leading slashes) and
    its lower-cased method: the encoded path holds no slash, so the URI
    splits at one place only.  Conversely the URI depends on nothing
    else. *)
Theorem operation_uri_same_iff : forall specId p q m m' u,
  Forall codeUnit p -> Forall codeUnit q ->
  buildOperationUri specId p m = Some u ->
  (buildOperationUri specId q m' = Some u
   <-> stripLeadingSlashes p = stripLeadingSlashes q
       /\ toLowerCase m = toLowerCase m').
Proof.
  intros specId p q m m' u Hp Hq Hu. unfold buildOperationUri in *.
  destruct (encodeUriPathComponent p) as [e1|] eqn:He1; [|discriminate].
  cbn [option_map] in Hu.
  assert (Hu' : u = BASE_URI_SCHEME ++ specId ++ js "/paths/" ++ e1
                    ++ js "/" ++ toLowerCase m)
    by congruence.
  subst u. clear Hu. split.
  - destruct (encodeUriPathComponent q) as [e2|] eqn:He2; [|discriminate].
    cbn [option_map]. intros H.
    assert (Heq : BASE_URI_SCHEME ++ specId ++ js "/paths/" ++ e2
                  ++ js "/" ++ toLowerCase m'
                  = BASE_URI_SCHEME ++ specId ++ js "/paths/" ++ e1
                    ++ js "/" ++ toLowerCase m)
      by congruence.
    do 3 apply app_inv_head in Heq.
    change (js "/") with [47] in Heq. cbn [app] in Heq.
    apply split_at_first in Heq as [-> Hm].
    + split; [now apply (encodeUriPathComponent_injective p q e1) | auto].
    + apply segment_no_unit; [now apply (encoded_path_segment q)|reflexivity].
    + apply segment_no_unit; [now apply (encoded_path_segment p)|reflexivity].
  - intros [Hstrip Hm]. unfold encodeUriPathComponent in *.
    rewrite <- Hstrip, He1, Hm. reflexivity.
Qed.

Lemma operation_uri_same_iff_witness :
  buildOperationUri (js "test-api") (js "users") (js "get")
  = Some (js "openapi://test-api/paths/users/get")
  <-> stripLeadingSlashes (js "/users") = stripLeadingSlashes (js "users")
      /\ toLowerCase (js "GET") = toLowerCase (js "get").
Proof.
  apply (operation_uri_same_iff (js "test-api") (js "/users") (js "users")
                                (js "GET") (js "get")).
  - apply codeUnits_checked. reflexivity.
  - apply codeUnits_checked. reflexivity.
  - reflexivity.
Defined.

(** ** [slugify] *)

Lemma dropWhile_unchanged : forall p s,
  forallb (fun c => negb (p c)) s = true -> dropWhile p s = s.
Proof.
  intros p [|c s] H; [reflexivity|]. cbn [forallb] in H.
  apply andb_true_iff in H as [Hc _]. cbn [dropWhile].
  now destruct (p c).
Qed.

Lemma dropWhileEnd_unchanged : forall p s,
  forallb (fun c => negb (p c)) s = true -> dropWhileEnd p s = s.
Proof.
  intros p s H. unfold dropWhileEnd.
  rewrite dropWhile_unchanged; [apply rev_involutive|].
  rewrite forallb_forall in *. intros c Hc. apply H. now apply in_rev.
Qed.

Lemma filter_unchanged : forall (f : Z -> bool) s,
  forallb f s = true -> filter f s = s.
Proof.
  intros f. induction s as [|c s IH]; intros H; [reflexivity|].
  cbn [forallb] in H. apply andb_true_iff in H as [Hc Hs].
  cbn [filter]. rewrite Hc. f_equal. now apply IH.
Qed.

Lemma replaceRuns_unchanged : forall p r s,
  forallb (fun c => negb (p c)) s = true -> replaceRuns p r s = s.
Proof.
  intros p r. induction s as [|c s IH]; intros H; [reflexivity|].
  cbn [forallb] in H. apply andb_true_iff in H as [Hc Hs].
  cbn [replaceRuns]. apply negb_true_iff in Hc. rewrite Hc.
  f_equal. now apply IH.
Qed.

Lemma replaceRuns_single_hyphens : forall s,
  adjacentHyphens s = false -> replaceRuns isHyphen (js "-") s = s.
Proof.
  induction s as [|c s IH]; intros H; [reflexivity|].
  cbn [replaceRuns]. unfold isHyphen in *.
  destruct (Z.eqb_spec c 45) as [->|Hc].
  - destruct s as [|d s]; [reflexivity|].
    cbn [adjacentHyphens] in H. apply orb_false_iff in H as [Hd Hs].
    cbn [andb] in Hd. change (45 =? 45) with true in Hd. cbn [andb] in Hd.
    rewrite Hd. rewrite (IH Hs). reflexivity.
  - rewrite adjacentHyphens_cons_other in H by exact Hc.
    f_equal. now apply IH.
Qed.

Lemma toLowerCase_slug : forall s,
  forallb isSlugUnit s = true -> toLowerCase s = s.
Proof.
  unfold toLowerCase. induction s as [|c s IH]; intros H; [reflexivity|].
  cbn [forallb] in H. apply andb_true_iff in H as [Hc Hs].
  cbn [flat_map]. rewrite (IH Hs).
  unfold lowerUnit, isSlugUnit, inRange in *.
  replace ((65 <=? c) && (c <=? 90)) with false by lia.
  replace (c =? 304) with false by lia.
  replace (c =? 8490) with false by lia. reflexivity.
Qed.

Lemma slug_unit_facts : forall c,
  isSlugUnit c = true ->
  isSpace c = false /\ (c =? 95) = false
  /\ isWord c || isSpace c || isHyphen c = true.
Proof.
  intros c H. unfold isSlugUnit, isSpace, isWord, isHyphen, inRange in *.
  cbn [existsb]. repeat split; lia.
Qed.

Lemma slugify_fixes_slugs : forall s, slugShaped s -> slugify s = s.
Proof.
  intros s (Hunits & Hadjacent & Hhead & Hlast). unfold slugify.
  assert (Hall : forall c, In c s -> isSlugUnit c = true)
    by now apply forallb_forall.
  rewrite toLowerCase_slug by exact Hunits.
  assert (Htrim : trim s = s).
  { unfold trim.
    assert (Hns : forallb (fun c => negb (isSpace c)) s = true).
    { apply forallb_forall. intros c Hc.
      now destruct (slug_unit_facts c (Hall c Hc)) as (-> & _). }
    now rewrite (dropWhile_unchanged isSpace s Hns),
      (dropWhileEnd_unchanged isSpace s Hns). }
  rewrite Htrim.
  unfold removeAll. rewrite filter_unchanged.
  2:{ apply forallb_forall. intros c Hc.
      destruct (slug_unit_facts c (Hall c Hc)) as (_ & _ & ->).
      reflexivity. }
  rewrite (replaceRuns_unchanged (fun c => isSpace c || (c =? 95))).
  2:{ apply forallb_forall. intros c Hc.
      now destruct (slug_unit_facts c (Hall c Hc)) as (-> & -> & _). }
  rewrite replaceRuns_single_hyphens by exact Hadjacent.
  assert (Hd : dropWhile isHyphen s = s).
  { destruct s as [|c s']; [reflexivity|]. cbn [dropWhile]. unfold isHyphen.
    destruct (Z.eqb_spec c 45) as [->|]; [|reflexivity].
    now contradiction Hhead. }
  rewrite Hd. unfold dropWhileEnd.
  assert (Hr : dropWhile isHyphen (rev s) = rev s).
  { destruct (rev s) as [|c r]; [reflexivity|]. cbn [dropWhile].
    unfold isHyphen. destruct (Z.eqb_spec c 45) as [->|]; [|reflexivity].
    now contradiction Hlast. }
  rewrite Hr. apply rev_involutive.
Qed.

(** X5.  [slugify] always gives a string of lower-case ASCII letters,
    digits and single hyphens with no hyphen at either end; it leaves every
    such string as it is, so slugifying a slug again changes nothing. *)
Theorem slugify_idempotent : forall text,
  slugShaped (slugify text)
  /\ slugify (slugify text) = slugify text
  /\ (forall s, slugShaped s -> slugify s = s).
Proof.
  intros text. split; [apply slugify_shaped|]. split.
  - apply slugify_fixes_slugs, slugify_shaped.
  - apply slugify_fixes_slugs.
Qed.

Lemma slugify_idempotent_witness :
  slugify (js "vtex-catalog-api") = js "vtex-catalog-api".
Proof.
  apply (proj2 (proj2 (slugify_idempotent []))).
  repeat split; try reflexivity; discriminate.
Defined.

(** ** The registry *)

Section RegistryUse.

Variable fetch : jsstring -> Outcome (Document * Outcome TransformedSpec).

Lemma get_Some_pair : forall {A} (d : Dict A) (k : jsstring) (v : A),
  get d k = Some v -> In (k, v) d.
Proof.
  intros A d k v. induction d as [|(k' & v') d IH]; cbn [get];
    [discriminate|].
  destruct (eqb k k') eqn:Heq.
  - apply eqb_eq in Heq. subst k'. intros H. inversion H; subst. now left.
  - intros H. right. now apply IH.
Qed.

Lemma loadSpecs_loop : forall specPaths specs registry,
  loadSpecs fetch specPaths specs = (registry, Returned tt) ->
  loadLoop fetch 0 specPaths specs = (registry, Returned tt).
Proof.
  intros specPaths specs registry H. unfold loadSpecs in H.
  destruct (loadLoop fetch 0 specPaths specs) as [r [[]|e]];
    [|discriminate].
  destruct (List.length r =? 0)%nat; inversion H; subst. reflexivity.
Qed.

(** X6.  After a call of [loadSpecs] that returns, the slug of every
    loaded document resolves: [getLoader] returns a loader, the one of the
    first given path whose document has that slug, and records the call. *)
Theorem loaded_slug_resolves :
  forall specPaths registry i path doc tr log,
    loadSpecs fetch specPaths [] = (registry, Returned tt) ->
    nth_error specPaths i = Some path ->
    fetch path = Returned (doc, tr) ->
    exists l,
      getLoader registry (slugFor path doc) log
      = (Returned l, log ++ [GetLoader (slugFor path doc)])
      /\ (ident l <= i)%nat
      /\ nth_error specPaths (ident l) = Some (filePath l)
      /\ slugFor (filePath l) (rawSpec l) = slugFor path doc
      /\ exists tr', fetch (filePath l) = Returned (rawSpec l, tr')
                     /\ transformedSpec l = tr'.
Proof.
  intros specPaths registry i path doc tr log Hload Hi Hfetch.
  apply loadSpecs_loop in Hload.
  apply loadLoop_added in Hload as (added & Hr & _ & Hadded & Hall).
  cbn [app] in Hr. subst registry.
  pose proof (Hall eq_refl i path doc tr Hi Hfetch) as Hin.
  apply get_Some_In in Hin as (e & Hget).
  pose proof (get_Some_pair _ _ _ Hget) as Hpair.
  destruct (Hadded _ _ Hpair)
    as (_ & k & p & d & t & Hk & Hf & Hs & He & Hearlier).
  cbn [Nat.add] in He.
  exists (loader e). unfold getLoader, bind, emit. rewrite Hget.
  split; [reflexivity|]. subst e. cbn [loader entryFor loaderOf ident
    filePath rawSpec transformedSpec].
  split.
  - destruct (Nat.le_gt_cases k i) as [Hle|Hgt]; [exact Hle|].
    exfalso. now apply (Hearlier i path doc tr Hgt Hi Hfetch).
  - split; [exact Hk|]. split; [now symmetry|]. now exists t.
Qed.

Lemma loadLoop_app : forall pre post next specs,
  loadLoop fetch next (pre ++ post) specs
  = match loadLoop fetch next pre specs with
    | (specs', Returned _) =>
        loadLoop fetch (next + List.length pre) post specs'
    | (specs', Thrown e) => (specs', Thrown e)
    end.
Proof.
  induction pre as [|p pre IH]; intros post next specs.
  - cbn. now rewrite Nat.add_0_r.
  - cbn [app loadLoop List.length].
    destruct (fetch p) as [(doc & tr)|e]; [|reflexivity].
    rewrite Nat.add_succ_r.
    destruct (has specs (slugFor p doc)); apply IH.
Qed.

Lemma loadLoop_all_loaded : forall pre next specs,
  Forall (fun q => exists d, fetch q = Returned d) pre ->
  snd (loadLoop fetch next pre specs) = Returned tt.
Proof.
  induction pre as [|p pre IH]; intros next specs Hall; [reflexivity|].
  inversion Hall as [|? ? (d & Hd) Hrest]; subst.
  cbn [loadLoop]. rewrite Hd. destruct d as (doc & tr).
  destruct (has specs (slugFor p doc)); now apply IH.
Qed.

(** X7.  When a load fails, [loadSpecs] rejects with the error of the
    first failing path; the paths after it are never loaded, and the
    registry holds what the paths before it gave. *)
Theorem loadSpecs_stops_at_first_failure :
  forall pre path post e specs,
    Forall (fun q => exists d, fetch q = Returned d) pre ->
    fetch path = Thrown e ->
    loadSpecs fetch (pre ++ path :: post) specs
    = (fst (loadSpecs fetch pre specs), Thrown e).
Proof.
  intros pre path post e specs Hpre Hfail. unfold loadSpecs.
  rewrite loadLoop_app.
  pose proof (loadLoop_all_loaded pre 0 specs Hpre) as Hok.
  destruct (loadLoop fetch 0 pre specs) as [r o]. cbn [snd] in Hok.
  subst o. cbn [loadLoop]. rewrite Hfail.
  now destruct (List.length r =? 0)%nat.
Qed.

End RegistryUse.

Lemma loaded_slug_resolves_witness :
  exists l,
    getLoader (fst (loadSpecs sampleFetch
                      [js "specs/demo.json"; js "specs/copy.yaml"] []))
              (slugFor (js "specs/copy.yaml") (documentTitled (js "demo_api")))
              []
    = (Returned l,
       [] ++ [GetLoader (slugFor (js "specs/copy.yaml")
                                 (documentTitled (js "demo_api")))])
    /\ (ident l <= 1)%nat
    /\ nth_error [js "specs/demo.json"; js "specs/copy.yaml"] (ident l)
       = Some (filePath l)
    /\ slugFor (filePath l) (rawSpec l)
       = slugFor (js "specs/copy.yaml") (documentTitled (js "demo_api"))
    /\ exists tr', sampleFetch (filePath l) = Returned (rawSpec l, tr')
                   /\ transformedSpec l = tr'.
Proof.
  apply (loaded_slug_resolves
           sampleFetch
           [js "specs/demo.json"; js "specs/copy.yaml"]
           (fst (loadSpecs sampleFetch
                   [js "specs/demo.json"; js "specs/copy.yaml"] []))
           1%nat (js "specs/copy.yaml") (documentTitled (js "demo_api"))
           (Returned (V3Document (documentTitled (js "demo_api")))) []);
    reflexivity.
Defined.

Lemma loadSpecs_stops_at_first_failure_witness :
  loadSpecs sampleFetch
            [js "specs/demo.json"; js "missing.json"; js "specs/petstore.json"]
            []
  = (fst (loadSpecs sampleFetch [js "specs/demo.json"] []),
     Thrown (js "ENOENT")).
Proof.
  apply (loadSpecs_stops_at_first_failure
           sampleFetch [js "specs/demo.json"] (js "missing.json")
           [js "specs/petstore.json"] (js "ENOENT") []).
  - repeat constructor. eexists. reflexivity.
  - reflexivity.
Defined.

Section RegistryOrder.

Variable fetch : jsstring -> Outcome (Document * Outcome TransformedSpec).

Lemma has_includes : forall (specs : Registry) (s : jsstring),
  has specs s = includes (keys specs) s.
Proof.
  intros specs s. unfold has.
  destruct (hasKey specs s) eqn:Hh, (includes (keys specs) s) eqn:Hi;
    try reflexivity.
  - apply hasKey_In, includes_In in Hh. congruence.
  - apply includes_In, hasKey_In in Hi. congruence.
Qed.

Lemma loadLoop_keys : forall rest next specs,
  keys (fst (loadLoop fetch next rest specs))
  = keys specs ++ firstOccurrences (keys specs) (loadedSlugs fetch rest).
Proof.
  induction rest as [|p rest IH]; intros next specs;
    cbn [loadLoop loadedSlugs firstOccurrences].
  - cbn [fst]. now rewrite app_nil_r.
  - destruct (fetch p) as [(doc & tr)|e];
      [|cbn [fst firstOccurrences]; now rewrite app_nil_r].
    cbn [firstOccurrences]. rewrite has_includes.
    destruct (includes (keys specs) (slugFor p doc)); [apply IH|].
    rewrite IH. unfold set. rewrite keys_app. cbn [keys map fst].
    now rewrite <- app_assoc.
Qed.

Lemma loadSpecs_fst : forall specPaths specs,
  fst (loadSpecs fetch specPaths specs)
  = fst (loadLoop fetch 0 specPaths specs).
Proof.
  intros specPaths specs. unfold loadSpecs.
  destruct (loadLoop fetch 0 specPaths specs) as [r [[]|e]];
    [|reflexivity].
  now destruct (List.length r =? 0)%nat.
Qed.

(** X8.  The slugs of the registry, in listing order, are the slugs of the
    loaded documents in the order of the given paths, each kept at its
    first occurrence only (up to the first load that fails). *)
Theorem registry_lists_slugs_in_load_order : forall specPaths,
  getSpecSlugs (fst (loadSpecs fetch specPaths []))
  = firstOccurrences [] (loadedSlugs fetch specPaths).
Proof.
  intros specPaths. unfold getSpecSlugs.
  rewrite loadSpecs_fst, loadLoop_keys. reflexivity.
Qed.

Lemma map_slug_keys : forall entries : Registry,
  (forall s e, In (s, e) entries -> slug e = s) ->
  map slug (getAllSpecs entries) = getSpecSlugs entries.
Proof.
  unfold getAllSpecs, getSpecSlugs, keys.
  induction entries as [|(s & e) entries IH]; intros H; [reflexivity|].
  cbn [map fst snd]. f_equal; [apply H; now left|].
  apply IH. intros s' e' Hin. apply H. now right.
Qed.

(** X9.  The registry is consistent with the documents it was built from:
    the key of an entry is the slug stored in the entry, its title is never
    empty, its path count is the number of paths of the loaded document,
    and its loader was made for one of the given paths. *)
Theorem registry_entries_consistent : forall specPaths registry o,
  loadSpecs fetch specPaths [] = (registry, o) ->
  map slug (getAllSpecs registry) = getSpecSlugs registry
  /\ forall e,
      In e (getAllSpecs registry) ->
      title e <> []
      /\ In (filePath (loader e)) specPaths
      /\ pathCount e = match paths (rawSpec (loader e)) with
                       | Some ps => List.length (keys ps)
                       | None => 0%nat
                       end
      /\ exists tr, fetch (filePath (loader e))
                    = Returned (rawSpec (loader e), tr).
Proof.
  intros specPaths registry o Hload.
  assert (Hr : registry = fst (loadLoop fetch 0 specPaths []))
    by (rewrite <- loadSpecs_fst, Hload; reflexivity).
  destruct (loadLoop fetch 0 specPaths []) as [r o'] eqn:Hloop.
  cbn [fst] in Hr. subst r.
  apply loadLoop_added in Hloop as (added & Hadd & _ & Hadded & _).
  cbn [app] in Hadd. subst added. split.
  - apply map_slug_keys. intros s e Hin.
    destruct (Hadded s e Hin) as (_ & k & p & d & t & _ & _ & _ & -> & _).
    reflexivity.
  - intros e Hin. unfold getAllSpecs in Hin.
    apply in_map_iff in Hin as ((s & e') & He' & Hin). cbn in He'. subst e'.
    destruct (Hadded s e Hin) as (_ & k & p & d & t & Hk & Hf & _ & -> & _).
    cbn [title pathCount loader entryFor loaderOf filePath rawSpec].
    split; [|split; [|split]].
    + unfold orElse. destruct (infoTitle d) as [[|c t0]|]; discriminate.
    + now apply nth_error_In in Hk.
    + reflexivity.
    + now exists t.
Qed.

End RegistryOrder.

Lemma registry_entries_consistent_witness :
  let registry :=
    fst (loadSpecs sampleFetch
                   [js "specs/demo.json"; js "specs/petstore.json"] []) in
  map slug (getAllSpecs registry) = getSpecSlugs registry
  /\ forall e,
      In e (getAllSpecs registry) ->
      title e <> []
      /\ In (filePath (loader e))
            [js "specs/demo.json"; js "specs/petstore.json"]
      /\ pathCount e = match paths (rawSpec (loader e)) with
                       | Some ps => List.length (keys ps)
                       | None => 0%nat
                       end
      /\ exists tr, sampleFetch (filePath (loader e))
                    = Returned (rawSpec (loader e), tr).
Proof.
  intros registry.
  apply (registry_entries_consistent
           sampleFetch [js "specs/demo.json"; js "specs/petstore.json"]
           registry (Returned tt)).
  reflexivity.
Defined.

(** ** Loading never ends with an empty registry *)

Lemma loadLoop_failure : forall fetch specPaths next specs specs' e,
  loadLoop fetch next specPaths specs = (specs', Thrown e) ->
  exists pre path post,
    specPaths = pre ++ path :: post
    /\ Forall (fun q => exists d, fetch q = Returned d) pre
    /\ fetch path = Thrown e
    /\ specs' = fst (loadLoop fetch next pre specs).
Proof.
  intros fetch paths. induction paths as [|p rest IH];
    intros next specs specs' e Hloop; cbn [loadLoop] in Hloop;
    [discriminate|].
  destruct (fetch p) as [(doc & tr)|err] eqn:Hp.
  - assert (Hstep : exists specs1,
               loadLoop fetch (S next) rest specs1 = (specs', Thrown e)
               /\ forall pre,
                   fst (loadLoop fetch next (p :: pre) specs)
                   = fst (loadLoop fetch (S next) pre specs1)).
    { destruct (has specs (slugFor p doc)) eqn:Hhas.
      - exists specs. split; [exact Hloop|].
        intros pre. cbn [loadLoop]. now rewrite Hp, Hhas.
      - eexists. split; [exact Hloop|].
        intros pre. cbn [loadLoop]. now rewrite Hp, Hhas. }
    destruct Hstep as (specs1 & Hrest & Hfst).
    destruct (IH _ _ _ _ Hrest) as (pre & path & post & -> & Hpre & Hpath & ->).
    exists (p :: pre), path, post. split; [reflexivity|].
    split; [constructor; [now exists (doc, tr) | exact Hpre]|].
    split; [exact Hpath|]. now rewrite Hfst.
  - inversion Hloop; subst.
    exists [], p, rest. split; [reflexivity|]. split; [constructor|].
    split; [exact Hp | reflexivity].
Qed.

Lemma loadLoop_not_empty : forall fetch specPaths next specs,
  Forall (fun q => exists d, fetch q = Returned d) specPaths ->
  specPaths <> [] \/ specs <> [] ->
  fst (loadLoop fetch next specPaths specs) <> [].
Proof.
  intros fetch specPaths next specs Hall Hsome.
  assert (Hgrows : forall paths n registry,
             registry <> [] -> fst (loadLoop fetch n paths registry) <> []).
  { intros paths n registry Hne.
    destruct (loadLoop fetch n paths registry) as [r o] eqn:Hloop.
    apply loadLoop_added in Hloop as (added & -> & _).
    cbn [fst]. destruct registry; [congruence | discriminate]. }
  destruct specPaths as [|p rest].
  - destruct Hsome as [H | H]; [congruence|]. cbn. exact H.
  - inversion Hall as [|? ? ((doc & tr) & Hp) _]; subst.
    cbn [loadLoop]. rewrite Hp.
    destruct (has specs (slugFor p doc)) eqn:Hhas.
    + apply Hgrows. intros ->. discriminate.
    + apply Hgrows. unfold set. now destruct specs.
Qed.

Lemma loadLoop_empty_result : forall fetch paths specs,
  loadLoop fetch 0 paths specs = ([], Returned tt) ->
  paths = [] /\ specs = [].
Proof.
  intros fetch paths specs Hloop.
  destruct (loadLoop_added fetch _ _ _ _ _ Hloop) as (added & Hr & _).
  symmetry in Hr. apply app_eq_nil in Hr as [-> _].
  split; [|reflexivity].
  now apply (loadLoop_empty_without_paths fetch).
Qed.

(** C10 (as amended).  After a call of [loadSpecs] that returns, the
    registry holds at least one entry.  When the call throws, the error is
    the one of the first load that failed, thrown at once with the registry
    as the earlier paths left it, unless the loop went through every path:
    then the registry is empty, no path was given, and the error is "No
    specs were loaded successfully.".  A failed load never leads to that
    message, and skipping a path whose slug is taken needs an entry, so when
    every given path loads and a path was given or the registry held an
    entry, the call returns. *)
Theorem loadSpecs_never_empty :
  forall fetch (specPaths : list jsstring) (specs : Registry),
    (forall specs',
        loadSpecs fetch specPaths specs = (specs', Returned tt) ->
        (1 <= List.length specs')%nat)
    /\ (forall specs' e,
           loadSpecs fetch specPaths specs = (specs', Thrown e) ->
           (exists pre path post,
               specPaths = pre ++ path :: post
               /\ Forall (fun q => exists d, fetch q = Returned d) pre
               /\ fetch path = Thrown e
               /\ specs' = fst (loadLoop fetch 0 pre specs))
           \/ (e = noSpecsMessage
               /\ specPaths = [] /\ specs = [] /\ specs' = []))
    /\ (specPaths = [] -> specs = [] ->
        loadSpecs fetch specPaths specs = ([], Thrown noSpecsMessage))
    /\ (Forall (fun q => exists d, fetch q = Returned d) specPaths ->
        specPaths <> [] \/ specs <> [] ->
        exists specs',
          loadSpecs fetch specPaths specs = (specs', Returned tt)).
Proof.
  intros fetch specPaths specs. split; [|split; [|split]].
  - intros specs'. unfold loadSpecs.
    destruct (loadLoop fetch 0 specPaths specs) as [r [u|e]];
      [|discriminate].
    destruct (Nat.eqb_spec (List.length r) 0); [discriminate|].
    intros H. inversion H; subst. lia.
  - intros specs' e. unfold loadSpecs.
    destruct (loadLoop fetch 0 specPaths specs) as [r [u|err]] eqn:Hloop.
    + destruct (Nat.eqb_spec (List.length r) 0) as [Hlen|];
        [|discriminate].
      intros H. inversion H; subst. right.
      destruct specs' as [|x r]; [|discriminate].
      destruct u.
      destruct (loadLoop_empty_result _ _ _ Hloop) as [-> ->].
      now repeat split.
    + intros H. inversion H; subst. left.
      now apply loadLoop_failure.
  - intros -> ->. reflexivity.
  - intros Hall Hsome. unfold loadSpecs.
    pose proof (loadLoop_all_loaded fetch specPaths 0 specs Hall) as Hok.
    pose proof (loadLoop_not_empty fetch specPaths 0 specs Hall Hsome) as Hne.
    destruct (loadLoop fetch 0 specPaths specs) as [r o].
    cbn [fst snd] in *. subst o.
    destruct r as [|x r]; [congruence|].
    eexists. reflexivity.
Qed.

Lemma loadSpecs_never_empty_witness :
  (1 <= List.length demoRegistry)%nat
  /\ loadSpecs sampleFetch [] [] = ([], Thrown noSpecsMessage)
  /\ exists specs',
       loadSpecs sampleFetch [js "specs/demo.json"; js "specs/copy.yaml"] []
       = (specs', Returned tt).
Proof.
  split; [|split].
  - apply (proj1 (loadSpecs_never_empty sampleFetch [js "specs/demo.json"] [])
                 demoRegistry).
    reflexivity.
  - apply (proj1 (proj2 (proj2 (loadSpecs_never_empty sampleFetch [] []))));
      reflexivity.
  - apply (proj2 (proj2 (proj2 (loadSpecs_never_empty
                                  sampleFetch
                                  [js "specs/demo.json"; js "specs/copy.yaml"]
                                  []))));
      [|left; discriminate].
    repeat constructor; eexists; reflexivity.
Defined.

(** Every load fails and the registry stays empty, yet the error is the
    loader's, not "No specs were loaded successfully.". *)
Lemma loadSpecs_failed_loads_keep_their_error :
  loadSpecs sampleFetch [js "missing.json"] [] = ([], Thrown (js "ENOENT"))
  /\ loadSpecs sampleFetch [js "missing.json"; js "absent.yaml"] []
     = ([], Thrown (js "ENOENT"))
  /\ js "ENOENT" <> noSpecsMessage.
Proof.
  split; [reflexivity|]. split; [reflexivity | discriminate].
Qed.

(** ** Request handlers: failures *)

Lemma bind_eq : forall {A B} (m : Eff A) (k : A -> Eff B) log,
  bind m k log
  = match m log with
    | (Returned a, log') => k a log'
    | (Thrown e, log') => (Thrown e, log')
    end.
Proof. reflexivity. Qed.

Lemma tryCatch_eq : forall {A} (m : Eff A) (h : jsstring -> Eff A) log,
  tryCatch m h log
  = match m log with
    | (Returned a, log') => (Returned a, log')
    | (Thrown e, log') => h e log'
    end.
Proof. reflexivity. Qed.

Lemma resolve_document_fails :
  forall specManager specId message,
    documentFailure specManager specId = Some message ->
    forall {A} (k : Document -> Eff A) log,
      bind (getLoader specManager specId)
           (fun loader =>
              bind (getTransformedSpec loader)
                   (fun spec => bind (requireOpenAPIV3 spec) k))
           log
      = (Thrown message, log ++ documentCalls specManager specId).
Proof.
  intros specManager specId message Hfail A k log.
  unfold documentFailure, documentCalls in *.
  unfold getLoader, getTransformedSpec, bind, emit, ofOutcome.
  destruct (get specManager specId) as [entry|].
  - cbv beta iota zeta. unfold ret at 1. cbv beta iota zeta.
    destruct (transformedSpec (loader entry)) as [[d|]|e].
    + discriminate.
    + inversion Hfail; subst. cbn. now rewrite <- app_assoc.
    + inversion Hfail; subst. cbn. now rewrite <- app_assoc.
  - inversion Hfail; subst. reflexivity.
Qed.

Lemma resolve_document_succeeds :
  forall specManager specId entry doc,
    get specManager specId = Some entry ->
    transformedSpec (loader entry) = Returned (V3Document doc) ->
    forall {A} (k : Document -> Eff A) log,
      bind (getLoader specManager specId)
           (fun loader =>
              bind (getTransformedSpec loader)
                   (fun spec => bind (requireOpenAPIV3 spec) k))
           log
      = k doc (log ++ documentCalls specManager specId).
Proof.
  intros specManager specId entry doc Hentry Hspec A k log.
  unfold documentCalls.
  unfold getLoader, getTransformedSpec, bind, emit, ofOutcome.
  rewrite Hentry. cbv beta iota zeta. unfold ret at 1. cbv beta iota zeta.
  rewrite Hspec. cbn. now rewrite <- app_assoc.
Qed.

(** X10. When no OpenAPI v3 document can be had for the spec id (the id is
    not registered, the loader fails, or the document is not OpenAPI v3), a
    read handler that gets as far as asking for the document answers with
    exactly one error item, at the URI of the request, whose text is the
    reason; the registry is asked once and the loader at most once.  The
    top-level-field handler always gets that far; the component-map handler
    for an allowed type; the component-detail handler for an allowed type
    and a selector that holds a name; the path-item handler for a path that
    decodes and encodes again; the operation handler for such a path and a
    selector that holds a method. *)
Theorem unavailable_document_is_one_error_item :
  forall specManager specId message log,
    documentFailure specManager specId = Some message ->
    let answer suffix :=
      (Returned [errorItem (BASE_URI ++ specId ++ js "/" ++ suffix) message],
       log ++ documentCalls specManager specId) in
    (forall type,
        includes VALID_COMPONENT_TYPES type = true ->
        componentMapHandleRequest specManager specId type log
        = answer (js "components/" ++ type))
    /\ (forall type nameVar,
           includes VALID_COMPONENT_TYPES type = true ->
           selectorValues nameVar <> [] ->
           componentDetailHandleRequest specManager specId type nameVar log
           = answer (errorSuffixOf (js "components/" ++ type) nameVar))
    /\ (forall encodedPath decoded encoded,
           decodeURIComponent (pathOrEmpty encodedPath) = Some decoded ->
           encodeUriPathComponent decoded = Some encoded ->
           pathItemHandleRequest specManager specId encodedPath log
           = answer (js "paths/" ++ encoded))
    /\ (forall encodedPath decoded encoded methodVar,
           decodeURIComponent (pathOrEmpty encodedPath) = Some decoded ->
           encodeUriPathComponent decoded = Some encoded ->
           selectorValues methodVar <> [] ->
           operationHandleRequest specManager specId encodedPath methodVar log
           = answer (errorSuffixOf (js "paths/" ++ encoded) methodVar))
    /\ (forall renderPathsList renderComponentsList renderTopLevelField field,
           topLevelFieldHandleRequest renderPathsList renderComponentsList
                                      renderTopLevelField
                                      specManager specId field log
           = answer field).
Proof.
  intros specManager specId message log Hfail answer. subst answer.
  split; [|split; [|split; [|split]]].
  - intros type Hvalid.
    unfold componentMapHandleRequest. cbv zeta.
    rewrite bind_eq, tryCatch_eq, bind_eq. rewrite Hvalid. cbn [negb].
    unfold ret at 1. cbv beta iota.
    rewrite (resolve_document_fails _ _ _ Hfail). reflexivity.
  - intros type nameVar Hvalid Hnames.
    unfold componentDetailHandleRequest. cbv zeta.
    rewrite bind_eq, tryCatch_eq, bind_eq. rewrite Hvalid. cbn [negb].
    unfold ret at 1. cbv beta iota. rewrite bind_eq.
    destruct (selectorValues nameVar) as [|n names] eqn:Hsel; [congruence|].
    cbn [List.length Nat.eqb]. unfold ret at 1. cbv beta iota.
    rewrite (resolve_document_fails _ _ _ Hfail). reflexivity.
  - intros encodedPath decoded encoded Hdec Henc.
    unfold pathItemHandleRequest. rewrite bind_eq, Hdec.
    unfold orURIError at 1, ret at 1. cbv beta iota.
    unfold buildPathItemUriSuffix. rewrite Henc. cbn [option_map].
    rewrite bind_eq. unfold orURIError at 1, ret at 1. cbv beta iota zeta.
    rewrite bind_eq, tryCatch_eq.
    rewrite (resolve_document_fails _ _ _ Hfail). reflexivity.
  - intros encodedPath decoded encoded methodVar Hdec Henc Hmethods.
    unfold operationHandleRequest. rewrite requestedMethods_lowered.
    rewrite bind_eq, Hdec.
    unfold orURIError at 1, ret at 1. cbv beta iota.
    unfold buildPathItemUriSuffix. rewrite Henc. cbn [option_map].
    rewrite bind_eq. unfold orURIError at 1, ret at 1. cbv beta iota zeta.
    rewrite bind_eq, tryCatch_eq.
    destruct (selectorValues methodVar) as [|m methods] eqn:Hsel;
      [congruence|].
    cbn [map]. rewrite (resolve_document_fails _ _ _ Hfail). reflexivity.
  - intros renderPathsList renderComponentsList renderTopLevelField field.
    unfold topLevelFieldHandleRequest. cbv zeta.
    rewrite bind_eq, tryCatch_eq.
    rewrite (resolve_document_fails _ _ _ Hfail). reflexivity.
Qed.

Lemma unavailable_document_is_one_error_item_witness :
  documentFailure [(js "demo-api", sampleEntry [])] (js "demo-api")
  = Some notV3Message
  /\ componentMapHandleRequest [(js "demo-api", sampleEntry [])]
                               (js "demo-api") (js "schemas") []
     = (Returned [errorItem (js "openapi://demo-api/components/schemas")
                            notV3Message],
        [GetLoader (js "demo-api"); GetTransformedSpec 0])
  /\ pathItemHandleRequest [(js "demo-api", sampleEntry [])]
                           (js "demo-api") (Some (js "items%2F%7Bid%7D")) []
     = (Returned [errorItem (js "openapi://demo-api/paths/items%2F%7Bid%7D")
                            notV3Message],
        [GetLoader (js "demo-api"); GetTransformedSpec 0]).
Proof.
  split; [reflexivity|].
  pose proof (unavailable_document_is_one_error_item
                [(js "demo-api", sampleEntry [])] (js "demo-api")
                notV3Message [] eq_refl) as [Hmap [_ [Hpath _]]].
  split.
  - apply (Hmap (js "schemas")). reflexivity.
  - apply (Hpath (Some (js "items%2F%7Bid%7D")) (js "items/{id}")
                 (js "items%2F%7Bid%7D")); reflexivity.
Defined.

(** ** Request handlers: what they return and when they reject *)

Lemma documentFailure_None :
  forall specManager specId,
    documentFailure specManager specId = None ->
    exists entry doc,
      get specManager specId = Some entry
      /\ transformedSpec (loader entry) = Returned (V3Document doc).
Proof.
  intros specManager specId H. unfold documentFailure in H.
  destruct (get specManager specId) as [entry|]; [|discriminate].
  destruct (transformedSpec (loader entry)) as [[doc|]|e] eqn:Hspec;
    try discriminate.
  now exists entry, doc.
Qed.

Lemma renderPathItemList_outcome :
  forall ctx pathItem path suffix log,
    exists r,
      renderPathItemList ctx pathItem path suffix log = (r, log)
      /\ match r with
         | Returned items =>
             exists item, items = [item] /\ uriSuffix item = suffix
                          /\ isError item || renderAsList item = true
         | Thrown _ => True
         end.
Proof.
  intros ctx pathItem path suffix log. unfold renderPathItemList.
  cbv zeta. destruct (declaredMethods pathItem) as [|first rest].
  - eexists. split; [reflexivity|]. eexists. now split.
  - rewrite bind_eq.
    destruct (generateListHint ctx _) as [hint|]; cbn.
    + eexists. split; [reflexivity|]. eexists. now split.
    + eexists. split; [reflexivity|]. exact I.
Qed.

Lemma path_item_body_outcome :
  forall ctx doc lookupPath suffix log,
    exists r,
      bind (getValidatedPathItem doc lookupPath)
           (fun pathItemObj =>
              renderPathItemList ctx pathItemObj lookupPath suffix) log
      = (r, log)
      /\ match r with
         | Returned items =>
             exists item, items = [item] /\ uriSuffix item = suffix
                          /\ isError item || renderAsList item = true
         | Thrown _ => True
         end.
Proof.
  intros ctx doc lookupPath suffix log. rewrite bind_eq.
  unfold getValidatedPathItem.
  destruct (paths doc) as [ps|].
  - destruct (get ps lookupPath) as [item|].
    + apply renderPathItemList_outcome.
    + eexists. split; [reflexivity|]. exact I.
  - eexists. split; [reflexivity|]. exact I.
Qed.

Lemma renderOperationDetail_outcome :
  forall path validOps log,
    exists r,
      renderOperationDetail path validOps log = (r, log)
      /\ match r with
         | Returned items => List.length items = List.length validOps
         | Thrown _ => True
         end.
Proof.
  intros path validOps log. induction validOps as [|(m & op) rest IH].
  - eexists. split; reflexivity.
  - cbn [renderOperationDetail]. rewrite bind_eq.
    destruct (buildOperationUriSuffix path m) as [suffix|]; cbn.
    + rewrite bind_eq. destruct IH as (r & Hr & Hlen). rewrite Hr.
      destruct r as [items|e].
      * eexists. split; [reflexivity|]. cbn. now rewrite Hlen.
      * eexists. split; [reflexivity|]. exact I.
    + eexists. split; [reflexivity|]. exact I.
Qed.

Lemma operation_body_outcome :
  forall doc lookupPath methods log,
    exists r,
      bind (getValidatedPathItem doc lookupPath)
           (fun pathItemObj =>
              bind (getValidatedOperations pathItemObj methods lookupPath)
                   (fun validOps => renderOperationDetail lookupPath validOps))
           log
      = (r, log)
      /\ match r with
         | Returned items => items <> []
         | Thrown _ => True
         end.
Proof.
  intros doc lookupPath methods log. rewrite bind_eq.
  unfold getValidatedPathItem.
  destruct (paths doc) as [ps|];
    [|eexists; split; [reflexivity|exact I]].
  destruct (get ps lookupPath) as [item|];
    [|eexists; split; [reflexivity|exact I]].
  unfold ret at 1. cbv beta iota. rewrite bind_eq.
  unfold getValidatedOperations.
  destruct (validOperations item methods) as [|v valid];
    [eexists; split; [reflexivity|exact I]|].
  unfold ret at 1. cbv beta iota.
  destruct (renderOperationDetail_outcome lookupPath (v :: valid) log)
    as (r & Hr & Hlen).
  exists r. split; [exact Hr|].
  destruct r as [items|e]; [|exact I].
  intros ->. discriminate.
Qed.

(** X11. The path handlers reject a request (the promise of the handler is
    rejected with URIError, nothing is looked up) exactly when the path
    variable does not decode or its decoding cannot be encoded again.
    Otherwise they return: the path-item handler exactly one text/plain item,
    addressed by the URI the builder gives for the decoded path, after asking
    for the document once; the operation handler at least one item. *)
Theorem path_handlers_reject_only_malformed_paths :
  forall specManager specId encodedPath methodVar log,
    (decodeURIComponent (pathOrEmpty encodedPath) = None
     \/ (exists decoded,
            decodeURIComponent (pathOrEmpty encodedPath) = Some decoded
            /\ encodeUriPathComponent decoded = None) ->
     pathItemHandleRequest specManager specId encodedPath log
     = (Thrown (js "URI malformed"), log)
     /\ operationHandleRequest specManager specId encodedPath methodVar log
        = (Thrown (js "URI malformed"), log))
    /\ (forall decoded u,
           decodeURIComponent (pathOrEmpty encodedPath) = Some decoded ->
           buildPathItemUri specId decoded = Some u ->
           (exists item,
               pathItemHandleRequest specManager specId encodedPath log
               = (Returned [item], log ++ documentCalls specManager specId)
               /\ uri item = u /\ mimeType item = TextPlain)
           /\ (exists item items log',
                  operationHandleRequest specManager specId encodedPath
                                         methodVar log
                  = (Returned (item :: items), log'))).
Proof.
  intros specManager specId encodedPath methodVar log. split.
  - intros H. split.
    + unfold pathItemHandleRequest. rewrite bind_eq.
      destruct H as [Hdec | (decoded & Hdec & Henc)]; rewrite Hdec;
        [reflexivity|].
      unfold orURIError at 1, ret at 1. cbv beta iota. rewrite bind_eq.
      unfold buildPathItemUriSuffix. rewrite Henc. reflexivity.
    + unfold operationHandleRequest. rewrite requestedMethods_lowered.
      rewrite bind_eq.
      destruct H as [Hdec | (decoded & Hdec & Henc)]; rewrite Hdec;
        [reflexivity|].
      unfold orURIError at 1, ret at 1. cbv beta iota. rewrite bind_eq.
      unfold buildPathItemUriSuffix. rewrite Henc. reflexivity.
  - intros decoded u Hdec Hu. unfold buildPathItemUri in Hu.
    destruct (encodeUriPathComponent decoded) as [encoded|] eqn:Henc;
      [|discriminate].
    cbn [option_map] in Hu.
    assert (Hu' : u = BASE_URI ++ specId ++ js "/" ++ js "paths/" ++ encoded)
      by (inversion Hu; reflexivity).
    clear Hu. subst u.
    destruct (documentFailure specManager specId) as [message|] eqn:Hdoc.
    + pose proof (@resolve_document_fails _ _ _ Hdoc) as Hfail.
      split.
      * unfold pathItemHandleRequest. rewrite bind_eq, Hdec.
        unfold orURIError at 1, ret at 1. cbv beta iota.
        unfold buildPathItemUriSuffix. rewrite Henc. cbn [option_map].
        rewrite bind_eq. unfold orURIError at 1, ret at 1.
        cbv beta iota zeta. rewrite bind_eq, tryCatch_eq, Hfail.
        eexists. split; [reflexivity|]. now split.
      * unfold operationHandleRequest. rewrite requestedMethods_lowered.
        rewrite bind_eq, Hdec.
        unfold orURIError at 1, ret at 1. cbv beta iota.
        unfold buildPathItemUriSuffix. rewrite Henc. cbn [option_map].
        rewrite bind_eq. unfold orURIError at 1, ret at 1.
        cbv beta iota zeta. rewrite bind_eq, tryCatch_eq.
        destruct (map toLowerCase (selectorValues methodVar)) as [|m ms].
        -- do 3 eexists. reflexivity.
        -- rewrite Hfail. do 3 eexists. reflexivity.
    + destruct (documentFailure_None _ _ Hdoc) as (entry & doc & Hentry & Hspec).
      pose proof (@resolve_document_succeeds _ _ _ _ Hentry Hspec) as Hok.
      split.
      * unfold pathItemHandleRequest. rewrite bind_eq, Hdec.
        unfold orURIError at 1, ret at 1. cbv beta iota.
        unfold buildPathItemUriSuffix. rewrite Henc. cbn [option_map].
        rewrite bind_eq. unfold orURIError at 1, ret at 1.
        cbv beta iota zeta. rewrite bind_eq, tryCatch_eq, Hok.
        destruct (path_item_body_outcome
                    {| baseUri := BASE_URI; specId := specId |} doc
                    (lookupPathOf decoded) (js "paths/" ++ encoded)
                    (log ++ documentCalls specManager specId))
          as (r & Hr & Hitems).
        rewrite Hr. destruct r as [items|e].
        -- destruct Hitems as (item & -> & Hsuffix & Hplain).
           eexists. split; [reflexivity|].
           cbn [formatResults map uri mimeType baseUri Rendering.specId].
           rewrite Hsuffix, Hplain. now split.
        -- eexists. split; [reflexivity|]. now split.
      * unfold operationHandleRequest. rewrite requestedMethods_lowered.
        rewrite bind_eq, Hdec.
        unfold orURIError at 1, ret at 1. cbv beta iota.
        unfold buildPathItemUriSuffix. rewrite Henc. cbn [option_map].
        rewrite bind_eq. unfold orURIError at 1, ret at 1.
        cbv beta iota zeta. rewrite bind_eq, tryCatch_eq.
        destruct (map toLowerCase (selectorValues methodVar)) as [|m ms].
        -- do 3 eexists. reflexivity.
        -- rewrite Hok.
           destruct (operation_body_outcome doc (lookupPathOf decoded)
                       (m :: ms) (log ++ documentCalls specManager specId))
             as (r & Hr & Hitems).
           rewrite Hr. destruct r as [[|item items]|e].
           ++ congruence.
           ++ do 3 eexists. reflexivity.
           ++ do 3 eexists. reflexivity.
Qed.

Lemma path_handlers_reject_only_malformed_paths_witness :
  (pathItemHandleRequest demoRegistry (js "demo-api") (Some (js "%7B%")) []
   = (Thrown (js "URI malformed"), [])
   /\ operationHandleRequest demoRegistry (js "demo-api") (Some (js "%7B%"))
                             (Str (js "get")) []
      = (Thrown (js "URI malformed"), []))
  /\ (exists item,
         pathItemHandleRequest demoRegistry (js "demo-api")
                               (Some (js "items%2F%7Bid%7D")) []
         = (Returned [item], [] ++ documentCalls demoRegistry (js "demo-api"))
         /\ uri item = js "openapi://demo-api/paths/items%2F%7Bid%7D"
         /\ mimeType item = TextPlain).
Proof.
  split.
  - apply (proj1 (path_handlers_reject_only_malformed_paths
                    demoRegistry (js "demo-api") (Some (js "%7B%"))
                    (Str (js "get")) [])).
    left. reflexivity.
  - apply (proj2 (path_handlers_reject_only_malformed_paths
                    demoRegistry (js "demo-api")
                    (Some (js "items%2F%7Bid%7D")) (Str (js "get")) [])
                 (js "items/{id}")
                 (js "openapi://demo-api/paths/items%2F%7Bid%7D"));
      reflexivity.
Defined.

Lemma component_map_body_outcome :
  forall ctx doc type suffix log,
    exists r,
      bind (getValidatedComponentMap doc type)
           (fun componentMapObj =>
              renderComponentMapList ctx componentMapObj type suffix) log
      = (r, log)
      /\ match r with
         | Returned items =>
             exists item, items = [item] /\ uriSuffix item = suffix
                          /\ isError item || renderAsList item = true
         | Thrown _ => True
         end.
Proof.
  intros ctx doc type suffix log. rewrite bind_eq.
  unfold getValidatedComponentMap.
  destruct (components doc) as [cs|];
    [|eexists; split; [reflexivity|exact I]].
  destruct (get cs type) as [m|];
    [|eexists; split; [reflexivity|exact I]].
  unfold ret at 1. cbv beta iota. unfold renderComponentMapList.
  destruct (keys m) as [|first rest].
  - eexists. split; [reflexivity|]. eexists. now split.
  - rewrite bind_eq. destruct (generateListHint ctx _) as [hint|]; cbn.
    + eexists. split; [reflexivity|]. eexists. now split.
    + eexists. split; [reflexivity|]. exact I.
Qed.

Lemma renderComponentDetail_length :
  forall componentMap type (valid : list (jsstring * Json)),
    Forall (fun nc => get componentMap (fst nc) = Some (snd nc)) valid ->
    renderComponentDetail componentMap type (map fst valid)
    = map (fun nc =>
             {| uriSuffix := buildComponentDetailUriSuffix type (fst nc);
                data := ObjectData (snd nc);
                isError := false;
                errorText := None;
                renderAsList := false |})
          valid.
Proof.
  intros componentMap type valid H. unfold renderComponentDetail.
  induction H as [|(n & c) valid Hn _ IH]; [reflexivity|].
  cbn [map flat_map fst snd] in *. rewrite Hn, IH. reflexivity.
Qed.

Lemma validDetails_Forall :
  forall (detailsMap : ComponentMap) (names : list jsstring),
    Forall (fun nc => get detailsMap (fst nc) = Some (snd nc))
           (flat_map (fun n => match get detailsMap n with
                               | Some c => [(n, c)]
                               | None => []
                               end)
                     names).
Proof.
  intros detailsMap names. induction names as [|n names IH]; [constructor|].
  cbn [flat_map]. destruct (get detailsMap n) as [c|] eqn:Hn; [|exact IH].
  cbn [app]. constructor; [exact Hn | exact IH].
Qed.

Lemma validDetails_Forall2 :
  forall (detailsMap : ComponentMap) (names : list jsstring),
    Forall2 (fun n nc => fst nc = n /\ get detailsMap n = Some (snd nc))
            (filter (hasKey detailsMap) names)
            (flat_map (fun n => match get detailsMap n with
                                | Some c => [(n, c)]
                                | None => []
                                end)
                      names).
Proof.
  intros detailsMap names.
  induction names as [|n names IH]; cbn [filter flat_map]; [constructor|].
  unfold hasKey at 1. destruct (get detailsMap n) as [c|] eqn:Hn;
    [|exact IH].
  cbn [app]. constructor; [now split | exact IH].
Qed.

Lemma detail_items_Forall2 :
  forall (specId type : jsstring) (componentMap : ComponentMap)
         (names : list jsstring) (pairs : list (jsstring * Json)),
    Forall2 (fun n nc => fst nc = n /\ get componentMap n = Some (snd nc))
            names pairs ->
    Forall2
      (fun n item =>
         exists c,
           get componentMap n = Some c
           /\ item = detailItem (buildComponentDetailUri specId type n) c)
      names
      (formatResults
         {| baseUri := BASE_URI; specId := specId |}
         (map (fun nc =>
                 {| uriSuffix := buildComponentDetailUriSuffix type (fst nc);
                    data := ObjectData (snd nc);
                    isError := false;
                    errorText := None;
                    renderAsList := false |})
              pairs)).
Proof.
  intros specId type componentMap names pairs Hall.
  unfold formatResults. rewrite map_map.
  induction Hall as [|n nc ns ncs [Hfst Hget] _ IH]; [constructor|].
  cbn [map]. constructor; [|exact IH].
  exists (snd nc). split; [exact Hget|].
  subst n. reflexivity.
Qed.

(** X12. For an allowed type that the document has, the component-detail
    handler answers the requested names (trimmed, empty ones dropped) with
    one detail item per name the category holds, in request order and with
    repetitions, each under the URI of its own component and carrying that
    component; names the category lacks give no item, unless none of the
    names is held: then the answer is one error item listing the names asked
    for and the names there are. *)
Theorem component_detail_valid_names :
  forall (specManager : Registry) (specId type : jsstring)
         (nameVar : Variable_) (entry : LoadedSpec) (doc : Document)
         (cs : Dict ComponentMap) (componentMap : ComponentMap)
         (log : list Event),
    includes VALID_COMPONENT_TYPES type = true ->
    get specManager specId = Some entry ->
    transformedSpec (loader entry) = Returned (V3Document doc) ->
    components doc = Some cs ->
    get cs type = Some componentMap ->
    let names := selectorValues nameVar in
    let valid := filter (hasKey componentMap) names in
    names <> [] ->
    exists items,
      componentDetailHandleRequest specManager specId type nameVar log
      = (Returned items, log ++ documentCalls specManager specId)
      /\ (valid = [] ->
          items = [errorItem
                     (BASE_URI ++ specId ++ js "/"
                      ++ errorSuffixOf (js "components/" ++ type) nameVar)
                     (noValidNamesMessage names (keys componentMap) type)])
      /\ (valid <> [] ->
          Forall2
            (fun n item =>
               exists c,
                 get componentMap n = Some c
                 /\ item
                    = detailItem (buildComponentDetailUri specId type n) c)
            valid items).
Proof.
  intros specManager specId type nameVar entry doc cs componentMap log
         Hvalid Hentry Hspec Hcs Hmap names valid Hnames.
  unfold componentDetailHandleRequest. cbv zeta.
  rewrite bind_eq, tryCatch_eq, bind_eq. rewrite Hvalid. cbn [negb].
  unfold ret at 1. cbv beta iota. rewrite bind_eq.
  fold names.
  destruct names as [|n0 names0] eqn:Hsel; [congruence|].
  cbn [List.length Nat.eqb]. unfold ret at 1. cbv beta iota.
  rewrite (resolve_document_succeeds _ _ _ _ Hentry Hspec).
  rewrite bind_eq. unfold getValidatedComponentMap. rewrite Hcs, Hmap.
  unfold ret at 1. cbv beta iota. rewrite bind_eq.
  unfold getValidatedComponentDetails. cbv zeta.
  pose proof (validDetails_Forall2 componentMap (n0 :: names0)) as Hpairs.
  pose proof (validDetails_Forall componentMap (n0 :: names0)) as Hheld.
  fold valid in Hpairs.
  destruct (flat_map _ (n0 :: names0)) as [|v0 vs] eqn:Hvs.
  - inversion Hpairs as [Hnil|].
    eexists. split; [reflexivity|]. split; [|congruence].
    intros _. reflexivity.
  - unfold ret at 1. cbv beta iota.
    rewrite (renderComponentDetail_length _ _ _ Hheld).
    unfold ret at 1. cbv beta iota.
    eexists. split; [reflexivity|].
    split.
    + intros Hnil. rewrite Hnil in Hpairs. inversion Hpairs.
    + intros _. now apply detail_items_Forall2.
Qed.

Lemma component_detail_valid_names_witness :
  exists items,
    componentDetailHandleRequest (registryOf demoComponents) (js "one")
                                 (js "schemas")
                                 (Arr [js "User"; js "Nope"; js " User "]) []
    = (Returned items,
       [] ++ documentCalls (registryOf demoComponents) (js "one"))
    /\ Forall2
         (fun n item =>
            exists c,
              get [(js "User", userSchema)] n = Some c
              /\ item
                 = detailItem
                     (buildComponentDetailUri (js "one") (js "schemas") n) c)
         [js "User"; js "User"] items.
Proof.
  pose proof (component_detail_valid_names
                (registryOf demoComponents) (js "one") (js "schemas")
                (Arr [js "User"; js "Nope"; js " User "])
                (entryOf demoComponents) (documentOf demoComponents)
                demoComponents [(js "User", userSchema)] []
                eq_refl eq_refl eq_refl eq_refl eq_refl) as H.
  cbv zeta in H.
  destruct H as (items & Heq & _ & Hdetails); [discriminate|].
  exists items. split; [exact Heq|].
  apply Hdetails. discriminate.
Defined.

(** X13. For an allowed component type, the component-detail handler, and
    for a path that decodes and encodes again, the operation handler refuse
    a selector none of whose elements is left after trimming (absent, empty,
    or white space only) before anything is looked up: the answer is one
    error item, and neither the registry nor a loader is asked.  The URI of
    the error item carries the selector as it was given, a list joined by
    commas. *)
Theorem empty_selector_is_refused_before_lookup :
  forall specManager specId (selector : Variable_) log,
    selectorValues selector = [] ->
    (forall type,
        includes VALID_COMPONENT_TYPES type = true ->
        componentDetailHandleRequest specManager specId type selector log
        = (Returned
             [errorItem
                (BASE_URI ++ specId ++ js "/"
                 ++ errorSuffixOf (js "components/" ++ type) selector)
                noNameMessage],
           log))
    /\ (forall encodedPath decoded encoded,
           decodeURIComponent (pathOrEmpty encodedPath) = Some decoded ->
           encodeUriPathComponent decoded = Some encoded ->
           operationHandleRequest specManager specId encodedPath selector log
           = (Returned
                [errorItem
                   (BASE_URI ++ specId ++ js "/"
                    ++ errorSuffixOf (js "paths/" ++ encoded) selector)
                   noMethodMessage],
              log)).
Proof.
  intros specManager specId selector log Hsel. split.
  - intros type Hvalid.
    unfold componentDetailHandleRequest. cbv zeta.
    rewrite bind_eq, tryCatch_eq, bind_eq. rewrite Hvalid. cbn [negb].
    unfold ret at 1. cbv beta iota. rewrite bind_eq, Hsel. reflexivity.
  - intros encodedPath decoded encoded Hdec Henc.
    unfold operationHandleRequest. rewrite requestedMethods_lowered.
    rewrite bind_eq, Hdec.
    unfold orURIError at 1, ret at 1. cbv beta iota.
    unfold buildPathItemUriSuffix. rewrite Henc. cbn [option_map].
    rewrite bind_eq. unfold orURIError at 1, ret at 1. cbv beta iota zeta.
    rewrite bind_eq, tryCatch_eq, Hsel. reflexivity.
Qed.

Lemma empty_selector_is_refused_before_lookup_witness :
  selectorValues (Arr [js " "; js ""]) = []
  /\ componentDetailHandleRequest demoRegistry (js "demo-api") (js "schemas")
                                  (Arr [js " "; js ""]) []
     = (Returned
          [errorItem (js "openapi://demo-api/components/schemas/ ,")
                     noNameMessage],
        []).
Proof.
  split; [reflexivity|].
  apply (proj1 (empty_selector_is_refused_before_lookup
                  demoRegistry (js "demo-api") (Arr [js " "; js ""]) []
                  eq_refl)
               (js "schemas")).
  reflexivity.
Defined.

(** ** The selectors of a request *)

(** X14. The methods the operation handler asks for, computed as it does
    (each element trimmed, then lower-cased, then the empty ones dropped),
    are the lower-cased elements that are left after trimming, in their
    order; none of them is empty and none holds an upper-case ASCII letter,
    so a method is found whatever the case it is written in. *)
Theorem requested_methods_normalised : forall methodVar,
  requestedMethods methodVar = map toLowerCase (selectorValues methodVar)
  /\ Forall (fun m => m <> [] /\ forallb notUpper m = true)
            (requestedMethods methodVar).
Proof.
  intros methodVar.
  assert (Heq : requestedMethods methodVar
                = map toLowerCase (selectorValues methodVar))
    by apply requestedMethods_lowered.
  split; [exact Heq|].
  rewrite Heq. apply Forall_forall. intros m Hm.
  apply in_map_iff in Hm as (n & <- & Hn).
  unfold selectorValues in Hn. apply filter_In in Hn as [_ Hn].
  split; [|apply toLowerCase_notUpper].
  intros Hnil. apply (proj1 (toLowerCase_nil_iff n)) in Hnil. subst n.
  discriminate.
Qed.

Lemma component_detail_body_outcome :
  forall doc type names log,
    exists r,
      bind (getValidatedComponentMap doc type)
           (fun componentMapObj =>
              bind (getValidatedComponentDetails componentMapObj names type)
                   (fun validDetails =>
                      ret (renderComponentDetail componentMapObj type
                                                 (map fst validDetails))))
           log
      = (r, log)
      /\ match r with
         | Returned items => items <> []
         | Thrown _ => True
         end.
Proof.
  intros doc type names log. rewrite bind_eq.
  unfold getValidatedComponentMap.
  destruct (components doc) as [cs|];
    [|eexists; split; [reflexivity|exact I]].
  destruct (get cs type) as [m|];
    [|eexists; split; [reflexivity|exact I]].
  unfold ret at 1. cbv beta iota. rewrite bind_eq.
  unfold getValidatedComponentDetails. cbv zeta.
  pose proof (validDetails_Forall m names) as Hheld.
  destruct (flat_map _ names) as [|v vs];
    [eexists; split; [reflexivity|exact I]|].
  unfold ret. cbv beta iota.
  rewrite (renderComponentDetail_length _ _ _ Hheld).
  eexists. split; [reflexivity|]. discriminate.
Qed.

(** X15. The component handlers never reject a request: whatever the
    registry holds and whatever the loader does, every failure is turned
    into an item.  The component-map handler always returns exactly one
    text/plain item, addressed by the URI the builder gives for the type; it
    asks for the document only when the type is an allowed one.  The
    component-detail handler always returns at least one item. *)
Theorem component_handlers_never_reject :
  forall specManager specId type nameVar log,
    (exists item,
        componentMapHandleRequest specManager specId type log
        = (Returned [item],
           log ++ (if includes VALID_COMPONENT_TYPES type
                   then documentCalls specManager specId else []))
        /\ uri item = buildComponentMapUri specId type
        /\ mimeType item = TextPlain)
    /\ (exists item items log',
           componentDetailHandleRequest specManager specId type nameVar log
           = (Returned (item :: items), log')).
Proof.
  intros specManager specId type nameVar log. split.
  - unfold componentMapHandleRequest. cbv zeta.
    rewrite bind_eq, tryCatch_eq, bind_eq.
    destruct (includes VALID_COMPONENT_TYPES type); cbn [negb].
    + unfold ret at 1. cbv beta iota.
      destruct (documentFailure specManager specId) as [message|] eqn:Hdoc.
      * rewrite (resolve_document_fails _ _ _ Hdoc).
        eexists. split; [reflexivity|]. now split.
      * destruct (documentFailure_None _ _ Hdoc)
          as (entry & doc & Hentry & Hspec).
        rewrite (resolve_document_succeeds _ _ _ _ Hentry Hspec).
        destruct (component_map_body_outcome
                    {| baseUri := BASE_URI; specId := specId |} doc type
                    (js "components/" ++ type)
                    (log ++ documentCalls specManager specId))
          as (r & Hr & Hitems).
        rewrite Hr. destruct r as [items|e].
        -- destruct Hitems as (item & -> & Hsuffix & Hplain).
           eexists. split; [reflexivity|].
           cbn [formatResults map uri mimeType baseUri Rendering.specId].
           rewrite Hsuffix, Hplain. now split.
        -- eexists. split; [reflexivity|]. now split.
    + rewrite app_nil_r. eexists. split; [reflexivity|]. now split.
  - unfold componentDetailHandleRequest. cbv zeta.
    rewrite bind_eq, tryCatch_eq, bind_eq.
    destruct (includes VALID_COMPONENT_TYPES type); cbn [negb];
      [|do 3 eexists; reflexivity].
    unfold ret at 1. cbv beta iota. rewrite bind_eq.
    destruct (selectorValues nameVar) as [|n names];
      [do 3 eexists; reflexivity|].
    cbn [List.length Nat.eqb]. unfold ret at 1. cbv beta iota.
    destruct (documentFailure specManager specId) as [message|] eqn:Hdoc.
    + rewrite (resolve_document_fails _ _ _ Hdoc).
      do 3 eexists. reflexivity.
    + destruct (documentFailure_None _ _ Hdoc)
        as (entry & doc & Hentry & Hspec).
      rewrite (resolve_document_succeeds _ _ _ _ Hentry Hspec).
      destruct (component_detail_body_outcome
                  doc type (n :: names)
                  (log ++ documentCalls specManager specId))
        as (r & Hr & Hitems).
      rewrite Hr. destruct r as [[|item items]|e].
      * congruence.
      * do 3 eexists. reflexivity.
      * do 3 eexists. reflexivity.
Qed.

(** ** The command line and the configuration *)

Lemma indexOf_None : forall x args,
  indexOf x args = None -> ~ In x args.
Proof.
  intros x args. induction args as [|a rest IH]; cbn [indexOf In];
    [tauto|].
  destruct (eqb a x) eqn:Hax; [discriminate|].
  destruct (indexOf x rest) as [i|]; [discriminate|].
  intros _ [Heq | Hin].
  - subst. now rewrite eqb_refl in Hax.
  - now apply IH.
Qed.

Lemma indexOf_Some : forall x args i,
  indexOf x args = Some i ->
  exists tail,
    args = firstn i args ++ x :: tail
    /\ ~ In x (firstn i args)
    /\ nth_error args (S i) = hd_error tail.
Proof.
  intros x args. induction args as [|a rest IH]; intros i Hi;
    cbn [indexOf] in Hi; [discriminate|].
  destruct (eqb a x) eqn:Hax.
  - apply eqb_eq in Hax. subst a. inversion Hi; subst.
    exists rest. cbn. split; [reflexivity|]. split; [tauto|].
    now destruct rest.
  - destruct (indexOf x rest) as [j|] eqn:Hj; [|discriminate].
    inversion Hi; subst. destruct (IH j eq_refl) as (tail & Hsplit & Hnot & Hnth).
    exists tail. cbn [firstn app nth_error In].
    split; [now rewrite <- Hsplit|]. split; [|exact Hnth].
    intros [Heq | Hin]; [|now apply Hnot].
    subst. now rewrite eqb_refl in Hax.
Qed.

(** X16. How [main] reads its arguments: the spec paths are the arguments
    before the first [--output-format], none of them is that flag, and the
    output format is the argument right after it, if there is one.  Whatever
    follows the value of the flag is dropped, and a flag in last position
    leaves the format unset. *)
Theorem parseArgs_splits_at_flag : forall args,
  exists rest,
    args = fst (parseArgs args) ++ rest
    /\ ~ In outputFormatFlag (fst (parseArgs args))
    /\ ((rest = [] /\ snd (parseArgs args) = None)
        \/ (exists tail,
               rest = outputFormatFlag :: tail
               /\ snd (parseArgs args) = hd_error tail)).
Proof.
  intros args. unfold parseArgs.
  destruct (indexOf outputFormatFlag args) as [i|] eqn:Hi.
  - destruct (indexOf_Some _ _ _ Hi) as (tail & Hsplit & Hnot & Hnth).
    exists (outputFormatFlag :: tail). cbn [fst snd].
    split; [exact Hsplit|]. split; [exact Hnot|].
    right. exists tail. now split.
  - exists []. cbn [fst snd]. rewrite app_nil_r.
    split; [reflexivity|]. split; [now apply indexOf_None|].
    left. now split.
Qed.

Lemma eqb_false_neq : forall a b : jsstring, eqb a b = false -> a <> b.
Proof.
  intros a b H Heq. subst. now rewrite eqb_refl in H.
Qed.

(** X17. [loadConfig] returns exactly when it is given at least one spec
    path and a supported format.  The configuration it returns holds the
    paths as given and one of json, yaml and json-minified, json when no
    format or the empty string was given.  It throws the usage message for a
    missing or empty list of paths, whatever the format, and the format
    message only for a non-empty format that is none of the three. *)
Theorem loadConfig_outcome : forall paths format,
  match loadConfig paths format with
  | Returned config =>
      paths = Some (specPaths config)
      /\ specPaths config <> []
      /\ outputFormat config = orElse format (js "json")
      /\ In (outputFormat config)
            [js "json"; js "yaml"; js "json-minified"]
  | Thrown message =>
      (message = noSpecPathMessage /\ (paths = None \/ paths = Some []))
      \/ (message = invalidFormatMessage
          /\ (exists p ps, paths = Some (p :: ps))
          /\ exists f, format = Some f /\ f <> []
                       /\ ~ In f [js "json"; js "yaml"; js "json-minified"])
  end.
Proof.
  intros paths format. unfold loadConfig.
  destruct paths as [[|p ps]|]; [left; now split; [|right] | |
                                 left; now split; [|left]].
  cbv zeta.
  destruct (eqb (orElse format (js "json")) (js "json")) eqn:Hj;
    cbn [negb andb].
  { apply eqb_eq in Hj. cbn [specPaths outputFormat].
    split; [reflexivity|]. split; [discriminate|]. split; [reflexivity|].
    rewrite Hj. now left. }
  destruct (eqb (orElse format (js "json")) (js "yaml")) eqn:Hy;
    cbn [negb andb].
  { apply eqb_eq in Hy. cbn [specPaths outputFormat].
    split; [reflexivity|]. split; [discriminate|]. split; [reflexivity|].
    rewrite Hy. right. now left. }
  destruct (eqb (orElse format (js "json")) (js "json-minified")) eqn:Hm;
    cbn [negb].
  { apply eqb_eq in Hm. cbn [specPaths outputFormat].
    split; [reflexivity|]. split; [discriminate|]. split; [reflexivity|].
    rewrite Hm. right. right. now left. }
  right. split; [reflexivity|]. split; [now exists p, ps|].
  apply eqb_false_neq in Hj, Hy, Hm.
  unfold orElse in *. destruct format as [f|]; [|congruence].
  destruct (isEmpty f) eqn:He; [congruence|].
  exists f. split; [reflexivity|]. split.
  - intros ->. discriminate.
  - intros [H | [H | [H | []]]]; congruence.
Qed.

(** ** Glob expansion *)

Lemma ltb_irrefl : forall a, ltb a a = false.
Proof.
  induction a as [|x a IH]; [reflexivity|].
  cbn [ltb]. rewrite Z.ltb_irrefl, Z.eqb_refl, IH. reflexivity.
Qed.

Lemma ltb_asym : forall a b, ltb a b = true -> ltb b a = false.
Proof.
  induction a as [|x a IH]; intros [|y b] H; cbn [ltb] in *;
    try reflexivity; try discriminate.
  apply orb_true_iff in H as [Hlt | Heq].
  - apply Z.ltb_lt in Hlt.
    replace (y <? x) with false by lia.
    replace (y =? x) with false by lia. reflexivity.
  - apply andb_true_iff in Heq as [Hxy Hab]. apply Z.eqb_eq in Hxy. subst y.
    rewrite Z.ltb_irrefl, Z.eqb_refl. cbn [orb andb]. now apply IH.
Qed.

Lemma insertSorted_perm : forall x l, Permutation (x :: l) (insertSorted x l).
Proof.
  intros x l. induction l as [|y rest IH]; cbn [insertSorted];
    [apply Permutation_refl|].
  destruct (ltb y x); [|apply Permutation_refl].
  eapply Permutation_trans; [apply perm_swap|]. now apply perm_skip.
Qed.

Lemma sort_perm : forall l, Permutation l (GlobExpand.sort l).
Proof.
  induction l as [|x l IH]; [apply Permutation_refl|].
  unfold GlobExpand.sort in *. cbn [fold_right].
  eapply Permutation_trans; [|apply insertSorted_perm].
  now apply perm_skip.
Qed.

Lemma insertSorted_sorted : forall x l,
  sortedStrings l = true -> sortedStrings (insertSorted x l) = true.
Proof.
  intros x l. induction l as [|y rest IH]; intros Hs; [reflexivity|].
  cbn [insertSorted]. destruct (ltb y x) eqn:Hyx.
  - assert (Hrest : sortedStrings rest = true).
    { destruct rest as [|z rest']; [reflexivity|].
      cbn [sortedStrings] in Hs. now apply andb_true_iff in Hs as [_ Hs]. }
    specialize (IH Hrest).
    destruct rest as [|z rest'].
    + cbn [insertSorted sortedStrings]. unfold leb.
      now rewrite (ltb_asym _ _ Hyx).
    + cbn [insertSorted] in *. destruct (ltb z x) eqn:Hzx.
      * cbn [sortedStrings] in Hs |- *.
        apply andb_true_iff in Hs as [Hyz _].
        apply andb_true_iff. split; [exact Hyz | exact IH].
      * cbn [sortedStrings] in IH |- *.
        apply andb_true_iff. split; [|exact IH].
        unfold leb. now rewrite (ltb_asym _ _ Hyx).
  - cbn [sortedStrings] in *. apply andb_true_iff. split; [|exact Hs].
    unfold leb. now rewrite Hyx.
Qed.

Lemma sort_sorted : forall l, sortedStrings (GlobExpand.sort l) = true.
Proof.
  induction l as [|x l IH]; [reflexivity|].
  unfold GlobExpand.sort in *. cbn [fold_right].
  now apply insertSorted_sorted.
Qed.

Section Globbing.

Variable fg : jsstring -> Outcome (list jsstring).

Lemma expandLoop_from : forall patterns expanded,
  expandLoop fg patterns expanded
  = match expandLoop fg patterns [] with
    | Returned out => Returned (expanded ++ out)
    | Thrown e => Thrown e
    end.
Proof.
  induction patterns as [|p rest IH]; intros expanded; cbn [expandLoop].
  - now rewrite app_nil_r.
  - destruct (isUrl p).
    { rewrite (IH (expanded ++ [p])), (IH ([] ++ [p])).
      destruct (expandLoop fg rest []); [|reflexivity].
      now rewrite <- app_assoc. }
    destruct (isGlobPattern p).
    + destruct (fg p) as [matches|e]; [|reflexivity].
      destruct (List.length matches =? 0)%nat; [reflexivity|].
      rewrite (IH (expanded ++ _)), (IH ([] ++ _)).
      destruct (expandLoop fg rest []); [|reflexivity].
      now rewrite <- app_assoc.
    + rewrite (IH (expanded ++ [p])), (IH ([] ++ [p])).
      destruct (expandLoop fg rest []); [|reflexivity].
      now rewrite <- app_assoc.
Qed.

(** X18. What [expandGlobPatterns] returns, when it returns: the
    concatenation, in the order of the patterns, of one part per pattern.
    The part of a URL or of a path with no glob character is that path alone
    (a URL is never globbed, even with a [?] in it); the part of a glob
    pattern is the files fast-glob found for it, at least one, none lost or
    repeated, in the order of the default [sort]. *)
Theorem expandGlobPatterns_parts : forall patterns out,
  expandGlobPatterns fg patterns = Returned out ->
  exists parts,
    out = List.concat parts
    /\ Forall2
         (fun pattern part =>
            if passesThrough pattern then part = [pattern]
            else exists matches,
                fg pattern = Returned matches
                /\ matches <> []
                /\ Permutation matches part
                /\ sortedStrings part = true)
         patterns parts.
Proof.
  unfold expandGlobPatterns.
  induction patterns as [|p rest IH]; intros out Hout.
  - inversion Hout. exists []. split; [reflexivity | constructor].
  - cbn [expandLoop] in Hout.
    assert (Hpass : forall part,
               expandLoop fg rest ([] ++ part) = Returned out ->
               exists tail, out = part ++ tail
                            /\ expandLoop fg rest [] = Returned tail).
    { intros part H. rewrite expandLoop_from in H.
      destruct (expandLoop fg rest []) as [tail|e]; [|discriminate].
      inversion H. now exists tail. }
    unfold passesThrough.
    destruct (isUrl p) eqn:Hurl.
    { destruct (Hpass _ Hout) as (tail & -> & Htail).
      destruct (IH _ Htail) as (parts & -> & Hparts).
      exists ([p] :: parts). split; [reflexivity|].
      constructor; [|exact Hparts]. now rewrite Hurl. }
    destruct (isGlobPattern p) eqn:Hglob.
    + destruct (fg p) as [matches|e] eqn:Hfg; [|discriminate].
      destruct matches as [|m ms]; [discriminate|].
      cbn [List.length Nat.eqb] in Hout.
      destruct (Hpass _ Hout) as (tail & -> & Htail).
      destruct (IH _ Htail) as (parts & -> & Hparts).
      exists (GlobExpand.sort (m :: ms) :: parts). split; [reflexivity|].
      constructor; [|exact Hparts]. rewrite Hurl, Hglob. cbn [negb orb].
      exists (m :: ms). split; [exact Hfg|]. split; [discriminate|].
      split; [apply sort_perm | apply sort_sorted].
    + destruct (Hpass _ Hout) as (tail & -> & Htail).
      destruct (IH _ Htail) as (parts & -> & Hparts).
      exists ([p] :: parts). split; [reflexivity|].
      constructor; [|exact Hparts]. now rewrite Hurl, Hglob.
Qed.

(** X19. Paths that are URLs or hold no glob character come back as they
    were given, in their order, whatever the file system holds: fast-glob is
    not consulted for them. *)
Theorem expandGlobPatterns_plain_paths : forall patterns,
  forallb passesThrough patterns = true ->
  expandGlobPatterns fg patterns = Returned patterns.
Proof.
  unfold expandGlobPatterns.
  induction patterns as [|p rest IH]; intros Hall; [reflexivity|].
  cbn [forallb] in Hall. apply andb_true_iff in Hall as [Hp Hrest].
  cbn [expandLoop]. unfold passesThrough in Hp.
  assert (Hgo : expandLoop fg rest ([] ++ [p]) = Returned (p :: rest)).
  { rewrite expandLoop_from, (IH Hrest). reflexivity. }
  destruct (isUrl p); [exact Hgo|].
  destruct (isGlobPattern p); [discriminate | exact Hgo].
Qed.

(** X20. A glob pattern with no match makes the whole expansion fail with
    the message that names the pattern, once the patterns before it have been
    expanded; the patterns after it are not looked at. *)
Theorem expandGlobPatterns_unmatched_pattern :
  forall before pattern after out,
    expandGlobPatterns fg before = Returned out ->
    passesThrough pattern = false ->
    fg pattern = Returned [] ->
    expandGlobPatterns fg (before ++ pattern :: after)
    = Thrown (noMatchMessage pattern).
Proof.
  unfold expandGlobPatterns.
  intros before pattern after out Hbefore Hpass Hfg.
  unfold passesThrough in Hpass. apply orb_false_iff in Hpass as [Hurl Hglob].
  apply negb_false_iff in Hglob.
  assert (Hgen : forall expanded out',
             expandLoop fg before expanded = Returned out' ->
             expandLoop fg (before ++ pattern :: after) expanded
             = Thrown (noMatchMessage pattern)).
  { clear Hbefore out. induction before as [|p rest IH];
      intros expanded out' Hout'.
    - cbn [app expandLoop]. now rewrite Hurl, Hglob, Hfg.
    - cbn [app expandLoop] in *.
      destruct (isUrl p); [now apply (IH _ out')|].
      destruct (isGlobPattern p); [|now apply (IH _ out')].
      destruct (fg p) as [matches|e]; [|discriminate].
      destruct (List.length matches =? 0)%nat; [discriminate|].
      now apply (IH _ out'). }
  exact (Hgen [] out Hbefore).
Qed.

End Globbing.

Lemma expandGlobPatterns_parts_witness :
  exists parts,
    [js "https://x.io/a?b"; js "/w/specs/a.json"; js "/w/specs/b.json";
     js "local.yaml"]
    = List.concat parts
    /\ Forall2
         (fun pattern part =>
            if passesThrough pattern then part = [pattern]
            else exists matches,
                sampleGlob pattern = Returned matches
                /\ matches <> []
                /\ Permutation matches part
                /\ sortedStrings part = true)
         [js "https://x.io/a?b"; js "specs/*.json"; js "local.yaml"] parts.
Proof.
  apply (expandGlobPatterns_parts
           sampleGlob
           [js "https://x.io/a?b"; js "specs/*.json"; js "local.yaml"]).
  reflexivity.
Defined.

Lemma expandGlobPatterns_plain_paths_witness :
  expandGlobPatterns sampleGlob [js "https://x.io/a?b"; js "local.yaml"]
  = Returned [js "https://x.io/a?b"; js "local.yaml"].
Proof.
  apply (expandGlobPatterns_plain_paths
           sampleGlob [js "https://x.io/a?b"; js "local.yaml"]).
  reflexivity.
Defined.

Lemma expandGlobPatterns_unmatched_pattern_witness :
  expandGlobPatterns sampleGlob
                     [js "local.yaml"; js "missing/*.yaml"; js "specs/*.json"]
  = Thrown (noMatchMessage (js "missing/*.yaml")).
Proof.
  apply (expandGlobPatterns_unmatched_pattern
           sampleGlob [js "local.yaml"] (js "missing/*.yaml")
           [js "specs/*.json"] [js "local.yaml"]); reflexivity.
Defined.

(** ** Path requests the document cannot answer *)

Ltac enter_path_handler Hdec Henc :=
  rewrite bind_eq, Hdec; unfold orURIError at 1, ret at 1; cbv beta iota;
  unfold buildPathItemUriSuffix; rewrite Henc; cbn [option_map];
  rewrite bind_eq; unfold orURIError at 1, ret at 1; cbv beta iota zeta;
  rewrite bind_eq, tryCatch_eq.

Lemma getValidatedPathItem_missing : forall doc path log,
  pathItemOf doc path = None ->
  getValidatedPathItem doc path log = (Thrown (pathNotFoundMessage path), log).
Proof.
  intros doc path log H. unfold pathItemOf in H. unfold getValidatedPathItem.
  destruct (paths doc) as [ps|]; [|reflexivity].
  now rewrite H.
Qed.

Lemma getValidatedPathItem_found : forall doc path pathItem log,
  pathItemOf doc path = Some pathItem ->
  getValidatedPathItem doc path log = (Returned pathItem, log).
Proof.
  intros doc path pathItem log H. unfold pathItemOf in H.
  unfold getValidatedPathItem.
  destruct (paths doc) as [ps|]; [|discriminate].
  now rewrite H.
Qed.

(** X21. A path the document does not hold is answered by both path
    handlers with one error item that names the path as it is looked up,
    with its leading slash, whether or not the URI had one; the operation
    handler says so whatever the methods asked for. *)
Theorem unknown_path_is_one_error_item :
  forall specManager specId encodedPath decoded encoded entry doc log,
    decodeURIComponent (pathOrEmpty encodedPath) = Some decoded ->
    encodeUriPathComponent decoded = Some encoded ->
    get specManager specId = Some entry ->
    transformedSpec (loader entry) = Returned (V3Document doc) ->
    pathItemOf doc (lookupPathOf decoded) = None ->
    let answer suffix :=
      (Returned [errorItem (BASE_URI ++ specId ++ js "/" ++ suffix)
                           (pathNotFoundMessage (lookupPathOf decoded))],
       log ++ documentCalls specManager specId) in
    pathItemHandleRequest specManager specId encodedPath log
    = answer (js "paths/" ++ encoded)
    /\ forall methodVar,
        selectorValues methodVar <> [] ->
        operationHandleRequest specManager specId encodedPath methodVar log
        = answer (errorSuffixOf (js "paths/" ++ encoded) methodVar).
Proof.
  intros specManager specId encodedPath decoded encoded entry doc log
         Hdec Henc Hentry Hspec Hmissing answer. subst answer.
  split.
  - unfold pathItemHandleRequest. enter_path_handler Hdec Henc.
    rewrite (resolve_document_succeeds _ _ _ _ Hentry Hspec).
    rewrite bind_eq, (getValidatedPathItem_missing _ _ _ Hmissing).
    reflexivity.
  - intros methodVar Hsel.
    unfold operationHandleRequest. rewrite requestedMethods_lowered.
    enter_path_handler Hdec Henc.
    destruct (selectorValues methodVar) as [|m ms]; [congruence|].
    cbn [map].
    rewrite (resolve_document_succeeds _ _ _ _ Hentry Hspec).
    rewrite bind_eq, (getValidatedPathItem_missing _ _ _ Hmissing).
    reflexivity.
Qed.

Lemma unknown_path_is_one_error_item_witness :
  pathItemHandleRequest demoRegistry (js "demo-api") (Some (js "nowhere")) []
  = (Returned [errorItem (js "openapi://demo-api/paths/nowhere")
                         (pathNotFoundMessage (js "/nowhere"))],
     [] ++ documentCalls demoRegistry (js "demo-api")).
Proof.
  destruct (get demoRegistry (js "demo-api")) as [entry|] eqn:Hentry;
    [|discriminate].
  apply (unknown_path_is_one_error_item
           demoRegistry (js "demo-api") (Some (js "nowhere")) (js "nowhere")
           (js "nowhere") entry (documentTitled (js "Demo API")) []);
    try reflexivity.
  - exact Hentry.
  - vm_compute in Hentry. inversion Hentry. reflexivity.
Defined.

(** ** Completion callbacks *)

Ltac completion_leaf :=
  eexists; cbn; rewrite <- ?app_assoc; cbn; rewrite ?app_nil_r; reflexivity.

Lemma getSpecComponentTypes_never_rejects : forall specManager specId log,
  exists candidates,
    getSpecComponentTypes specManager specId log
    = (Returned candidates, log ++ documentCalls specManager specId).
Proof.
  intros specManager specId log.
  unfold getSpecComponentTypes, documentCalls.
  rewrite tryCatch_eq.
  unfold getLoader, getTransformedSpec, bind, emit, ofOutcome.
  destruct (get specManager specId) as [entry|]; [|completion_leaf].
  cbv beta iota zeta. unfold ret at 1. cbv beta iota zeta.
  destruct (transformedSpec (loader entry)) as [[doc|]|e];
    [|completion_leaf|completion_leaf].
  unfold ret at 1. cbv beta iota.
  destruct (components doc) as [cs|]; completion_leaf.
Qed.

(** X23. The completion callbacks for component types and component names
    never reject: an unknown spec, a loader that fails, a document that is
    not OpenAPI v3 or has no components all end in a list of candidates
    (an empty one).  The type callback asks for the document of the first
    registered spec and for nothing when no spec is registered; the name
    callback asks only when exactly one spec is registered. *)
Theorem component_completions_never_reject : forall specManager log,
  (exists candidates,
      typeCompletion specManager log
      = (Returned candidates,
         log ++ match getSpecSlugs specManager with
                | first :: _ => documentCalls specManager first
                | [] => []
                end))
  /\ (exists candidates,
         nameCompletion specManager log
         = (Returned candidates,
            log ++ match getSpecSlugs specManager with
                   | [only] => documentCalls specManager only
                   | _ => []
                   end)).
Proof.
  intros specManager log. split.
  - unfold typeCompletion.
    destruct (getSpecSlugs specManager) as [|first rest].
    + exists []. now rewrite app_nil_r.
    + apply getSpecComponentTypes_never_rejects.
  - unfold nameCompletion.
    destruct (getSpecSlugs specManager) as [|only [|second rest]];
      try (exists []; now rewrite app_nil_r).
    unfold documentCalls. rewrite tryCatch_eq.
    unfold getLoader, getTransformedSpec, bind, emit, ofOutcome.
    destruct (get specManager only) as [entry|]; [|completion_leaf].
    cbv beta iota zeta. unfold ret at 1. cbv beta iota zeta.
    destruct (transformedSpec (loader entry)) as [[doc|]|e];
      [|completion_leaf|completion_leaf].
    unfold ret at 1. cbv beta iota.
    unfold getValidatedComponentMap.
    destruct (components doc) as [cs|]; [|completion_leaf].
    destruct (keys cs) as [|type0 [|type1 types]]; try completion_leaf.
    destruct (get cs type0) as [m|]; completion_leaf.
Qed.

(** ** Hints and summaries of the list views *)

Lemma startsWith_prefix : forall p s, startsWith p (p ++ s) = true.
Proof.
  induction p as [|c p IH]; intros s; [reflexivity|].
  cbn [app startsWith]. now rewrite Z.eqb_refl, IH.
Qed.

Lemma hintText_shape : forall ctx pattern itemTypeName example,
  hintText ctx pattern itemTypeName example <> []
  /\ startsWith ([10] ++ js "Hint: Use '" ++ baseUri ctx)
                (hintText ctx pattern itemTypeName example) = true.
Proof.
  intros ctx pattern itemTypeName example. unfold hintText. cbv zeta.
  split; [discriminate|].
  rewrite <- (app_assoc (baseUri ctx) pattern).
  exact (startsWith_prefix
           ([10] ++ js "Hint: Use '" ++ baseUri ctx)
           (pattern ++ js "' to view details for a specific "
            ++ itemTypeName ++ js "."
            ++ match example with
               | Some e => js " (e.g., " ++ baseUri ctx ++ e ++ js ")"
               | None => []
               end)).
Qed.

Ltac hint_absurd :=
  unfold not; intros;
  repeat match goal with
         | H : _ /\ _ |- _ => destruct H
         | H : _ \/ _ |- _ => destruct H
         | H : exists _, _ |- _ => destruct H
         end;
  try discriminate; try congruence.

(** The three facts for a call that returns the hint line. *)
Lemma hint_line_outcome :
  forall ctx (result : option jsstring) (X Y : Prop) pattern name example,
    result = Some (hintText ctx pattern name example) ->
    ~ X -> ~ Y ->
    (result = None <-> X)
    /\ (result = Some [] <-> Y)
    /\ (forall text,
           result = Some text -> text <> [] ->
           startsWith ([10] ++ js "Hint: Use '" ++ baseUri ctx) text = true).
Proof.
  intros ctx result X Y pattern name example -> HX HY.
  destruct (hintText_shape ctx pattern name example) as [Hne Hstart].
  split; [|split].
  - split; [discriminate | tauto].
  - split; [|tauto]. intros H. injection H as H. contradiction.
  - intros text H _. injection H as <-. exact Hstart.
Qed.

(** X24. What [generateListHint] does.  It throws (URIError) only for a
    list of methods whose parent path holds an unpaired surrogate; it returns
    the empty string exactly when the parent it needs is missing or empty (a
    list of component names without its type, a list of methods without its
    path); in every other case the hint is the line that starts with
    [Hint: Use '] followed by the base URI. *)
Theorem generateListHint_outcome : forall ctx hint,
  (generateListHint ctx hint = None
   <-> itemType hint = pathMethod
       /\ exists p, truthy (parentPath hint) = Some p
                    /\ encodeUriPathComponent p = None)
  /\ (generateListHint ctx hint = Some []
      <-> (itemType hint = componentName
           /\ truthy (parentComponentType hint) = None)
          \/ (itemType hint = pathMethod /\ truthy (parentPath hint) = None))
  /\ (forall text,
         generateListHint ctx hint = Some text ->
         text <> [] ->
         startsWith ([10] ++ js "Hint: Use '" ++ baseUri ctx) text = true).
Proof.
  intros ctx hint. unfold generateListHint. cbv zeta.
  destruct (itemType hint) eqn:Hitem.
  - eapply hint_line_outcome; [reflexivity | hint_absurd | hint_absurd].
  - destruct (truthy (parentComponentType hint)) as [parent|] eqn:Hparent.
    + eapply hint_line_outcome; [reflexivity | hint_absurd | hint_absurd].
    + split; [|split].
      * split; hint_absurd.
      * split; [intros _; left; now split | reflexivity].
      * hint_absurd.
  - destruct (truthy (parentPath hint)) as [parent|] eqn:Hparent.
    + unfold buildOperationUriSuffix.
      destruct (encodeUriPathComponent parent) as [encoded|] eqn:Henc;
        cbn [option_map].
      * destruct (truthy (firstItemExample hint)) as [ex|];
          (eapply hint_line_outcome; [reflexivity | hint_absurd | hint_absurd]).
      * split; [|split].
        -- split; [intros _|reflexivity].
           split; [reflexivity|]. now exists parent.
        -- split; hint_absurd.
        -- hint_absurd.
    + split; [|split].
      * split; hint_absurd.
      * split; [intros _; right; now split | reflexivity].
      * hint_absurd.
Qed.

(** ** The URIs of the builders are served *)

Lemma built_path_is_decoded : forall p,
  Forall codeUnit p -> isWellFormed p = true -> normalize p = p ->
  exists encoded,
    encodeUriPathComponent p = Some encoded
    /\ decodeURIComponent encoded = Some (stripLeadingSlashes p)
    /\ encodeUriPathComponent (stripLeadingSlashes p) = Some encoded
    /\ lookupPathOf (stripLeadingSlashes p) = p.
Proof.
  intros p Hcu Hwf Hnorm.
  destruct (decode_encode (stripLeadingSlashes p)) as (e & Henc & Hdec).
  - now apply stripLeadingSlashes_codeUnit.
  - now apply stripLeadingSlashes_wellFormed.
  - exists e. split; [exact Henc|]. split; [exact Hdec|].
    assert (Hlookup : lookupPathOf (stripLeadingSlashes p) = p)
      by (now rewrite lookupPathOf_stripped).
    split; [|exact Hlookup].
    rewrite <- (encodeUriPathComponent_lookupPathOf (stripLeadingSlashes p)).
    rewrite Hlookup. exact Henc.
Qed.

Lemma canonical_method_selector : forall m,
  In m HTTP_METHODS ->
  map toLowerCase (selectorValues (Str m)) = [m].
Proof.
  intros m H. unfold HTTP_METHODS in H. cbn [map In] in H.
  repeat (destruct H as [<-|H]; [reflexivity|]). contradiction.
Qed.

(** X22. The URIs the builders give for what a document holds are served.
    For a path of the document that is well formed and starts with exactly
    one slash, the path variable of [buildPathItemUri] makes the path-item
    handler answer with one item that is not an error, under that very URI;
    and for every canonical method the path item holds, the operation handler
    given that path variable and that method answers with the one detail
    item of the operation, under the URI of [buildOperationUri]. *)
Theorem built_uris_are_served :
  forall specManager specId entry doc ps p pathItem log,
    Forall codeUnit p -> isWellFormed p = true -> normalize p = p ->
    get specManager specId = Some entry ->
    transformedSpec (loader entry) = Returned (V3Document doc) ->
    paths doc = Some ps ->
    get ps p = Some pathItem ->
    exists encoded,
      encodeUriPathComponent p = Some encoded
      /\ (exists item,
             fst (pathItemHandleRequest specManager specId (Some encoded) log)
             = Returned [item]
             /\ buildPathItemUri specId p = Some (uri item)
             /\ isErrorItem item = false)
      /\ (forall m op,
             In m HTTP_METHODS ->
             get pathItem m = Some op ->
             exists u,
               buildOperationUri specId p m = Some u
               /\ fst (operationHandleRequest specManager specId
                                              (Some encoded) (Str m) log)
                  = Returned [detailItem u op]).
Proof.
  intros specManager specId entry doc ps p pathItem log Hcu Hwf Hnorm
         Hentry Hspec Hps Hitem.
  destruct (built_path_is_decoded p Hcu Hwf Hnorm)
    as (encoded & Henc & Hdec & Henc' & Hlookup).
  exists encoded. split; [exact Henc|].
  assert (Hitem' : get ps (lookupPathOf (stripLeadingSlashes p))
                   = Some pathItem) by (now rewrite Hlookup).
  split.
  - unfold buildPathItemUri. rewrite Henc. cbn [option_map].
    destruct (declaredMethods pathItem) as [|first others] eqn:Hmethods.
    + unfold pathItemHandleRequest. cbn [pathOrEmpty].
      enter_path_handler Hdec Henc'.
      rewrite (resolve_document_succeeds _ _ _ _ Hentry Hspec).
      rewrite bind_eq. unfold getValidatedPathItem. rewrite Hps, Hitem'.
      unfold ret at 1. cbv beta iota. unfold renderPathItemList.
      rewrite Hmethods. cbv zeta. eexists. split; [reflexivity|].
      now split.
    + destruct (path_item_request_value
                  specManager specId (Some encoded)
                  (stripLeadingSlashes p) encoded entry doc ps pathItem log
                  Hdec Henc' Hentry Hspec Hps Hitem')
        as (hint & _ & Hvalue).
      { rewrite Hmethods. discriminate. }
      rewrite Hvalue. eexists. split; [reflexivity|]. now split.
  - intros m op Hm Hop.
    unfold buildOperationUri. rewrite Henc. cbn [option_map].
    eexists. split; [reflexivity|].
    pose proof (operation_request_value
                  specManager specId (Some encoded) (Str m)
                  (stripLeadingSlashes p) encoded entry doc ps pathItem log
                  Hdec Henc' Hentry Hspec Hps Hitem') as Hvalue.
    cbv zeta in Hvalue. rewrite (canonical_method_selector m Hm) in Hvalue.
    rewrite Hvalue by discriminate.
    unfold validOperations. cbn [flat_map].
    assert (Hdeclared : includes (declaredMethods pathItem) m = true).
    { apply includes_In, declaredMethods_In. split; [exact Hm|].
      apply get_Some_In. now exists op. }
    rewrite Hdeclared, Hop. reflexivity.
Qed.

Lemma built_uris_are_served_witness :
  exists encoded,
    encodeUriPathComponent (js "/items/{id}") = Some encoded
    /\ (exists item,
           fst (pathItemHandleRequest demoRegistry (js "demo-api")
                                      (Some encoded) [])
           = Returned [item]
           /\ buildPathItemUri (js "demo-api") (js "/items/{id}")
              = Some (uri item)
           /\ isErrorItem item = false)
    /\ (forall m op,
           In m HTTP_METHODS ->
           get singlePathItem m = Some op ->
           exists u,
             buildOperationUri (js "demo-api") (js "/items/{id}") m = Some u
             /\ fst (operationHandleRequest demoRegistry (js "demo-api")
                                            (Some encoded) (Str m) [])
                = Returned [detailItem u op]).
Proof.
  destruct (get demoRegistry (js "demo-api")) as [entry|] eqn:Hentry;
    [|discriminate].
  apply (built_uris_are_served
           demoRegistry (js "demo-api") entry (documentTitled (js "Demo API"))
           [(js "/items", itemsPathItem); (js "/items/{id}", singlePathItem)]
           (js "/items/{id}") singlePathItem []);
    try reflexivity.
  - apply codeUnits_checked. reflexivity.
  - exact Hentry.
  - vm_compute in Hentry. inversion Hentry. reflexivity.
Defined.

(** ** Trimming of the selectors *)

Lemma dropWhile_fixed : forall p s,
  (forall c, hd_error s = Some c -> p c = false) -> dropWhile p s = s.
Proof.
  intros p [|c s] H; [reflexivity|].
  cbn [dropWhile]. now rewrite (H c eq_refl).
Qed.

Lemma trim_ends : forall s,
  (forall c, hd_error (trim s) = Some c -> isSpace c = false)
  /\ (forall c, hd_error (rev (trim s)) = Some c -> isSpace c = false).
Proof.
  intros s. unfold trim. split.
  - intros c Hc.
    destruct (dropWhileEnd_prefix isSpace (dropWhile isSpace s)) as (b & Hb).
    destruct (dropWhileEnd isSpace (dropWhile isSpace s)) as [|x u] eqn:Hu;
      [discriminate|].
    cbn in Hc. inversion Hc; subst x.
    apply (dropWhile_head isSpace s). now rewrite Hb.
  - intros c Hc. unfold dropWhileEnd in Hc. rewrite rev_involutive in Hc.
    now apply dropWhile_head in Hc.
Qed.

Lemma trim_idempotent : forall s, trim (trim s) = trim s.
Proof.
  intros s. destruct (trim_ends s) as [Hhead Hlast].
  unfold trim at 1. rewrite (dropWhile_fixed _ _ Hhead).
  unfold dropWhileEnd. rewrite (dropWhile_fixed _ _ Hlast).
  apply rev_involutive.
Qed.

(** X25. The names and methods a request selects are trimmed strings, none
    empty: each is left unchanged by [trim].  So a component whose name
    begins or ends with white space is never looked up under its own name,
    whereas a non-empty name without surrounding white space is selected as
    it is written. *)
Theorem selector_values_are_trimmed : forall selector,
  Forall (fun n => n <> [] /\ trim n = n) (selectorValues selector)
  /\ (forall n, trim n <> n -> ~ In n (selectorValues selector))
  /\ (forall n, n <> [] -> trim n = n -> selectorValues (Str n) = [n]).
Proof.
  intros selector.
  assert (Hall : Forall (fun n => n <> [] /\ trim n = n)
                        (selectorValues selector)).
  { apply Forall_forall. intros n Hn. unfold selectorValues in Hn.
    apply filter_In in Hn as [Hin Hne]. split.
    - intros ->. discriminate.
    - destruct selector as [|s|items]; cbn [In] in Hin.
      + contradiction.
      + destruct Hin as [<-|[]]. apply trim_idempotent.
      + apply in_map_iff in Hin as (x & <- & _). apply trim_idempotent. }
  split; [exact Hall|]. split.
  - intros n Hn Hin. rewrite Forall_forall in Hall.
    now destruct (Hall n Hin).
  - intros n Hne Htrim. unfold selectorValues. cbn [filter].
    rewrite Htrim. destruct n; [congruence | reflexivity].
Qed.

(** ** Starting the server *)

Lemma loadConfig_nonempty_not_usage : forall p ps format,
  loadConfig (Some (p :: ps)) format <> Thrown noSpecPathMessage.
Proof.
  intros p ps format. unfold loadConfig. cbv zeta.
  destruct (negb _ && negb _ && negb _); discriminate.
Qed.

(** X26. [main] stops with the usage message exactly when no spec path comes
    before the output-format flag: the argument list is empty or starts with
    [--output-format].  A format given without any path is never looked
    at. *)
Theorem configOfArgs_usage_error : forall args,
  configOfArgs args = Thrown noSpecPathMessage
  <-> args = [] \/ exists tail, args = outputFormatFlag :: tail.
Proof.
  intros args. unfold configOfArgs, parseArgs.
  destruct args as [|a rest]; [split; [now left | reflexivity]|].
  cbn [indexOf]. destruct (eqb a outputFormatFlag) eqn:Ha.
  - apply eqb_eq in Ha. subst a. cbn [firstn]. split; [|reflexivity].
    intros _. right. now exists rest.
  - destruct (indexOf outputFormatFlag rest) as [i|]; cbn [option_map firstn].
    + split.
      * intros H. now apply loadConfig_nonempty_not_usage in H.
      * intros [H | (tail & H)]; [discriminate|].
        inversion H; subst. now rewrite eqb_refl in Ha.
    + split.
      * intros H. now apply loadConfig_nonempty_not_usage in H.
      * intros [H | (tail & H)]; [discriminate|].
        inversion H; subst. now rewrite eqb_refl in Ha.
Qed.
